(** * watermark.py: the text glyph tile and the diagonal tiling pattern

    A shallow embedding of [create_single_text_watermark] and
    [create_photo_text_watermark] of [watermark.py].

    - Python [int] is [Z]; Python [float] is the kernel's binary64 [float]
      (round to nearest, ties to even), so every rounding of the source is
      the rounding of the model.
    - Exceptions are a [result]; [print] appends to the list of output lines;
      both are threaded by the monad [M].
    - Pillow, the C library's [cos]/[sin], the fonts on disk and the color
      parser are collaborators of the script: their code is not the
      script's, and they enter as the variables of [Section Watermark].
      Rasters are a size and a pixel function, with [new], [crop] and
      [paste] written out; the memory of the machine enters [new] as the
      sizes that fit. *)

From Stdlib Require Import ZArith List String Ascii Bool Lia Floats FinFun.
Import ListNotations.

#[local] Set Warnings "-inexact-float".
#[local] Open Scope Z_scope.

(** ** Python: exceptions, output, loops *)

Module Py.

Inductive exn : Set :=
| ValueError
| ZeroDivisionError
| OverflowError
| MemoryError
| IOError.

Definition exn_eqb (a b : exn) : bool :=
  match a, b with
  | ValueError, ValueError => true
  | ZeroDivisionError, ZeroDivisionError => true
  | OverflowError, OverflowError => true
  | MemoryError, MemoryError => true
  | IOError, IOError => true
  | _, _ => false
  end.

Inductive result (A : Type) : Type :=
| Ok (a : A)
| Raise (e : exn).
Arguments Ok {A} a.
Arguments Raise {A} e.

Definition rbind {A B} (r : result A) (k : A -> result B) : result B :=
  match r with
  | Ok a => k a
  | Raise e => Raise e
  end.

(** A computation reads and extends the lines printed so far and either
    returns or raises. *)
Definition M (A : Type) : Type := list string -> result A * list string.

Definition ret {A} (a : A) : M A := fun out => (Ok a, out).

Definition raise {A} (e : exn) : M A := fun out => (Raise e, out).

Definition bind {A B} (m : M A) (k : A -> M B) : M B :=
  fun out =>
    match m out with
    | (Ok a, out') => k a out'
    | (Raise e, out') => (Raise e, out')
    end.

Definition lift {A} (r : result A) : M A := fun out => (r, out).

Definition print (line : string) : M unit := fun out => (Ok tt, out ++ [line]).

(** [try: body / except E: handler]. *)
Definition try_except {A} (body : M A) (E : exn) (handler : M A) : M A :=
  fun out =>
    match body out with
    | (Raise e, out') => if exn_eqb e E then handler out' else (Raise e, out')
    | r => r
    end.

(** [range(lo, hi)]. *)
Definition range (lo hi : Z) : list Z :=
  map (fun k => lo + Z.of_nat k) (seq 0 (Z.to_nat (hi - lo))).

(** [for i in l: s = body(i, s)], for a body that cannot raise. *)
Definition for_each {A S} (l : list A) (body : A -> S -> S) (s : S) : S :=
  fold_left (fun acc i => body i acc) l s.

(** The same loop for a body that can raise: the first exception ends it. *)
Fixpoint for_eachM {A S} (l : list A) (body : A -> S -> M S) (s : S) : M S :=
  match l with
  | [] => ret s
  | i :: l' => bind (body i s) (for_eachM l' body)
  end.

End Py.

Import Py.

Declare Scope py_scope.
Delimit Scope py_scope with py.
Notation "x <- m ;; k" := (bind m (fun x => k))
  (at level 61, m at next level, right associativity) : py_scope.
Notation "m ;;; k" := (bind m (fun _ => k))
  (at level 61, right associativity) : py_scope.
Notation "x <~ r ;; k" := (rbind r (fun x => k))
  (at level 61, r at next level, right associativity) : py_scope.
#[local] Open Scope py_scope.

(** ** Python floats and the [math] module *)

Module PyFloat.

(** [float(n)] for an [int]: correctly rounded, [OverflowError] when the
    rounded value is not finite. *)
Definition of_int (n : Z) : result float :=
  let f := SF2Prim (binary_normalize prec emax n 0 false) in
  if is_infinity f then Raise OverflowError else Ok f.

(** The integer part of a binary64 value, towards zero. *)
Definition trunc_SF (x : spec_float) : result Z :=
  match x with
  | S754_zero _ => Ok 0
  | S754_finite s m e =>
      Ok (cond_Zopp s
            (match e with
             | Zneg p => Z.pos m / 2 ^ Z.pos p
             | _ => Z.pos m * 2 ^ e
             end))
  | S754_infinity _ => Raise OverflowError
  | S754_nan => Raise ValueError
  end.

(** [int(x)] for a [float]. *)
Definition to_int (x : float) : result Z := trunc_SF (Prim2SF x).

(** [max(a, b)] and [min(a, b)] of two floats: the builtin keeps its first
    argument unless the second compares strictly beyond it. *)
Definition max (a b : float) : float := if (a <? b)%float then b else a.
Definition min (a b : float) : float := if (b <? a)%float then b else a.

(** [n * x] and [x * n] and [x / n] with [n] an [int]: the [int] is
    converted first. *)
Definition int_mul (n : Z) (x : float) : result float :=
  f <~ of_int n ;; Ok (f * x)%float.

Definition mul_int (x : float) (n : Z) : result float :=
  f <~ of_int n ;; Ok (x * f)%float.

Definition div_int (x : float) (n : Z) : result float :=
  f <~ of_int n ;;
  if (f =? 0)%float then Raise ZeroDivisionError else Ok (x / f)%float.

(** [math.pi], [math.radians]. *)
Definition pi : float := 3.141592653589793%float.
Definition radians (x : float) : float := (x * (pi / 180))%float.

(** [math.sqrt], [math.cos] and [math.sin] wrap a C function [f]: a NaN
    from an argument that is not one, or an infinity from a finite
    argument, is a [ValueError]. *)
Definition math_1 (f : float -> float) (x : float) : result float :=
  let r := f x in
  if is_nan r && negb (is_nan x) then Raise ValueError
  else if is_infinity r && is_finite x then Raise ValueError
  else Ok r.

(** [math.sqrt] of an [int]. *)
Definition sqrt_int (n : Z) : result float :=
  f <~ of_int n ;; math_1 sqrt f.

(** An [int] as the binary number it is, before any rounding. *)
Definition exact_int (n : Z) : spec_float :=
  match n with
  | Z0 => S754_zero false
  | Zpos p => S754_finite false p 0
  | Zneg p => S754_finite true p 0
  end.

(** [a / b] for two [int]s: the quotient of the two integers rounded
    once, [ZeroDivisionError] for a zero divisor, [OverflowError] when
    the rounded quotient is not finite. *)
Definition int_truediv (a b : Z) : result float :=
  if b =? 0 then Raise ZeroDivisionError
  else
    match SFdiv prec emax (exact_int a) (exact_int b) with
    | S754_infinity _ => Raise OverflowError
    | q => Ok (SF2Prim q)
    end.

End PyFloat.

(** ** The value of a binary64 number

    What the proofs below know of the arithmetic of [float]: a finite
    number [m * 2^e] is read as the integer [m * 2^(e + K)], which is exact
    for every exponent that a product of two numbers can have, and an
    operation is the exact operation on these integers followed by
    [rounded], the rounding to nearest with ties to even. *)

Module Binary64.

Definition digits (m : Z) : Z := Zdigits2 m.

(** What the two bits kept by a right shift say of the part shifted out,
    [rem], against the weight [G] of the last place kept. *)
Definition loc_inv (G rem : Z) (r s : bool) : Prop :=
  match r, s with
  | false, false => rem = 0
  | false, true => 0 < 2 * rem < G
  | true, false => 2 * rem = G
  | true, true => G < 2 * rem
  end.

(** [v / G] rounded to the nearest integer, a tie to the even one. *)
Definition rne (v G : Z) : Z :=
  match 2 * (v mod G) ?= G with
  | Lt => v / G
  | Eq => if Z.even (v / G) then v / G else v / G + 1
  | Gt => v / G + 1
  end.

(** The closed form of [binary_round_aux] on an exact [m * 2^e]. *)
Definition round_pos (s : bool) (m e : Z) : spec_float :=
  let fe := fexp prec emax (digits m + e) in
  let q := rne m (2 ^ (fe - e)) in
  if q =? 0 then S754_zero s
  else if q =? 2 ^ 53 then
    if fe + 1 <=? emax - prec then S754_finite s (Z.to_pos (2 ^ 52)) (fe + 1)
    else S754_infinity s
  else if fe <=? emax - prec then S754_finite s (Z.to_pos q) fe
  else S754_infinity s.

Definition K : Z := 2200.

(** The magnitude, in units of [2^-K]; an infinity counts as [2^1024]. *)
Definition Fabs (x : spec_float) : Z :=
  match x with
  | S754_finite _ m e => Z.pos m * 2 ^ (e + K)
  | S754_infinity _ => 2 ^ (1024 + K)
  | _ => 0
  end.

(** The binary64 number nearest to [v] units of [2^-K]. *)
Definition rounded (v : Z) : Z :=
  let G := 2 ^ (fexp prec emax (digits v - K) + K) in
  Z.min (rne v G * G) (2 ^ (1024 + K)).

Definition nonneg (x : spec_float) : bool :=
  match x with
  | S754_zero _ => true
  | S754_finite s _ _ => negb s
  | S754_infinity s => negb s
  | S754_nan => false
  end.

Definition finite_or_zero (x : spec_float) : bool :=
  match x with
  | S754_zero _ | S754_finite _ _ _ => true
  | _ => false
  end.

(** [r] is a valid number, not negative, of magnitude [v] rounded. *)
Record rounds_to (r : spec_float) (v : Z) : Prop := {
  rt_valid : valid_binary r = true;
  rt_nonneg : nonneg r = true;
  rt_value : Fabs r = rounded v
}.

(** The same readings of a [float]. *)
Definition value (x : float) : Z := Fabs (Prim2SF x).
Definition is_nonneg (x : float) : bool := nonneg (Prim2SF x).
Definition is_real (x : float) : bool := finite_or_zero (Prim2SF x).


(** The quarter of the last place a location stands for, as the quotient
    and the square root hand it to the rounding. *)
Definition loc_code (l : location) : Z :=
  match l with
  | loc_Exact => 0
  | loc_Inexact Lt => 1
  | loc_Inexact Eq => 2
  | loc_Inexact Gt => 3
  end.

(** The magnitude a mantissa and its location stand for, to the quarter
    below. *)
Definition loc_floor (m e : Z) (l : location) : Z :=
  (4 * m + loc_code l) * 2 ^ (e - 2 + K).

End Binary64.

(** ** Pillow: rasters, drawing, fonts *)

Module PIL.

Definition RGBA : Type := Z * Z * Z * Z.

Definition alpha (c : RGBA) : Z := let '(_, _, _, a) := c in a.

(** A raster: its [size] is (width, height); the pixel at column [x] of
    row [y] is [im_px x y]. *)
Record Image : Type := { im_size : Z * Z; im_px : Z -> Z -> RGBA }.

Definition inside (size : Z * Z) (x y : Z) : bool :=
  (0 <=? x) && (x <? fst size) && (0 <=? y) && (y <? snd size).

(** [Image.new('RGBA', size, color)]. Pillow refuses a negative side
    ([ValueError]), then a side that is no C [int] ([OverflowError]), and
    then a raster it cannot get the memory for ([MemoryError]); [fits]
    tells the sizes the machine has the memory for. *)
Definition Image_new (fits : Z * Z -> bool) (size : Z * Z) (color : RGBA)
    : result Image :=
  if (fst size <? 0) || (snd size <? 0) then Raise ValueError
  else if (2 ^ 31 <=? fst size) || (2 ^ 31 <=? snd size) then Raise OverflowError
  else if fits size then Ok {| im_size := size; im_px := fun _ _ => color |}
  else Raise MemoryError.

(** [im.crop((left, upper, right, lower))]: what lies outside [im] is
    zero. *)
Definition Image_crop (im : Image) (box : Z * Z * Z * Z) : result Image :=
  let '(x0, y0, x1, y1) := box in
  if x1 <? x0 then Raise ValueError
  else if y1 <? y0 then Raise ValueError
  else Ok {| im_size := (x1 - x0, y1 - y0);
             im_px := fun x y =>
               if inside (im_size im) (x + x0) (y + y0)
               then im_px im (x + x0) (y + y0)
               else (0, 0, 0, 0) |}.

(** [im.paste(src, (x, y), mask)]: under the footprint of [src] the pixel
    of [im] and the pixel of [src] are mixed by the alpha band of
    [mask]; Pillow's mixing of two pixels is [blend]. *)
Definition Image_paste (blend : RGBA -> RGBA -> Z -> RGBA)
    (im src : Image) (xy : Z * Z) (mask : Image) : Image :=
  {| im_size := im_size im;
     im_px := fun u v =>
       if inside (im_size src) (u - fst xy) (v - snd xy)
       then blend (im_px im u v) (im_px src (u - fst xy) (v - snd xy))
                  (alpha (im_px mask (u - fst xy) (v - snd xy)))
       else im_px im u v |}.


(** A loaded font: the box of a text drawn at the origin, as
    (left, top, right, bottom); the pixels of a raster after the text is
    drawn on it at a position in a color; and whether it is the built-in
    bitmap font (class [ImageFont.ImageFont]). *)
Record Font : Type := {
  font_getbbox : string -> Z * Z * Z * Z;
  font_draw : string -> RGBA -> Z * Z -> Image -> Z -> Z -> RGBA;
  font_is_bitmap : bool
}.

(** An [ImageDraw.Draw] object: the raster it draws on, and the [text]
    calls made on it so far. *)
Record DrawCall : Type := { call_xy : Z * Z; call_text : string; call_fill : RGBA }.

Record Draw : Type := { draw_im : Image; draw_calls : list DrawCall }.

Definition ImageDraw_Draw (im : Image) : Draw :=
  {| draw_im := im; draw_calls := [] |}.

(** [draw.textbbox(xy, text, font=font)]: the font's box, moved to [xy]. *)
Definition Draw_textbbox (xy : Z * Z) (text : string) (font : Font) : Z * Z * Z * Z :=
  let '(l, t, r, b) := font_getbbox font text in
  (l + fst xy, t + snd xy, r + fst xy, b + snd xy).

(** [draw.text(xy, text, font=font, fill=fill)]: drawing keeps the size. *)
Definition Draw_text (d : Draw) (xy : Z * Z) (text : string) (font : Font)
    (fill : RGBA) : Draw :=
  {| draw_im := {| im_size := im_size (draw_im d);
                   im_px := font_draw font text fill xy (draw_im d) |};
     draw_calls := draw_calls d ++
                   [{| call_xy := xy; call_text := text; call_fill := fill |}] |}.

(** A raster that is pasted on, with the positions pasted so far. *)
Record Canvas : Type := { cv_im : Image; cv_pastes : list (Z * Z) }.

Definition Canvas_of (im : Image) : Canvas := {| cv_im := im; cv_pastes := [] |}.

Definition Canvas_paste (blend : RGBA -> RGBA -> Z -> RGBA)
    (cv : Canvas) (src : Image) (xy : Z * Z) (mask : Image) : Canvas :=
  {| cv_im := Image_paste blend (cv_im cv) src xy mask;
     cv_pastes := cv_pastes cv ++ [xy] |}.

(** A raster of one band (mode 'L'). *)
Record Band : Type := { band_size : Z * Z; band_px : Z -> Z -> Z }.

Definition size_eqb (a b : Z * Z) : bool :=
  (fst a =? fst b) && (snd a =? snd b).

(** [Image.new('L', size, value)]. *)
Definition Image_new_L (size : Z * Z) (value : Z) : result Band :=
  if (fst size <? 0) || (snd size <? 0) then Raise ValueError
  else Ok {| band_size := size; band_px := fun _ _ => value |}.

(** [im.split()[3]]: the alpha band of an RGBA raster. *)
Definition Image_alpha_band (im : Image) : Band :=
  {| band_size := im_size im; band_px := fun x y => alpha (im_px im x y) |}.

(** [Image.blend(im1, im2, alpha)] on two bands: pixel by pixel, by
    Pillow's interpolation [blend_px]; the sizes must agree. *)
Definition Image_blend (blend_px : Z -> Z -> float -> Z) (im1 im2 : Band) (a : float)
    : result Band :=
  if size_eqb (band_size im1) (band_size im2) then
    Ok {| band_size := band_size im1;
          band_px := fun x y => blend_px (band_px im1 x y) (band_px im2 x y) a |}
  else Raise ValueError.

(** [im.putalpha(band)]: the band replaces the alpha band of [im]; the
    sizes must agree. *)
Definition Image_putalpha (im : Image) (band : Band) : result Image :=
  if size_eqb (im_size im) (band_size band) then
    Ok {| im_size := im_size im;
          im_px := fun x y =>
            let '(r, g, b, _) := im_px im x y in (r, g, b, band_px band x y) |}
  else Raise ValueError.

End PIL.

Import PIL.

(** ** watermark.py *)

Section Watermark.

(** The sizes of the rasters that the machine has the memory for. *)
Variable Image_fits : Z * Z -> bool.

(** The C library's [cos] and [sin]. *)
Variables libm_cos libm_sin : float -> float.

(** [ImageColor.getcolor(color, "RGBA")]; [None] is its [ValueError]. *)
Variable ImageColor_getcolor : string -> option RGBA.

(** [ImageFont.truetype(path, size)] and [ImageFont.load_default()]. *)
Variable ImageFont_truetype : string -> Z -> result Font.
Variable ImageFont_load_default : Font.

(** [im.rotate(angle, expand=True, resample=Image.BICUBIC)]. *)
Variable Image_rotate : Image -> float -> Image.

(** Pillow's mix of a pixel and a pasted pixel under a mask value. *)
Variable blend : RGBA -> RGBA -> Z -> RGBA.

Definition font_options : list string :=
  [ "Arial.ttf"; "arial.ttf";
    "Verdana.ttf"; "verdana.ttf";
    "Tahoma.ttf"; "tahoma.ttf";
    "Times.ttf"; "times.ttf";
    "TimesNewRoman.ttf"; "timesnewroman.ttf";
    "DejaVuSans.ttf"; "DejaVuSans-Bold.ttf";
    "Helvetica.ttf"; "helvetica.ttf";
    "/usr/share/fonts/truetype/dejavu/DejaVuSans.ttf";
    "/usr/share/fonts/TTF/Arial.ttf";
    "/System/Library/Fonts/Helvetica.ttf";
    "C:\Windows\Fonts\arial.ttf";
    "C:\Windows\Fonts\verdana.ttf" ]%string.

(** The loop of [get_system_font] over the names still to try. *)
Fixpoint first_font (names : list string) : M Font :=
  match names with
  | [] => ret ImageFont_load_default
  | font_name :: rest =>
      try_except (lift (ImageFont_truetype font_name 12)) IOError (first_font rest)
  end.

Definition get_system_font : M Font := first_font font_options.

Definition transparent_white : RGBA := (255, 255, 255, 0).

(** The outline pass: the text once at every offset of the square but the
    center. *)
Definition draw_outline (draw : Draw) (text : string) (font : Font)
    (outline_color_rgb : RGBA) (outline_width padding : Z) : Draw :=
  if 0 <? outline_width then
    for_each (range (- outline_width) (outline_width + 1)) (fun offset_x draw =>
      for_each (range (- outline_width) (outline_width + 1)) (fun offset_y draw =>
        if (offset_x =? 0) && (offset_y =? 0) then draw
        else Draw_text draw (padding + offset_x, padding + offset_y) text font
                       outline_color_rgb)
      draw)
    draw
  else draw.

(** The body of [create_single_text_watermark], up to its [return]: the
    [Draw] object of the tile after the last call. *)
Definition single_text_draw (text : string) (font : Font) (font_size : Z)
    (font_color outline_color : string) (outline_width : Z) : M Draw :=
  temp_img <- lift (Image_new Image_fits (1, 1) transparent_white) ;;
  let '(bbox0, bbox1, bbox2, bbox3) := Draw_textbbox (0, 0) text font in
  let text_width := bbox2 - bbox0 in
  let text_height := bbox3 - bbox1 in
  let padding := outline_width * 2 in
  text_img <- lift (Image_new Image_fits
                              (text_width + padding * 2, text_height + padding * 2)
                              transparent_white) ;;
  let draw := ImageDraw_Draw text_img in
  font_color_rgb <-
    match ImageColor_getcolor font_color with
    | Some c => ret c
    | None =>
        print ("Warning: Invalid font color '" ++ font_color ++ "'. Using white.") ;;;
        ret (255, 255, 255, 255)
    end ;;
  outline_color_rgb <-
    match ImageColor_getcolor outline_color with
    | Some c => ret c
    | None =>
        print ("Warning: Invalid outline color '" ++ outline_color ++ "'. Using black.") ;;;
        ret (0, 0, 0, 255)
    end ;;
  let draw := draw_outline draw text font outline_color_rgb outline_width padding in
  let draw := Draw_text draw (padding, padding) text font font_color_rgb in
  ret draw.

Definition create_single_text_watermark (text : string) (font : Font) (font_size : Z)
    (font_color outline_color : string) (outline_width : Z) : M Image :=
  draw <- single_text_draw text font font_size font_color outline_color outline_width ;;
  ret (draw_im draw).

(** The font of a request: the [try]/[except IOError] block that opens
    [create_photo_text_watermark]; with the font comes the font size the
    block leaves. *)
Definition load_font (font_path : option string) (font_size : Z) : M (Font * Z) :=
  try_except
    (match font_path with
     | Some (String _ _ as path) =>
         font <- lift (ImageFont_truetype path font_size) ;;
         ret (font, font_size)
     | _ =>
         font <- get_system_font ;;
         if font_is_bitmap font then
           font_size <- lift (scaled <~ PyFloat.int_mul font_size 1.5 ;;
                              PyFloat.to_int scaled) ;;
           ret (font, font_size)
         else ret (font, font_size)
     end)
    IOError
    (print ("Warning: Could not load font from "
            ++ match font_path with Some path => path | None => "None" end
            ++ ". Using system font.") ;;;
     font <- get_system_font ;;
     ret (font, font_size)).

(** [spacing_factor]: the inverted density, clamped between 0.2 and 1.0. *)
Definition spacing_factor (density : float) : float :=
  let spacing_factor := (1.0 - density)%float in
  PyFloat.max 0.2 (PyFloat.min 1.0 spacing_factor).

(** [base_spacing = int(max(text_width, text_height) * 2.5 * spacing_factor)]. *)
Definition base_spacing (text_width text_height : Z) (spacing_factor : float) : result Z :=
  scaled <~ PyFloat.int_mul (Z.max text_width text_height) 2.5 ;;
  PyFloat.to_int (scaled * spacing_factor)%float.

(** [int(f(angle) * base_spacing)] for [f] one of [math.cos], [math.sin]. *)
Definition lattice_step (f : float -> float) (angle : float) (base_spacing : Z) : result Z :=
  c <~ PyFloat.math_1 f angle ;;
  step <~ PyFloat.mul_int c base_spacing ;;
  PyFloat.to_int step.

(** [diagonal_count = int(diagonal_length / base_spacing) * 2]. *)
Definition diagonal_count (diagonal_length : float) (base_spacing : Z) : result Z :=
  q <~ PyFloat.div_int diagonal_length base_spacing ;;
  n <~ PyFloat.to_int q ;;
  Ok (n * 2).

(** [text_count = int(line_length / base_spacing) + 1], with
    [line_length = diagonal_length * 1.5]. *)
Definition text_count (diagonal_length : float) (base_spacing : Z) : result Z :=
  let line_length := (diagonal_length * 1.5)%float in
  q <~ PyFloat.div_int line_length base_spacing ;;
  n <~ PyFloat.to_int q ;;
  Ok (n + 1).

(** The bounds test of the inner loop. *)
Definition near_pattern (rotated_width rotated_height pattern_width pattern_height x y : Z)
    : bool :=
  (- rotated_width <=? x) && (x <=? pattern_width)
  && (- rotated_height <=? y) && (y <=? pattern_height).

(** The two nested loops that paste the rotated text on the pattern. *)
Definition stamp_lines (pattern : Canvas) (rotated_text : Image)
    (pattern_width pattern_height : Z) (diagonal_length : float)
    (base_spacing dx dy perp_dx perp_dy diagonal_count : Z) : M Canvas :=
  let '(rotated_width, rotated_height) := im_size rotated_text in
  let start_x := - rotated_width in
  let start_y := - rotated_height in
  for_eachM (range (- diagonal_count) diagonal_count) (fun i pattern =>
    let line_start_x := start_x + i * perp_dx in
    let line_start_y := start_y + i * perp_dy in
    text_count <- lift (text_count diagonal_length base_spacing) ;;
    ret (for_each (range 0 text_count) (fun j pattern =>
           let x := line_start_x + j * dx in
           let y := line_start_y + j * dy in
           if near_pattern rotated_width rotated_height pattern_width pattern_height x y
           then Canvas_paste blend pattern rotated_text (x, y) rotated_text
           else pattern)
         pattern))
    pattern.

Definition create_photo_text_watermark (base_size : Z * Z) (text : string)
    (font_path : option string) (font_size : Z) (font_color outline_color : string)
    (outline_width : Z) (angle density : float) : M Image :=
  let '(base_width, base_height) := base_size in
  loaded <- load_font font_path font_size ;;
  let '(font, font_size) := loaded in
  single_text <- create_single_text_watermark text font font_size font_color
                                              outline_color outline_width ;;
  diagonal_length <- lift (PyFloat.sqrt_int (base_width ^ 2 + base_height ^ 2)) ;;
  let spacing_factor := spacing_factor density in
  let '(text_width, text_height) := im_size single_text in
  base_spacing <- lift (base_spacing text_width text_height spacing_factor) ;;
  let pattern_width := base_width + 2 * text_width in
  let pattern_height := base_height + 2 * text_height in
  pattern <- lift (Image_new Image_fits (pattern_width, pattern_height) transparent_white) ;;
  let rotated_text := Image_rotate single_text angle in
  let angle_rad := PyFloat.radians angle in
  dx <- lift (lattice_step libm_cos angle_rad base_spacing) ;;
  dy <- lift (lattice_step libm_sin angle_rad base_spacing) ;;
  perp_dx <- lift (lattice_step libm_cos (angle_rad + PyFloat.pi / 2)%float base_spacing) ;;
  perp_dy <- lift (lattice_step libm_sin (angle_rad + PyFloat.pi / 2)%float base_spacing) ;;
  diagonal_count <- lift (diagonal_count diagonal_length base_spacing) ;;
  pattern <- stamp_lines (Canvas_of pattern) rotated_text pattern_width pattern_height
                         diagonal_length base_spacing dx dy perp_dx perp_dy
                         diagonal_count ;;
  let left := (pattern_width - base_width) / 2 in
  let top := (pattern_height - base_height) / 2 in
  let right := left + base_width in
  let bottom := top + base_height in
  lift (Image_crop (cv_im pattern) (left, top, right, bottom)).

End Watermark.

(** ** watermark.py: the image watermark, the opacity and the overlay

    Rasters are values here, so the [copy()] that opens [set_opacity] and
    [apply_watermark] is the raster itself. *)

Section Overlay.

(** [im.resize(size, Image.LANCZOS)]. *)
Variable Image_resize : Image -> Z * Z -> result Image.

(** The value Pillow's [Image.blend] gives a pixel of two bands. *)
Variable Image_blend_px : Z -> Z -> float -> Z.

Variable blend : RGBA -> RGBA -> Z -> RGBA.

Definition DEFAULT_PADDING : Z := 10.

Definition resize_watermark (base_image watermark : Image) (scale_factor : float)
    : result Image :=
  let '(base_width, base_height) := im_size base_image in
  scaled <~ PyFloat.int_mul base_width scale_factor ;;
  watermark_width <~ PyFloat.to_int scaled ;;
  ratio <~ PyFloat.int_truediv watermark_width (fst (im_size watermark)) ;;
  scaled <~ PyFloat.int_mul (snd (im_size watermark)) ratio ;;
  watermark_height <~ PyFloat.to_int scaled ;;
  Image_resize watermark (watermark_width, watermark_height).

Definition set_opacity (watermark : Image) (opacity : float) : result Image :=
  let alpha := Image_alpha_band watermark in
  zero <~ Image_new_L (im_size watermark) 0 ;;
  alpha <~ Image_blend Image_blend_px zero alpha opacity ;;
  Image_putalpha watermark alpha.

(** [None] is the [None] a call returns when no branch does. *)
Definition calculate_position (base_image watermark : Image) (position : string)
    : option (Z * Z) :=
  let '(base_width, base_height) := im_size base_image in
  let '(watermark_width, watermark_height) := im_size watermark in
  if String.eqb position "top-left" then
    Some (DEFAULT_PADDING, DEFAULT_PADDING)
  else if String.eqb position "top-right" then
    Some (base_width - watermark_width - DEFAULT_PADDING, DEFAULT_PADDING)
  else if String.eqb position "bottom-left" then
    Some (DEFAULT_PADDING, base_height - watermark_height - DEFAULT_PADDING)
  else if String.eqb position "bottom-right" then
    Some (base_width - watermark_width - DEFAULT_PADDING,
          base_height - watermark_height - DEFAULT_PADDING)
  else if String.eqb position "center" then
    Some ((base_width - watermark_width) / 2, (base_height - watermark_height) / 2)
  else None.

(** [paste] with a box of [None] pastes at the upper left corner. *)
Definition apply_watermark (base_image watermark : Image) (position : option (Z * Z))
    : Image :=
  let result := base_image in
  Image_paste blend result watermark
              (match position with Some xy => xy | None => (0, 0) end) watermark.

End Overlay.

(** ** watermark.py: the files, and the entry point *)

(** What [parse_arguments] returns. [--angle], [--density], [--scale] and
    [--opacity] are read as floats; the default angle, the [int] 45, is
    used where only its float value matters. *)
Record Args : Type := {
  args_input : string;
  args_watermark : string;
  args_text : option string;
  args_font : option string;
  args_font_size : Z;
  args_font_color : string;
  args_outline_color : string;
  args_outline_width : Z;
  args_angle : float;
  args_density : float;
  args_output : option string;
  args_position : string;
  args_scale : float;
  args_opacity : float
}.

(** What the script raises: its own two exceptions with their messages,
    and the exceptions of Pillow and of Python by class. *)
Inductive raised : Type :=
| FileNotFoundError (message : string)
| Exception (message : string)
| Library (e : exn).

Inductive ending (A : Type) : Type :=
| Returns (a : A)
| Raises (r : raised).
Arguments Returns {A} a.
Arguments Raises {A} r.

(** A file as [image.save] wrote it: its path, and the raster with or
    without its alpha band. *)
Inductive bands : Type := RGBA_bands | RGB_bands.

Record SavedFile : Type := {
  saved_path : string;
  saved_bands : bands;
  saved_image : Image
}.

(** What a run leaves behind: the lines printed, the directories made
    and the files saved, each in order. The disk as the run finds it is
    read through [os_path_exists] and [Image_open]; every read of a run
    comes before its first write. *)
Record World : Type := {
  printed : list string;
  made : list string;
  saved : list SavedFile
}.

Definition IO (A : Type) : Type := World -> ending A * World.

Definition io_ret {A} (a : A) : IO A := fun w => (Returns a, w).

Definition io_raise {A} (r : raised) : IO A := fun w => (Raises r, w).

Definition io_bind {A B} (m : IO A) (k : A -> IO B) : IO B :=
  fun w =>
    match m w with
    | (Returns a, w') => k a w'
    | (Raises r, w') => (Raises r, w')
    end.

Definition io_print (line : string) : IO unit :=
  fun w => (Returns tt, {| printed := printed w ++ [line]; made := made w;
                           saved := saved w |}).

(** A call into Pillow or Python that returns or raises. *)
Definition io_result {A} (r : result A) : IO A :=
  match r with
  | Ok a => io_ret a
  | Raise e => io_raise (Library e)
  end.

(** A function of the script that prints. *)
Definition io_run {A} (m : M A) : IO A :=
  fun w =>
    let '(r, out) := m (printed w) in
    (match r with Ok a => Returns a | Raise e => Raises (Library e) end,
     {| printed := out; made := made w; saved := saved w |}).

Notation "x <-- m ;; k" := (io_bind m (fun x => k))
  (at level 61, m at next level, right associativity) : py_scope.

(** [s.endswith(suffix)]. *)
Definition endswith (s suffix : string) : bool :=
  (String.length suffix <=? String.length s)%nat
  && String.eqb (substring (String.length s - String.length suffix)
                           (String.length suffix) s) suffix.

Definition SUPPORTED_EXTENSIONS : list string := [".jpg"; ".jpeg"; ".png"]%string.

(** A string or [None] taken as a condition: [None] and the empty
    string are false. *)
Definition given (s : option string) : option string :=
  match s with
  | Some (String _ _ as text) => Some text
  | _ => None
  end.

Section Script.

Variable Image_fits : Z * Z -> bool.
Variables libm_cos libm_sin : float -> float.
Variable ImageColor_getcolor : string -> option RGBA.
Variable ImageFont_truetype : string -> Z -> result Font.
Variable ImageFont_load_default : Font.
Variable Image_rotate : Image -> float -> Image.
Variable blend : RGBA -> RGBA -> Z -> RGBA.
Variable Image_resize : Image -> Z * Z -> result Image.
Variable Image_blend_px : Z -> Z -> float -> Z.

(** [os.path.exists], [os.path.splitext], [os.path.dirname] and
    [str.lower]. *)
Variable os_path_exists : string -> bool.
Variable os_path_splitext : string -> string * string.
Variable os_path_dirname : string -> string.
Variable str_lower : string -> string.

(** [Image.open(path).convert("RGBA")]. *)
Variable Image_open : string -> result Image.

(** Whether [os.makedirs(path)] and [image.save(path)] go through. *)
Variable os_makedirs : string -> result unit.
Variable Image_save : string -> bands -> Image -> result unit.

(** [str(e)] for an exception of Pillow or Python. *)
Variable str_exn : exn -> string.

Definition load_image (image_path : string) : IO Image :=
  if negb (os_path_exists image_path) then
    io_raise (FileNotFoundError ("The file '" ++ image_path ++ "' does not exist."))
  else
    match Image_open image_path with
    | Ok im => io_ret im
    | Raise IOError => io_raise (Exception ("Unable to load image: " ++ image_path))
    | Raise e => io_raise (Library e)
    end.

Definition makedirs (path : string) : IO unit :=
  fun w =>
    match os_makedirs path with
    | Ok _ => (Returns tt, {| printed := printed w; made := made w ++ [path];
                              saved := saved w |})
    | Raise e => (Raises (Library e), w)
    end.

Definition save (path : string) (b : bands) (image : Image) : IO unit :=
  fun w =>
    match Image_save path b image with
    | Ok _ => (Returns tt,
               {| printed := printed w; made := made w;
                  saved := saved w ++ [{| saved_path := path; saved_bands := b;
                                          saved_image := image |}] |})
    | Raise e => (Raises (Library e), w)
    end.

Definition save_image (image : Image) (output_path : string) : IO unit :=
  let output_dir := os_path_dirname output_path in
  _ <-- (match output_dir with
         | String _ _ =>
             if negb (os_path_exists output_dir) then makedirs output_dir else io_ret tt
         | EmptyString => io_ret tt
         end) ;;
  let b :=
    if endswith (str_lower output_path) ".jpg" || endswith (str_lower output_path) ".jpeg"
    then RGB_bands else RGBA_bands in
  save output_path b image.

(** The path [main] saves to when [--output] is not given. *)
Definition default_output_path (input : string) : string :=
  let '(input_name, input_ext) := os_path_splitext input in
  let output_ext :=
    if existsb (String.eqb (str_lower input_ext)) SUPPORTED_EXTENSIONS
    then input_ext else ".png"%string in
  (input_name ++ "_wm" ++ output_ext)%string.

(** The body of the [try] of [main]. *)
Definition main_try (args : Args) : IO unit :=
  base_image <-- load_image (args_input args) ;;
  marked <--
    (match given (args_text args) with
     | Some text =>
         watermark <-- io_run (create_photo_text_watermark Image_fits libm_cos libm_sin
                                 ImageColor_getcolor ImageFont_truetype
                                 ImageFont_load_default Image_rotate blend
                                 (im_size base_image) text (args_font args)
                                 (args_font_size args) (args_font_color args)
                                 (args_outline_color args) (args_outline_width args)
                                 (args_angle args) (args_density args)) ;;
         watermark <-- io_result (set_opacity Image_blend_px watermark (args_opacity args)) ;;
         io_ret (watermark, Some (0, 0))
     | None =>
         watermark <-- load_image (args_watermark args) ;;
         watermark <-- io_result (resize_watermark Image_resize base_image watermark
                                    (args_scale args)) ;;
         watermark <-- io_result (set_opacity Image_blend_px watermark (args_opacity args)) ;;
         io_ret (watermark,
                 calculate_position base_image watermark (args_position args))
     end) ;;
  let '(watermark, position) := marked in
  let watermarked_image := apply_watermark blend base_image watermark position in
  let output_path :=
    match given (args_output args) with
    | Some path => path
    | None => default_output_path (args_input args)
    end in
  _ <-- save_image watermarked_image output_path ;;
  io_print ("Watermark applied successfully! Saved to " ++ output_path).

(** [str(e)]. *)
Definition message (r : raised) : string :=
  match r with
  | FileNotFoundError m => m
  | Exception m => m
  | Library e => str_exn e
  end.

(** [main], once the arguments are parsed: [except Exception] catches
    whatever the body raises. *)
Definition main (args : Args) : IO unit :=
  fun w =>
    match main_try args w with
    | (Raises r, w') => io_print ("An error occurred: " ++ message r) w'
    | done => done
    end.

End Script.

(** ** What the statements below are written with *)

(** The names [parse_arguments] accepts for the position of an image
    watermark: the four corners, and the center. *)
Definition corner_names : list string :=
  ["top-left"; "top-right"; "bottom-left"; "bottom-right"]%string.

Definition position_names : list string := (corner_names ++ ["center"%string])%list.

(** A computation that saves nothing, and only adds to what is printed. *)
Definition quiet {A} (m : IO A) : Prop :=
  forall w o w', m w = (o, w') ->
    saved w' = saved w /\ exists lines, printed w' = (printed w ++ lines)%list.

(** The offsets of the outline as the specification words them: every
    pair of the square from [- outline_width] to [outline_width] but the
    center, row by row. The loops of [draw_outline] are compared with
    this list. *)
Definition outline_offsets (outline_width : Z) : list (Z * Z) :=
  filter (fun offset => negb ((fst offset =? 0) && (snd offset =? 0)))
         (list_prod (range (- outline_width) (outline_width + 1))
                    (range (- outline_width) (outline_width + 1))).

(** The color a string stands for once the fallback is applied. *)
Definition color_or (getcolor : string -> option RGBA) (color : string)
    (fallback : RGBA) : RGBA :=
  match getcolor color with
  | Some c => c
  | None => fallback
  end.

Definition white : RGBA := (255, 255, 255, 255).
Definition black : RGBA := (0, 0, 0, 255).

Definition font_color_warning (font_color : string) : string :=
  "Warning: Invalid font color '" ++ font_color ++ "'. Using white.".

Definition outline_color_warning (outline_color : string) : string :=
  "Warning: Invalid outline color '" ++ outline_color ++ "'. Using black.".

(** The lines that parsing the two colors prints. *)
Definition color_warnings (getcolor : string -> option RGBA)
    (font_color outline_color : string) : list string :=
  match getcolor font_color with
  | Some _ => []
  | None => [font_color_warning font_color]
  end ++
  match getcolor outline_color with
  | Some _ => []
  | None => [outline_color_warning outline_color]
  end.

(** Pillow allocates a raster of the size: the sides are C [int]s that are
    not negative, and the machine has the memory. *)
Definition allocates (fits : Z * Z -> bool) (size : Z * Z) : Prop :=
  0 <= fst size < 2 ^ 31 /\ 0 <= snd size < 2 ^ 31 /\ fits size = true.

(** The width and height of a box. *)
Definition box_size (box : Z * Z * Z * Z) : Z * Z :=
  let '(x0, y0, x1, y1) := box in (x1 - x0, y1 - y0).

(** A box lies within a raster of the given size. *)
Definition box_inside (size : Z * Z) (box : Z * Z * Z * Z) : bool :=
  let '(x0, y0, x1, y1) := box in
  (0 <=? x0) && (0 <=? y0) && (x1 <=? fst size) && (y1 <=? snd size).

(** Where a [text] call puts its text: the box [textbbox] gives for the
    position of the call. *)
Definition call_box (font : Font) (call : DrawCall) : Z * Z * Z * Z :=
  Draw_textbbox (call_xy call) (call_text call) font.

(** The integer spacing in terms of magnitudes: the three roundings of
    [int(max(w, h) * 2.5 * spacing_factor)], then the integer part. *)
Definition spacing_units (side factor : Z) : Z :=
  Binary64.rounded
    (Binary64.rounded (Binary64.rounded (side * 2 ^ Binary64.K)
                       * Binary64.value 2.5 / 2 ^ Binary64.K)
     * factor / 2 ^ Binary64.K)
  / 2 ^ Binary64.K.

(** The tile after its draws: the outline pass, then the fill on top. *)
Definition drawn_tile (text : string) (font : Font) (fill outline : RGBA)
    (outline_width : Z) (text_img : Image) : Draw :=
  let padding := outline_width * 2 in
  Draw_text (draw_outline (ImageDraw_Draw text_img) text font outline outline_width padding)
            (padding, padding) text font fill.

(** The [text] call of the outline pass at an offset. *)
Definition outline_call (text : string) (color : RGBA) (padding : Z) (offset : Z * Z)
    : DrawCall :=
  {| call_xy := (padding + fst offset, padding + snd offset);
     call_text := text; call_fill := color |}.

(** The tile as allocated, before any draw. *)
Definition blank_tile (font : Font) (text : string) (outline_width : Z) : Image :=
  let size := box_size (font_getbbox font text) in
  {| im_size := (fst size + outline_width * 2 * 2, snd size + outline_width * 2 * 2);
     im_px := fun _ _ => transparent_white |}.

(** The density of [0, 1] nearest to a density. *)
Definition clamped_density (density : float) : float :=
  if (1 <? density)%float then 1%float
  else if (density <=? 0)%float then 0%float
  else density.

(** A computation whose result, and what it prints, do not depend on what
    was printed before it. *)
Definition output_blind {A} (m : M A) : Prop :=
  exists r lines, forall out, m out = (r, out ++ lines).

(** The positions pasted by a run of the two loops, or its exception. *)
Definition pastes_of (r : result Canvas * list string) : result (list (Z * Z)) :=
  match fst r with
  | Ok cv => Ok (cv_pastes cv)
  | Raise e => Raise e
  end.

(** What a run returned, without the raster: its size, or the exception. *)
Definition outcome (r : result Image * list string) : result (Z * Z) :=
  match fst r with
  | Ok im => Ok (im_size im)
  | Raise e => Raise e
  end.

(** ** A small concrete world to run the functions in

    A fixed-pitch font whose every character fills a 6 by 8 cell, the
    "#rrggbb" colors, the rotations by a multiple of a right angle and
    the values of [cos] and [sin] at the angles these rotations need. *)

Module Sample.

(** The cell font; [top] rows separate the drawing position from the
    top of the text, as the ascender gap of a scalable font does. *)
Definition block_bbox (top : Z) (text : string) : Z * Z * Z * Z :=
  match text with
  | EmptyString => (0, 0, 0, 0)
  | _ => (0, top, 6 * Z.of_nat (String.length text), top + 8)
  end.

Definition block_font (top : Z) (bitmap : bool) : Font :=
  {| font_getbbox := block_bbox top;
     font_draw := fun text fill xy im u v =>
       let '(l, t, r, b) := block_bbox top text in
       if (l + fst xy <=? u) && (u <? r + fst xy)
          && (t + snd xy <=? v) && (v <? b + snd xy)
       then fill else im_px im u v;
     font_is_bitmap := bitmap |}.

Definition truetype (path : string) (size : Z) : result Font :=
  if String.eqb path "block.ttf" then Ok (block_font 0 false)
  else if String.eqb path "tall.ttf" then Ok (block_font 5 false)
  else Raise IOError.

Definition load_default : Font := block_font 0 true.

Definition hex_digit (c : ascii) : option Z :=
  let n := Z.of_nat (nat_of_ascii c) in
  if (48 <=? n) && (n <=? 57) then Some (n - 48)
  else if (97 <=? n) && (n <=? 102) then Some (n - 87)
  else if (65 <=? n) && (n <=? 70) then Some (n - 55)
  else None.

Definition hex_pair (a b : ascii) : option Z :=
  match hex_digit a, hex_digit b with
  | Some h, Some l => Some (16 * h + l)
  | _, _ => None
  end.

Definition getcolor (color : string) : option RGBA :=
  match color with
  | String "#" (String r1 (String r2 (String g1 (String g2
      (String b1 (String b2 EmptyString)))))) =>
      match hex_pair r1 r2, hex_pair g1 g2, hex_pair b1 b2 with
      | Some r, Some g, Some b => Some (r, g, b, 255)
      | _, _, _ => None
      end
  | _ => None
  end.

(** Rotation by 0, 90, 180 and 270 degrees moves pixels without
    resampling; no other angle is used below. *)
Definition rotate (im : Image) (angle : float) : Image :=
  let '(w, h) := im_size im in
  if (angle =? 90)%float then
    {| im_size := (h, w); im_px := fun x y => im_px im (w - 1 - y) x |}
  else if (angle =? 180)%float then
    {| im_size := (w, h); im_px := fun x y => im_px im (w - 1 - x) (h - 1 - y) |}
  else if (angle =? 270)%float then
    {| im_size := (h, w); im_px := fun x y => im_px im y (h - 1 - x) |}
  else im.

(** [cos] and [sin] of the C library at 0, pi/2, pi, 3pi/2 and 2pi, and
    at 20 and 110 degrees, as binary64 has them; NaN stands for every
    other argument. *)
Definition cos (x : float) : float :=
  if (x =? 0)%float then 1
  else if (x =? 1.5707963267948966)%float then 6.123233995736766e-17
  else if (x =? 3.141592653589793)%float then (-1)
  else if (x =? 4.71238898038469)%float then (-1.8369701987210297e-16)
  else if (x =? 6.283185307179586)%float then 1
  else if (x =? 0.3490658503988659)%float then 0.9396926207859084
  else if (x =? 1.9198621771937625)%float then (-0.3420201433256687)
  else nan.

Definition sin (x : float) : float :=
  if (x =? 0)%float then 0
  else if (x =? 1.5707963267948966)%float then 1
  else if (x =? 3.141592653589793)%float then 1.2246467991473532e-16
  else if (x =? 4.71238898038469)%float then (-1)
  else if (x =? 6.283185307179586)%float then (-2.4492935982947064e-16)
  else if (x =? 0.3490658503988659)%float then 0.3420201433256687
  else if (x =? 1.9198621771937625)%float then 0.9396926207859084
  else nan.

Definition blend (under over : RGBA) (mask : Z) : RGBA :=
  let mix a b := (a * (255 - mask) + b * mask) / 255 in
  let '(r1, g1, b1, a1) := under in
  let '(r2, g2, b2, a2) := over in
  (mix r1 r2, mix g1 g2, mix b1 b2, mix a1 a2).

(** A machine with the memory for a raster of a million pixels. *)
Definition fits (size : Z * Z) : bool := fst size * snd size <=? 1000000.

Definition single_text :=
  create_single_text_watermark fits getcolor.

Definition photo_text :=
  create_photo_text_watermark fits cos sin getcolor truetype load_default rotate blend.

(** A machine whose only font file is DejaVuSans.ttf. *)
Definition truetype_linux (path : string) (size : Z) : result Font :=
  if String.eqb path "DejaVuSans.ttf" then Ok (block_font 0 false)
  else Raise IOError.


(** The interpolation of two band values: the first at opacity 0, the
    second at opacity 1, the integer part of the mix between. *)
Definition blend_px (a b : Z) (opacity : float) : Z :=
  if a =? b then a
  else if (opacity =? 0)%float then a
  else if (opacity =? 1)%float then b
  else
    match (fa <~ PyFloat.of_int a ;; fd <~ PyFloat.of_int (b - a) ;;
           PyFloat.to_int (fa + opacity * fd)%float) with
    | Ok v => v
    | Raise _ => 0
    end.

(** Resizing by the nearest pixel; Pillow refuses an empty size. *)
Definition resize (im : Image) (size : Z * Z) : result Image :=
  if (fst size <=? 0) || (snd size <=? 0) then Raise ValueError
  else Ok {| im_size := size;
             im_px := fun x y => im_px im (x * fst (im_size im) / fst size)
                                          (y * snd (im_size im) / snd size) |}.

(** [str.lower], on the letters of ASCII. *)
Fixpoint lower (s : string) : string :=
  match s with
  | EmptyString => EmptyString
  | String c rest =>
      let n := nat_of_ascii c in
      String (if (65 <=? n)%nat && (n <=? 90)%nat then ascii_of_nat (n + 32) else c)
             (lower rest)
  end.

(** The index of the last [c] of [s], counting the first character of
    [s] as [i]. *)
Fixpoint rfind (c : ascii) (s : string) (i : nat) : option nat :=
  match s with
  | EmptyString => None
  | String a rest =>
      match rfind c rest (S i) with
      | Some j => Some j
      | None => if Ascii.eqb a c then Some i else None
      end
  end.

(** [posixpath.splitext]: the extension starts at the last period of the
    last component, unless only periods come before it there. *)
Definition splitext (p : string) : string * string :=
  let start := match rfind "/"%char p 0 with Some i => S i | None => 0%nat end in
  match rfind "."%char p 0 with
  | Some dot =>
      if existsb (fun c => negb (Ascii.eqb c "."%char))
                 (list_ascii_of_string (substring start (dot - start) p))
      then (substring 0 dot p, substring dot (String.length p - dot) p)
      else (p, EmptyString)
  | None => (p, EmptyString)
  end.

(** [posixpath.dirname] of a path that does not end in a slash. *)
Definition dirname (p : string) : string :=
  match rfind "/"%char p 0 with
  | Some 0%nat => "/"%string
  | Some i => substring 0 i p
  | None => EmptyString
  end.

(** The disk: a photo of 40 by 30 pixels, a logo of 10 by 5 whose right
    half is transparent, and a file that is no image. *)
Definition photo : Image :=
  {| im_size := (40, 30); im_px := fun _ _ => (10, 20, 30, 255) |}.

Definition logo : Image :=
  {| im_size := (10, 5); im_px := fun x _ => (200, 0, 0, if x <? 5 then 255 else 0) |}.

Definition disk : list (string * result Image) :=
  [("photo.jpg"%string, Ok photo); ("logo.png"%string, Ok logo);
   ("notes.txt"%string, Raise IOError)].

Fixpoint lookup (path : string) (l : list (string * result Image))
    : option (result Image) :=
  match l with
  | [] => None
  | (p, r) :: rest => if String.eqb p path then Some r else lookup path rest
  end.

Definition path_exists (path : string) : bool :=
  match lookup path disk with Some _ => true | None => false end.

Definition open_image (path : string) : result Image :=
  match lookup path disk with Some r => r | None => Raise IOError end.

Definition makedirs_ok (path : string) : result unit := Ok tt.

Definition save_ok (path : string) (b : bands) (image : Image) : result unit := Ok tt.

Definition str_exn (e : exn) : string :=
  match e with
  | ValueError => "value error"%string
  | ZeroDivisionError => "division by zero"%string
  | OverflowError => "overflow"%string
  | MemoryError => "out of memory"%string
  | IOError => "cannot open resource"%string
  end.

Definition script_main :=
  main fits cos sin getcolor truetype load_default rotate blend resize blend_px path_exists
       splitext dirname lower open_image makedirs_ok save_ok str_exn.

(** [-i input --font block.ttf --angle 0], with or without [-t text], the
    rest by default. *)
Definition args_for (input : string) (text : option string) : Args :=
  {| args_input := input; args_watermark := "watermark-logo.png"%string;
     args_text := text; args_font := Some "block.ttf"%string;
     args_font_size := 24; args_font_color := "#ffffff"%string;
     args_outline_color := "#000000"%string; args_outline_width := 1;
     args_angle := 0; args_density := 0.5; args_output := None;
     args_position := "center"%string; args_scale := 0.2; args_opacity := 0.3 |}.

Definition text_args : Args := args_for "photo.jpg" (Some "AB"%string).

Definition empty_world : World := {| printed := []; made := []; saved := [] |}.

End Sample.

(** * Proofs *)

(** ** Binary64: rounding is monotone, and exact on what is representable *)

Import Binary64.

Section Binary64Facts.

Lemma digits2_pos_bounds (p : positive) :
  2 ^ (Z.pos (digits2_pos p) - 1) <= Z.pos p < 2 ^ Z.pos (digits2_pos p).
Proof.
  induction p as [p IH | p IH |]; cbn [digits2_pos].
  - rewrite Pos2Z.inj_succ.
    replace (Z.succ (Z.pos (digits2_pos p)) - 1) with (Z.succ (Z.pos (digits2_pos p) - 1)) by lia.
    rewrite !Z.pow_succ_r by lia. lia.
  - rewrite Pos2Z.inj_succ.
    replace (Z.succ (Z.pos (digits2_pos p)) - 1) with (Z.succ (Z.pos (digits2_pos p) - 1)) by lia.
    rewrite !Z.pow_succ_r by lia. lia.
  - cbn. lia.
Qed.

Lemma digits_bounds (m : Z) : 0 < m -> 2 ^ (digits m - 1) <= m < 2 ^ digits m.
Proof.
  destruct m as [|p|p]; try lia. intros _. apply digits2_pos_bounds.
Qed.

Lemma digits_pos (m : Z) : 0 < m -> 0 < digits m.
Proof. destruct m; cbn; lia. Qed.

Lemma digits_unique (m d : Z) : 2 ^ (d - 1) <= m < 2 ^ d -> 0 < m -> digits m = d.
Proof.
  intros [Hl Hu] Hm. pose proof (digits_bounds m Hm) as [Bl Bu].
  pose proof (digits_pos m Hm) as Hd.
  assert (0 < d).
  { destruct (Z_lt_le_dec 0 d) as [|Hd0]; auto.
    destruct (Z.eq_dec d 0) as [->|]; [cbn in Hu; lia|].
    rewrite Z.pow_neg_r in Hu by lia. lia. }
  destruct (Z_lt_le_dec (digits m) d) as [L|L].
  - assert (2 ^ digits m <= 2 ^ (d - 1)) by (apply Z.pow_le_mono_r; lia). lia.
  - destruct (Z_lt_le_dec d (digits m)) as [L'|L']; [|lia].
    assert (2 ^ d <= 2 ^ (digits m - 1)) by (apply Z.pow_le_mono_r; lia). lia.
Qed.

Lemma digits_mul_pow (m k : Z) : 0 < m -> 0 <= k -> digits (m * 2 ^ k) = digits m + k.
Proof.
  intros Hm Hk. pose proof (digits_bounds m Hm) as [Bl Bu]. pose proof (digits_pos m Hm).
  assert (0 < 2 ^ k) by (apply Z.pow_pos_nonneg; lia).
  apply digits_unique; [|nia].
  replace (digits m + k - 1) with ((digits m - 1) + k) by lia.
  rewrite !Z.pow_add_r by lia. nia.
Qed.

(** shr *)
Lemma iter_pos_nat {A} (f : A -> A) (p : positive) (x : A) :
  iter_pos f p x = Nat.iter (Pos.to_nat p) f x.
Proof.
  revert x. induction p as [p IH | p IH |]; intros x; cbn [iter_pos].
  - rewrite !IH, Pos2Nat.inj_xI.
    replace (2 * Pos.to_nat p)%nat with (Pos.to_nat p + Pos.to_nat p)%nat by lia.
    rewrite Nat.iter_succ_r, Nat.iter_add. reflexivity.
  - rewrite !IH, Pos2Nat.inj_xO.
    replace (2 * Pos.to_nat p)%nat with (Pos.to_nat p + Pos.to_nat p)%nat by lia.
    rewrite Nat.iter_add. reflexivity.
  - reflexivity.
Qed.

Lemma shr_1_spec (m : Z) (r s : bool) : 0 <= m ->
  shr_1 (Build_shr_record m r s) = Build_shr_record (m / 2) (Z.odd m) (r || s).
Proof.
  intros Hm. destruct m as [|p|p]; [reflexivity| |lia].
  destruct p as [p|p|]; cbn [shr_1].
  - f_equal. rewrite Pos2Z.inj_xI. apply Z.div_unique with (r := 1); lia.
  - f_equal. rewrite Pos2Z.inj_xO. apply Z.div_unique with (r := 0); lia.
  - reflexivity.
Qed.

Lemma shr_iter (k : nat) (M : Z) : 0 <= M ->
  exists r s,
    Nat.iter k shr_1 (Build_shr_record M false false)
    = Build_shr_record (M / 2 ^ Z.of_nat k) r s
    /\ loc_inv (2 ^ Z.of_nat k) (M mod 2 ^ Z.of_nat k) r s.
Proof.
  intros HM. induction k as [|k IH].
  - exists false, false. cbn. rewrite Z.div_1_r, Z.mod_1_r. split; reflexivity.
  - destruct IH as (r & s & E & I).
    set (G := 2 ^ Z.of_nat k) in *.
    assert (HG : 0 < G) by (apply Z.pow_pos_nonneg; lia).
    assert (HG' : 2 ^ Z.of_nat (S k) = 2 * G).
    { rewrite Nat2Z.inj_succ, Z.pow_succ_r by lia. reflexivity. }
    rewrite HG'.
    assert (Hq : 0 <= M / G) by (apply Z.div_pos; lia).
    exists (Z.odd (M / G)), (r || s). split.
    + rewrite Nat.iter_succ, E, shr_1_spec by assumption.
      f_equal. rewrite Z.div_div by lia. f_equal. lia.
    + pose proof (Z.mod_pos_bound M G HG) as Hb.
      assert (Hrem : M mod (2 * G) = M mod G + (M / G) mod 2 * G).
      { rewrite (Z.mul_comm 2 G). rewrite Z.rem_mul_r by lia. lia. }
      rewrite Hrem. rewrite Zmod_odd.
      assert (Hs : (r || s = false /\ M mod G = 0) \/ (r || s = true /\ 0 < M mod G)).
      { unfold loc_inv in I. destruct r, s; cbn [orb]; lia. }
      unfold loc_inv.
      destruct (Z.odd (M / G)); destruct Hs as [[-> H0] | [-> H0]]; lia.
Qed.

Lemma round_loc (q G rem : Z) (r s : bool) : 0 < G -> loc_inv G rem r s ->
  round_nearest_even q (loc_of_shr_record (Build_shr_record q r s))
  = match 2 * rem ?= G with
    | Lt => q
    | Eq => if Z.even q then q else q + 1
    | Gt => q + 1
    end.
Proof.
  intros HG I. unfold loc_inv in I. destruct r, s; cbn [loc_of_shr_record round_nearest_even].
  - replace (2 * rem ?= G) with Gt by (symmetry; apply Z.compare_gt_iff; lia). reflexivity.
  - replace (2 * rem ?= G) with Eq by (symmetry; apply Z.compare_eq_iff; lia). reflexivity.
  - replace (2 * rem ?= G) with Lt by (symmetry; apply Z.compare_lt_iff; lia). reflexivity.
  - replace (2 * rem ?= G) with Lt by (symmetry; apply Z.compare_lt_iff; lia). reflexivity.
Qed.

(** first shift and round of binary_round_aux *)
Lemma shr_round (m e n : Z) : 0 <= m -> 0 <= n ->
  let '(mrs, e') := shr (Build_shr_record m false false) e n in
  e' = e + n /\
  round_nearest_even (shr_m mrs) (loc_of_shr_record mrs) = rne m (2 ^ n).
Proof.
  intros Hm Hn. unfold shr. destruct n as [|p|p]; [| |lia].
  - split; [lia|]. cbn. unfold rne. rewrite Z.mod_1_r, Z.div_1_r. reflexivity.
  - split; [reflexivity|]. rewrite iter_pos_nat.
    destruct (shr_iter (Pos.to_nat p) m Hm) as (r & s & E & I).
    rewrite positive_nat_Z in E, I. rewrite E. cbn [shr_m].
    erewrite round_loc; [reflexivity | apply Z.pow_pos_nonneg; lia | exact I].
Qed.

Lemma fexp_eq (x : Z) : fexp prec emax x = Z.max (x - 53) (-1074).
Proof. reflexivity. Qed.

Lemma rne_bounds (v G : Z) : 0 < G -> v / G <= rne v G <= v / G + 1.
Proof.
  intros HG. unfold rne. destruct (2 * (v mod G) ?= G); [destruct (Z.even (v / G))| |]; lia.
Qed.

Lemma rne_exact (q G : Z) : 0 < G -> rne (q * G) G = q.
Proof.
  intros HG. unfold rne. rewrite Z.mod_mul, Z.div_mul by lia.
  replace (2 * 0 ?= G) with Lt by (symmetry; apply Z.compare_lt_iff; lia). reflexivity.
Qed.

Lemma shr_noop (mrs : shr_record) (e n : Z) : n <= 0 -> shr mrs e n = (mrs, e).
Proof. intros Hn. destruct n; try reflexivity. lia. Qed.

Lemma rne_lt_pow (m e : Z) : 0 < m -> e <= fexp prec emax (digits m + e) ->
  0 <= rne m (2 ^ (fexp prec emax (digits m + e) - e)) <= 2 ^ 53.
Proof.
  intros Hm Hn. set (n := fexp prec emax (digits m + e) - e).
  assert (Hn0 : 0 <= n) by (unfold n; lia).
  assert (HG : 0 < 2 ^ n) by (apply Z.pow_pos_nonneg; lia).
  pose proof (rne_bounds m (2 ^ n) HG) as [Bl Bu].
  assert (0 <= m / 2 ^ n) by (apply Z.div_pos; lia).
  assert (m / 2 ^ n < 2 ^ 53).
  { apply Z.div_lt_upper_bound; [lia|].
    pose proof (digits_bounds m Hm) as [_ Hu].
    rewrite <- Z.pow_add_r by lia.
    eapply Z.lt_le_trans; [exact Hu|].
    apply Z.pow_le_mono_r; [lia|]. unfold n. rewrite fexp_eq. lia. }
  lia.
Qed.

Lemma binary_round_aux_exact (s : bool) (m e : Z) :
  0 < m -> e <= fexp prec emax (digits m + e) ->
  binary_round_aux prec emax s m e loc_Exact = round_pos s m e.
Proof.
  intros Hm Hn. unfold binary_round_aux, round_pos, shr_fexp.
  cbn [shr_record_of_loc]. fold (digits m).
  set (fe := fexp prec emax (digits m + e)) in *.
  assert (Hfe : -1074 <= fe) by (unfold fe; rewrite fexp_eq; lia).
  pose proof (shr_round m e (fe - e) ltac:(lia) ltac:(lia)) as S1.
  destruct (shr (Build_shr_record m false false) e (fe - e)) as [mrs e'].
  destruct S1 as [-> ->]. replace (e + (fe - e)) with fe by lia.
  pose proof (rne_lt_pow m e Hm Hn) as Hq. fold fe in Hq.
  set (q := rne m (2 ^ (fe - e))) in *.
  destruct (Z.eqb_spec q 0) as [E0|N0].
  - rewrite E0. cbn [Zdigits2]. rewrite shr_noop by (rewrite fexp_eq; lia). reflexivity.
  - destruct (Z.eqb_spec q (2 ^ 53)) as [E1|N1].
    + rewrite E1. change (Zdigits2 (2 ^ 53)) with 54.
      replace (fexp prec emax (54 + fe) - fe) with 1 by (rewrite fexp_eq; lia).
      cbn. replace (fe + 1 <=? 971) with (fe + 1 <=? emax - prec) by reflexivity.
      reflexivity.
    + assert (Hq0 : 0 < q) by lia.
      assert (digits q <= 53).
      { pose proof (digits_bounds q Hq0) as [Bl _].
        destruct (Z_lt_le_dec 53 (digits q)) as [L|L]; [|lia].
        assert (2 ^ 53 <= 2 ^ (digits q - 1)) by (apply Z.pow_le_mono_r; lia). lia. }
      fold (digits q). rewrite shr_noop by (rewrite fexp_eq; lia).
      cbn [shr_m]. destruct q as [|p|p]; try lia. reflexivity.
Qed.

Lemma pow2_pos (k : Z) : 0 <= k -> 0 < 2 ^ k.
Proof. intros; apply Z.pow_pos_nonneg; lia. Qed.

Lemma pow2_le (a b : Z) : 0 <= a <= b -> 2 ^ a <= 2 ^ b.
Proof. intros; apply Z.pow_le_mono_r; lia. Qed.

Lemma pow2_lt (a b : Z) : 0 <= a < b -> 2 ^ a < 2 ^ b.
Proof. intros; apply Z.pow_lt_mono_r; lia. Qed.

Lemma digits_mono (v1 v2 : Z) : 0 < v1 <= v2 -> digits v1 <= digits v2.
Proof.
  intros [H1 H12].
  pose proof (digits_bounds v1 H1) as [L1 _].
  pose proof (digits_bounds v2 ltac:(lia)) as [_ U2].
  pose proof (digits_pos v1 H1). pose proof (digits_pos v2 ltac:(lia)).
  destruct (Z_lt_le_dec (digits v2) (digits v1)) as [L|L]; [|lia].
  pose proof (pow2_le (digits v2) (digits v1 - 1) ltac:(lia)). lia.
Qed.

Lemma rne_scale (v G c : Z) : 0 < G -> 0 < c -> rne (v * c) (G * c) = rne v G.
Proof.
  intros HG Hc. unfold rne.
  rewrite Z.mul_mod_distr_r, Z.div_mul_cancel_r by lia.
  replace (2 * (v mod G * c) ?= G * c) with (2 * (v mod G) ?= G); [reflexivity|].
  destruct (Z.compare_spec (2 * (v mod G)) G); symmetry;
    [apply Z.compare_eq_iff | apply Z.compare_lt_iff | apply Z.compare_gt_iff]; nia.
Qed.

Lemma rne_mono (v1 v2 G : Z) : 0 < G -> v1 <= v2 -> rne v1 G <= rne v2 G.
Proof.
  intros HG Hv.
  assert (Hq : v1 / G <= v2 / G) by (apply Z.div_le_mono; lia).
  pose proof (rne_bounds v1 G HG) as [L1 U1].
  pose proof (rne_bounds v2 G HG) as [L2 U2].
  destruct (Z.eq_dec (v1 / G) (v2 / G)) as [E|N]; [|lia].
  assert (Hr : v1 mod G <= v2 mod G).
  { rewrite (Z.mod_eq v1 G), (Z.mod_eq v2 G) by lia. rewrite E. lia. }
  unfold rne. rewrite E.
  destruct (Z.compare_spec (2 * (v1 mod G)) G), (Z.compare_spec (2 * (v2 mod G)) G);
    try destruct (Z.even (v2 / G)); lia.
Qed.

Lemma rne_zero (G : Z) : 0 < G -> rne 0 G = 0.
Proof. intros HG. change 0 with (0 * G) at 1. apply rne_exact; lia. Qed.

Lemma rounded_zero : rounded 0 = 0.
Proof. unfold rounded. rewrite rne_zero by (apply pow2_pos; rewrite fexp_eq; unfold K; lia). reflexivity. Qed.

Lemma rounded_nonneg (v : Z) : 0 <= v -> 0 <= rounded v.
Proof.
  intros Hv. unfold rounded.
  set (G := 2 ^ _).
  assert (HG : 0 < G) by (apply pow2_pos; rewrite fexp_eq; unfold K; lia).
  pose proof (rne_bounds v G HG) as [L _].
  assert (0 <= v / G) by (apply Z.div_pos; lia).
  assert (0 < 2 ^ (1024 + K)) by (apply pow2_pos; unfold K; lia).
  apply Z.min_glb; nia.
Qed.

Lemma rounded_mono (v1 v2 : Z) : 0 <= v1 <= v2 -> rounded v1 <= rounded v2.
Proof.
  intros [H1 H12].
  destruct (Z.eq_dec v1 0) as [->|N1]; [rewrite rounded_zero; apply rounded_nonneg; lia|].
  assert (P1 : 0 < v1) by lia. assert (P2 : 0 < v2) by lia.
  pose proof (digits_mono v1 v2 ltac:(lia)) as Hd.
  pose proof (digits_bounds v1 P1) as [L1 U1].
  pose proof (digits_bounds v2 P2) as [L2 U2].
  pose proof (digits_pos v1 P1). pose proof (digits_pos v2 P2).
  unfold rounded. rewrite !fexp_eq.
  set (f1 := Z.max (digits v1 - K - 53) (-1074)).
  set (f2 := Z.max (digits v2 - K - 53) (-1074)).
  assert (Hf : f1 <= f2) by (unfold f1, f2; lia).
  assert (Hf1 : -1074 <= f1) by (unfold f1; lia).
  assert (HG1 : 0 < 2 ^ (f1 + K)) by (apply pow2_pos; unfold K; lia).
  assert (HG2 : 0 < 2 ^ (f2 + K)) by (apply pow2_pos; unfold K; lia).
  apply Z.min_le_compat_r.
  destruct (Z.eq_dec f1 f2) as [E|N].
  - rewrite E. apply Z.mul_le_mono_nonneg_r; [lia|]. apply rne_mono; lia.
  - assert (F2 : f2 = digits v2 - K - 53) by (unfold f1, f2 in *; lia).
    assert (F1 : digits v1 - K - 53 <= f1) by (unfold f1; lia).
    clearbody f1 f2.
    (* upper bound for the first *)
    pose proof (rne_bounds v1 (2 ^ (f1 + K)) HG1) as [_ B1].
    assert (Q1 : v1 / 2 ^ (f1 + K) < 2 ^ 53).
    { apply Z.div_lt_upper_bound; [lia|]. rewrite <- Z.pow_add_r by (unfold K; lia).
      eapply Z.lt_le_trans; [exact U1|]. apply pow2_le. unfold K in *; lia. }
    pose proof (rne_bounds v2 (2 ^ (f2 + K)) HG2) as [B2 _].
    assert (Q2 : 2 ^ 52 <= v2 / 2 ^ (f2 + K)).
    { apply Z.div_le_lower_bound; [lia|]. rewrite <- Z.pow_add_r by (unfold K; lia).
      eapply Z.le_trans; [|exact L2]. apply pow2_le. unfold K in *; lia. }
    apply Z.le_trans with (2 ^ 53 * 2 ^ (f1 + K)).
    { apply Z.mul_le_mono_nonneg_r; lia. }
    apply Z.le_trans with (2 ^ 52 * 2 ^ (f2 + K)).
    { rewrite <- !Z.pow_add_r by (unfold K; lia). apply pow2_le. unfold K; lia. }
    apply Z.mul_le_mono_nonneg_r; lia.
Qed.

Lemma rne_ge_pow52 (m e : Z) : 0 < m ->
  -1074 < fexp prec emax (digits m + e) -> e <= fexp prec emax (digits m + e) ->
  2 ^ 52 <= rne m (2 ^ (fexp prec emax (digits m + e) - e)).
Proof.
  intros Hm Hf Hn. rewrite fexp_eq in *.
  set (n := Z.max (digits m + e - 53) (-1074) - e) in *.
  assert (En : n = digits m - 53) by (unfold n in *; lia).
  assert (Hn0 : 0 <= n) by (unfold n; lia). clearbody n.
  pose proof (rne_bounds m (2 ^ n) (pow2_pos n Hn0)) as [B _].
  eapply Z.le_trans; [|exact B].
  apply Z.div_le_lower_bound; [apply pow2_pos; lia|].
  rewrite <- Z.pow_add_r by lia.
  pose proof (digits_bounds m Hm) as [L _].
  eapply Z.le_trans; [|exact L]. apply pow2_le. lia.
Qed.

Lemma round_pos_Fabs (s : bool) (m e : Z) :
  0 < m -> e <= fexp prec emax (digits m + e) -> - K <= e ->
  Fabs (round_pos s m e) = rounded (m * 2 ^ (e + K)).
Proof.
  intros Hm Hn He.
  pose proof (rne_lt_pow m e Hm Hn) as Hq.
  pose proof (rne_ge_pow52 m e Hm) as Hq52.
  unfold rounded, round_pos.
  rewrite digits_mul_pow by lia.
  replace (digits m + (e + K) - K) with (digits m + e) by lia.
  set (fe := fexp prec emax (digits m + e)) in *.
  assert (Hfe : -1074 <= fe) by (unfold fe; rewrite fexp_eq; lia).
  replace (2 ^ (fe + K)) with (2 ^ (fe - e) * 2 ^ (e + K))
    by (rewrite <- Z.pow_add_r by lia; f_equal; lia).
  rewrite rne_scale by (apply pow2_pos; lia).
  set (q := rne m (2 ^ (fe - e))) in *.
  replace (2 ^ (fe - e) * 2 ^ (e + K)) with (2 ^ (fe + K))
    by (rewrite <- Z.pow_add_r by lia; f_equal; lia).
  assert (HK : 0 <= fe + K) by (unfold K; lia).
  pose proof (pow2_pos (fe + K) HK) as HG.
  destruct (Z.eqb_spec q 0) as [E0|N0].
  - rewrite E0. cbn [Fabs]. rewrite Z.mul_0_l.
    symmetry. apply Z.min_l. apply Z.lt_le_incl, pow2_pos. unfold K; lia.
  - destruct (Z.eqb_spec q (2 ^ 53)) as [E1|N1].
    + rewrite E1. rewrite <- Z.pow_add_r by lia.
      destruct (Z.leb_spec (fe + 1) (emax - prec)) as [L|L]; cbn [Fabs].
      * rewrite Z2Pos.id by (apply pow2_pos; lia). rewrite <- Z.pow_add_r by lia.
        replace (52 + (fe + 1 + K)) with (53 + (fe + K)) by lia.
        symmetry. apply Z.min_l. apply pow2_le. unfold emax, prec in L. lia.
      * symmetry. apply Z.min_r. apply pow2_le. unfold emax, prec, K in *. lia.
    + destruct (Z.leb_spec fe (emax - prec)) as [L|L]; cbn [Fabs].
      * rewrite Z2Pos.id by lia.
        symmetry. apply Z.min_l.
        apply Z.le_trans with (2 ^ 53 * 2 ^ (fe + K)); [nia|].
        rewrite <- Z.pow_add_r by lia. apply pow2_le. unfold emax, prec in L. lia.
      * symmetry. apply Z.min_r.
        assert (2 ^ 52 <= q) by (apply Hq52; unfold emax, prec in L; lia).
        apply Z.le_trans with (2 ^ 52 * 2 ^ (fe + K)); [|nia].
        rewrite <- Z.pow_add_r by lia. apply pow2_le. unfold emax, prec, K in *. lia.
Qed.

Lemma digits_pow2 (k : Z) : 0 <= k -> digits (2 ^ k) = k + 1.
Proof.
  intros Hk. apply digits_unique; [|apply pow2_pos; lia].
  replace (k + 1 - 1) with k by lia. split; [lia|]. apply pow2_lt; lia.
Qed.

Lemma digits_range (q d : Z) : 0 < d -> 2 ^ (d - 1) <= q < 2 ^ d -> digits q = d.
Proof. intros Hd Hq. apply digits_unique; [exact Hq|]. pose proof (pow2_pos (d - 1)); lia. Qed.

Lemma digits_le (q d : Z) : 0 < q < 2 ^ d -> 0 <= d -> digits q <= d.
Proof.
  intros [Hq Hu] Hd. pose proof (digits_bounds q Hq) as [L _]. pose proof (digits_pos q Hq).
  destruct (Z_lt_le_dec d (digits q)) as [C|C]; [|lia].
  pose proof (pow2_le d (digits q - 1) ltac:(lia)). lia.
Qed.

Lemma round_pos_valid (s : bool) (m e : Z) :
  0 < m -> e <= fexp prec emax (digits m + e) ->
  valid_binary (round_pos s m e) = true.
Proof.
  intros Hm Hn.
  pose proof (rne_lt_pow m e Hm Hn) as Hq.
  pose proof (rne_ge_pow52 m e Hm) as Hq52.
  unfold round_pos.
  set (fe := fexp prec emax (digits m + e)) in *.
  assert (Hfe : -1074 <= fe) by (unfold fe; rewrite fexp_eq; lia).
  set (q := rne m (2 ^ (fe - e))) in *.
  destruct (Z.eqb_spec q 0) as [E0|N0]; [reflexivity|].
  destruct (Z.eqb_spec q (2 ^ 53)) as [E1|N1].
  - destruct (Z.leb_spec (fe + 1) (emax - prec)) as [L|L]; [|reflexivity].
    cbn [SpecFloat.valid_binary]. unfold bounded, canonical_mantissa.
    apply andb_true_intro; split; [|apply Z.leb_le; exact L].
    apply Z.eqb_eq. change (Z.pos (digits2_pos (Z.to_pos (2 ^ 52)))) with 53.
    rewrite fexp_eq. lia.
  - destruct (Z.leb_spec fe (emax - prec)) as [L|L]; [|reflexivity].
    cbn [SpecFloat.valid_binary]. unfold bounded, canonical_mantissa.
    apply andb_true_intro; split; [|apply Z.leb_le; exact L].
    apply Z.eqb_eq.
    assert (Hq0 : 0 < q) by lia.
    assert (Ed : Z.pos (digits2_pos (Z.to_pos q)) = digits q).
    { destruct q; try lia. reflexivity. }
    rewrite Ed. rewrite fexp_eq.
    destruct (Z.eq_dec fe (-1074)) as [Ef|Nf].
    + pose proof (digits_le q 53 ltac:(lia) ltac:(lia)). lia.
    + assert (2 ^ 52 <= q) by (apply Hq52; lia).
      assert (Eq53 : digits q = 53).
      { apply digits_range; [lia|]. change (2 ^ (53 - 1)) with (2 ^ 52). lia. }
      lia.
Qed.

Lemma round_pos_sign (s : bool) (m e : Z) : nonneg (round_pos s m e) = negb s || (rne m (2 ^ (fexp prec emax (digits m + e) - e)) =? 0).
Proof.
  unfold round_pos.
  destruct (Z.eqb_spec (rne m (2 ^ (fexp prec emax (digits m + e) - e))) 0).
  - cbn. destruct s; reflexivity.
  - repeat match goal with |- context [if ?b then _ else _] => destruct b end; cbn; destruct s; reflexivity.
Qed.

Lemma round_pos_nonneg (m e : Z) : nonneg (round_pos false m e) = true.
Proof. rewrite round_pos_sign. reflexivity. Qed.

(** comparison of valid non-negative values *)
Lemma valid_finite (s : bool) (m : positive) (e : Z) :
  valid_binary (S754_finite s m e) = true ->
  -1074 <= e <= 971 /\ digits (Z.pos m) <= 53 /\ (-1074 < e -> digits (Z.pos m) = 53).
Proof.
  cbn [SpecFloat.valid_binary]. unfold bounded, canonical_mantissa. intros H.
  apply andb_prop in H. destruct H as [H1 H2].
  apply Z.eqb_eq in H1. apply Z.leb_le in H2. rewrite fexp_eq in H1.
  unfold emax, prec in H2. cbn [digits Zdigits2]. lia.
Qed.

Lemma Fabs_finite_lt (s : bool) (m : positive) (e : Z) :
  valid_binary (S754_finite s m e) = true ->
  0 < Fabs (S754_finite s m e) < 2 ^ (1024 + K).
Proof.
  intros V. apply valid_finite in V. destruct V as (He & Hd & _). cbn [Fabs].
  pose proof (digits_bounds (Z.pos m) ltac:(lia)) as [_ U].
  pose proof (pow2_le (digits (Z.pos m)) 53 ltac:(pose proof (digits_pos (Z.pos m)); lia)).
  pose proof (pow2_pos (e + K) ltac:(unfold K; lia)).
  split; [lia|].
  apply Z.lt_le_trans with (2 ^ 53 * 2 ^ (e + K)); [nia|].
  rewrite <- Z.pow_add_r by (unfold K; lia). apply pow2_le. unfold K; lia.
Qed.

Lemma SFcompare_Fabs (x y : spec_float) :
  valid_binary x = true -> valid_binary y = true ->
  nonneg x = true -> nonneg y = true ->
  SFcompare x y = Some (Fabs x ?= Fabs y).
Proof.
  intros Vx Vy Nx Ny.
  destruct x as [sx|sx| |sx mx ex], y as [sy|sy| |sy my ey]; try discriminate;
    cbn [nonneg] in Nx, Ny;
    try (apply negb_true_iff in Nx; subst sx);
    try (apply negb_true_iff in Ny; subst sy);
    cbn [SFcompare].
  - reflexivity.
  - cbn [Fabs]. apply f_equal. symmetry. apply Z.compare_lt_iff. apply pow2_pos. unfold K; lia.
  - pose proof (Fabs_finite_lt _ _ _ Vy). apply f_equal. symmetry. apply Z.compare_lt_iff.
    cbn [Fabs] in *. lia.
  - cbn [Fabs]. apply f_equal. symmetry. apply Z.compare_gt_iff. apply pow2_pos. unfold K; lia.
  - cbn [Fabs]. apply f_equal. symmetry. apply Z.compare_eq_iff. reflexivity.
  - pose proof (Fabs_finite_lt _ _ _ Vy). apply f_equal. symmetry. apply Z.compare_gt_iff. 
    cbn [Fabs] in *. lia.
  - pose proof (Fabs_finite_lt _ _ _ Vx). apply f_equal. symmetry. apply Z.compare_gt_iff.
    cbn [Fabs] in *. lia.
  - pose proof (Fabs_finite_lt _ _ _ Vx). apply f_equal. symmetry. apply Z.compare_lt_iff.
    cbn [Fabs] in *. lia.
  - apply f_equal. cbn [Fabs].
    pose proof (valid_finite _ _ _ Vx) as (Hex & Hdx & Hnx).
    pose proof (valid_finite _ _ _ Vy) as (Hey & Hdy & Hny).
    pose proof (digits_bounds (Z.pos mx) ltac:(lia)) as [Lx Ux].
    pose proof (digits_bounds (Z.pos my) ltac:(lia)) as [Ly Uy].
    pose proof (digits_pos (Z.pos mx) ltac:(lia)).
    pose proof (digits_pos (Z.pos my) ltac:(lia)).
    destruct (Z.compare_spec ex ey) as [E|L|L].
    + subst ey. rewrite Pos.compare_cont_spec. cbn [Pos.switch_Eq].
      pose proof (pow2_pos (ex + K) ltac:(unfold K; lia)).
      change (Z.pos mx ?= Z.pos my) with (Pos.compare mx my) .
      destruct (Pos.compare_spec mx my) as [Em|Lm|Lm]; symmetry.
      * apply Z.compare_eq_iff. subst. reflexivity.
      * apply Z.compare_lt_iff. apply Z.mul_lt_mono_pos_r; lia.
      * apply Z.compare_gt_iff. apply Z.mul_lt_mono_pos_r; lia.
    + symmetry. apply Z.compare_lt_iff.
      rewrite (Hny ltac:(lia)) in Ly.
      pose proof (pow2_le (digits (Z.pos mx)) 53 ltac:(lia)).
      pose proof (pow2_pos (ex + K) ltac:(unfold K; lia)).
      pose proof (pow2_pos (ey + K) ltac:(unfold K; lia)).
      apply Z.lt_le_trans with (2 ^ 53 * 2 ^ (ex + K)); [nia|].
      apply Z.le_trans with (2 ^ (53 - 1) * 2 ^ (ey + K)); [|nia].
      rewrite <- !Z.pow_add_r by (unfold K; lia). apply pow2_le. unfold K; lia.
    + symmetry. apply Z.compare_gt_iff.
      rewrite (Hnx ltac:(lia)) in Lx.
      pose proof (pow2_le (digits (Z.pos my)) 53 ltac:(lia)).
      pose proof (pow2_pos (ex + K) ltac:(unfold K; lia)).
      pose proof (pow2_pos (ey + K) ltac:(unfold K; lia)).
      apply Z.lt_le_trans with (2 ^ 53 * 2 ^ (ey + K)); [nia|].
      apply Z.le_trans with (2 ^ (53 - 1) * 2 ^ (ex + K)); [|nia].
      rewrite <- !Z.pow_add_r by (unfold K; lia). apply pow2_le. unfold K; lia.
Qed.

Lemma rounded_id (x : spec_float) : valid_binary x = true -> rounded (Fabs x) = Fabs x.
Proof.
  intros V. destruct x as [s|s| |s m e]; cbn [Fabs]; try apply rounded_zero.
  - unfold rounded. rewrite digits_pow2 by (unfold K; lia).
    replace (fexp prec emax (1024 + K + 1 - K)) with 972 by (rewrite fexp_eq; lia).
    replace (2 ^ (1024 + K)) with (2 ^ 52 * 2 ^ (972 + K))
      by (rewrite <- Z.pow_add_r by (unfold K; lia); f_equal; lia).
    rewrite rne_exact by (apply pow2_pos; unfold K; lia). apply Z.min_id.
  - pose proof (Fabs_finite_lt _ _ _ V) as B. cbn [Fabs] in B.
    pose proof (valid_finite _ _ _ V) as (He & _).
    unfold rounded. rewrite digits_mul_pow by (unfold K; lia).
    replace (digits (Z.pos m) + (e + K) - K) with (digits (Z.pos m) + e) by lia.
    cbn [SpecFloat.valid_binary] in V. unfold bounded, canonical_mantissa in V.
    apply andb_prop in V. destruct V as [V _]. apply Z.eqb_eq in V.
    change (Z.pos (digits2_pos m)) with (digits (Z.pos m)) in V. rewrite V.
    rewrite rne_exact by (apply pow2_pos; unfold K; lia). apply Z.min_l. lia.
Qed.

Lemma iter_xO (m d : positive) : Z.pos (Pos.iter xO m d) = Z.pos m * 2 ^ Z.pos d.
Proof.
  induction d as [|d IH] using Pos.peano_ind.
  - cbn. lia.
  - rewrite Pos.iter_succ, Pos2Z.inj_xO, IH, Pos2Z.inj_succ, Z.pow_succ_r by lia. lia.
Qed.

Lemma shl_align_spec (m : positive) (e e' : Z) :
  snd (shl_align m e e') = Z.min e e' /\
  Z.pos (fst (shl_align m e e')) = Z.pos m * 2 ^ (e - Z.min e e').
Proof.
  unfold shl_align. destruct (e' - e) as [|d|d] eqn:E; cbn [fst snd].
  - replace (Z.min e e') with e by lia. rewrite Z.sub_diag. lia.
  - replace (Z.min e e') with e by lia. rewrite Z.sub_diag. lia.
  - replace (Z.min e e') with e' by lia. rewrite iter_xO.
    replace (e - e') with (Z.pos d) by lia. lia.
Qed.

Lemma binary_round_spec (m : positive) (e : Z) : - K <= e ->
  rounds_to (binary_round prec emax false m e) (Z.pos m * 2 ^ (e + K)).
Proof.
  intros He. unfold binary_round.
  pose proof (shl_align_spec m e (fexp prec emax (Z.pos (digits2_pos m) + e))) as [S1 S2].
  destruct (shl_align m e (fexp prec emax (Z.pos (digits2_pos m) + e))) as [mz ez].
  cbn [fst snd] in S1, S2.
  change (Z.pos (digits2_pos m)) with (digits (Z.pos m)) in *.
  set (fe := fexp prec emax (digits (Z.pos m) + e)) in *.
  assert (Hfe : -1074 <= fe) by (unfold fe; rewrite fexp_eq; lia).
  assert (Hd : digits (Z.pos mz) + ez = digits (Z.pos m) + e).
  { rewrite S2, digits_mul_pow by lia. lia. }
  assert (Hn : ez <= fexp prec emax (digits (Z.pos mz) + ez)).
  { rewrite Hd. fold fe. lia. }
  assert (Hv : Z.pos mz * 2 ^ (ez + K) = Z.pos m * 2 ^ (e + K)).
  { rewrite S2, <- Z.mul_assoc, <- Z.pow_add_r by (unfold K in *; lia).
    f_equal. f_equal. lia. }
  rewrite binary_round_aux_exact by (try lia; exact Hn).
  split.
  - apply round_pos_valid; [lia | exact Hn].
  - apply round_pos_nonneg.
  - rewrite round_pos_Fabs by (try lia; try exact Hn; unfold K in *; lia).
    rewrite Hv. reflexivity.
Qed.

Lemma binary_normalize_spec (z e : Z) : 0 <= z -> - K <= e ->
  rounds_to (binary_normalize prec emax z e false) (z * 2 ^ (e + K)).
Proof.
  intros Hz He. destruct z as [|p|p]; [|apply binary_round_spec; exact He|lia].
  cbn [binary_normalize]. split; [reflexivity | reflexivity |].
  cbn [Fabs]. rewrite Z.mul_0_l, rounded_zero. reflexivity.
Qed.

Lemma digits_mul_ge (a b : Z) : 0 < a -> 0 < b -> digits a + digits b - 1 <= digits (a * b).
Proof.
  intros Ha Hb.
  pose proof (digits_bounds a Ha) as [La _]. pose proof (digits_bounds b Hb) as [Lb _].
  pose proof (digits_bounds (a * b) ltac:(nia)) as [_ U].
  pose proof (digits_pos a Ha). pose proof (digits_pos b Hb). pose proof (digits_pos (a * b) ltac:(nia)).
  assert (2 ^ (digits a - 1 + (digits b - 1)) <= a * b).
  { rewrite Z.pow_add_r by lia. pose proof (pow2_pos (digits a - 1)). pose proof (pow2_pos (digits b - 1)). nia. }
  destruct (Z_lt_le_dec (digits (a * b)) (digits a + digits b - 1)) as [C|C]; [|lia].
  pose proof (pow2_le (digits (a * b)) (digits a - 1 + (digits b - 1)) ltac:(lia)). lia.
Qed.

Lemma SFmul_spec (x y : spec_float) :
  valid_binary x = true -> valid_binary y = true ->
  nonneg x = true -> nonneg y = true ->
  finite_or_zero x = true -> finite_or_zero y = true ->
  rounds_to (SFmul prec emax x y) (Fabs x * Fabs y / 2 ^ K).
Proof.
  intros Vx Vy Nx Ny Fx Fy.
  destruct x as [sx|sx| |sx mx ex], y as [sy|sy| |sy my ey]; try discriminate;
    cbn [SFmul].
  - split; [reflexivity | reflexivity |].
    cbn [Fabs]. rewrite Z.mul_0_l, Zdiv_0_l, rounded_zero. reflexivity.
  - split; [reflexivity | reflexivity |].
    cbn [Fabs]. rewrite Z.mul_0_l, Zdiv_0_l, rounded_zero. reflexivity.
  - split; [reflexivity | reflexivity |].
    cbn [Fabs]. rewrite Z.mul_0_r, Zdiv_0_l, rounded_zero. reflexivity.
  - cbn [nonneg] in Nx, Ny. apply negb_true_iff in Nx, Ny. subst sx sy. cbn [xorb].
    pose proof (valid_finite _ _ _ Vx) as (Hex & Hdx & Hnx).
    pose proof (valid_finite _ _ _ Vy) as (Hey & Hdy & Hny).
    pose proof (digits_pos (Z.pos mx) ltac:(lia)).
    pose proof (digits_pos (Z.pos my) ltac:(lia)).
    pose proof (digits_mul_ge (Z.pos mx) (Z.pos my) ltac:(lia) ltac:(lia)) as Hd.
    rewrite <- Pos2Z.inj_mul in Hd.
    assert (Hn : ex + ey <= fexp prec emax (digits (Z.pos (mx * my)) + (ex + ey))).
    { rewrite fexp_eq.
      destruct (Z_lt_le_dec (-1074) ex) as [Cx|Cx]; destruct (Z_lt_le_dec (-1074) ey) as [Cy|Cy].
      - rewrite (Hnx Cx), (Hny Cy) in Hd. lia.
      - rewrite (Hnx Cx) in Hd. lia.
      - rewrite (Hny Cy) in Hd. lia.
      - lia. }
    rewrite binary_round_aux_exact by (try lia; exact Hn).
    split.
    + apply round_pos_valid; [lia | exact Hn].
    + apply round_pos_nonneg.
    + rewrite round_pos_Fabs by (try lia; try exact Hn; unfold K; lia).
      f_equal. cbn [Fabs].
      replace (Z.pos mx * 2 ^ (ex + K) * (Z.pos my * 2 ^ (ey + K)))
        with (Z.pos (mx * my) * 2 ^ (ex + ey + K) * 2 ^ K).
      { rewrite Z.div_mul; [reflexivity|]. pose proof (pow2_pos K); unfold K in *; lia. }
      assert (E : 2 ^ (ex + ey + K) * 2 ^ K = 2 ^ (ex + K) * 2 ^ (ey + K)).
      { rewrite <- !Z.pow_add_r by (unfold K; lia). f_equal. lia. }
      rewrite Pos2Z.inj_mul, <- Z.mul_assoc, E. ring.
Qed.

Lemma SFsub_spec (x y : spec_float) :
  valid_binary x = true -> valid_binary y = true ->
  nonneg x = true -> nonneg y = true ->
  finite_or_zero x = true -> finite_or_zero y = true ->
  Fabs y <= Fabs x ->
  rounds_to (SFsub prec emax x y) (Fabs x - Fabs y).
Proof.
  intros Vx Vy Nx Ny Fx Fy Hle.
  destruct x as [sx|sx| |sx mx ex], y as [sy|sy| |sy my ey]; try discriminate.
  - cbn [Fabs]. rewrite Z.sub_diag.
    destruct sx, sy; cbn [SFsub]; (split; [reflexivity | reflexivity |]);
      cbn [Fabs]; rewrite rounded_zero; reflexivity.
  - pose proof (Fabs_finite_lt _ _ _ Vy). cbn [Fabs] in *. lia.
  - cbn [SFsub]. split; try assumption. cbn [Fabs]. rewrite Z.sub_0_r.
    symmetry. apply (rounded_id (S754_finite sx mx ex) Vx).
  - cbn [nonneg] in Nx, Ny. apply negb_true_iff in Nx, Ny. subst sx sy.
    cbn [SFsub cond_Zopp].
    pose proof (valid_finite _ _ _ Vx) as (Hex & _).
    pose proof (valid_finite _ _ _ Vy) as (Hey & _).
    pose proof (shl_align_spec mx ex (Z.min ex ey)) as [_ Sx].
    pose proof (shl_align_spec my ey (Z.min ex ey)) as [_ Sy].
    rewrite Sx, Sy.
    replace (Z.min ex (Z.min ex ey)) with (Z.min ex ey) by lia.
    replace (Z.min ey (Z.min ex ey)) with (Z.min ex ey) by lia.
    set (ez := Z.min ex ey).
    assert (Hez : -1074 <= ez) by (unfold ez; lia).
    assert (Hv : (Z.pos mx * 2 ^ (ex - ez) - Z.pos my * 2 ^ (ey - ez)) * 2 ^ (ez + K)
                 = Fabs (S754_finite false mx ex) - Fabs (S754_finite false my ey)).
    { cbn [Fabs]. rewrite Z.mul_sub_distr_r, <- !Z.mul_assoc.
      rewrite <- !Z.pow_add_r by (unfold ez, K; lia).
      replace (ex - ez + (ez + K)) with (ex + K) by lia.
      replace (ey - ez + (ez + K)) with (ey + K) by lia. reflexivity. }
    rewrite <- Hv. apply binary_normalize_spec; [|unfold K; lia].
    pose proof (pow2_pos (ez + K) ltac:(unfold K; lia)). nia.
Qed.

Lemma trunc_SF_Fabs (x : spec_float) :
  valid_binary x = true -> nonneg x = true -> finite_or_zero x = true ->
  PyFloat.trunc_SF x = Ok (Fabs x / 2 ^ K).
Proof.
  intros V N F. pose proof (pow2_pos K ltac:(unfold K; lia)) as HK.
  destruct x as [s|s| |s m e]; try discriminate; cbn [PyFloat.trunc_SF Fabs].
  - rewrite Zdiv_0_l. reflexivity.
  - cbn [nonneg] in N. apply negb_true_iff in N. subst s. cbn [cond_Zopp]. f_equal.
    pose proof (valid_finite _ _ _ V) as (He & _).
    destruct e as [|p|p].
    + rewrite Z.pow_0_r, Z.add_0_l, Z.div_mul by lia. lia.
    + rewrite Z.pow_add_r, Z.mul_assoc, Z.div_mul by (unfold K; lia). reflexivity.
    + replace (2 ^ K) with (2 ^ Z.pos p * 2 ^ (Z.neg p + K))
        by (rewrite <- Z.pow_add_r by (unfold K; lia); f_equal; lia).
      rewrite Z.div_mul_cancel_r; [reflexivity| |];
        pose proof (pow2_pos (Z.pos p)); pose proof (pow2_pos (Z.neg p + K)); unfold K in *; lia.
Qed.

End Binary64Facts.

(** ** Floats: comparison, product, difference and integer part by value *)

Lemma value_cap_pos : 0 < 2 ^ (1024 + K).
Proof. apply pow2_pos. unfold K; lia. Qed.

Lemma K_pow_pos : 0 < 2 ^ K.
Proof. apply pow2_pos. unfold K; lia. Qed.

Lemma rounds_to_real (r : spec_float) (v : Z) :
  rounds_to r v -> rounded v < 2 ^ (1024 + K) -> finite_or_zero r = true.
Proof.
  intros [V N E] H. rewrite <- E in H.
  destruct r as [s|s| |s m e]; try reflexivity; [|discriminate N].
  cbn [Fabs] in H. lia.
Qed.

Lemma real_value_lt (x : float) :
  is_nonneg x = true -> is_real x = true -> 0 <= value x < 2 ^ (1024 + K).
Proof.
  unfold is_nonneg, is_real, value. intros N F.
  pose proof (Prim2SF_valid x) as V. pose proof value_cap_pos.
  destruct (Prim2SF x) as [s|s| |s m e]; try discriminate; cbn [Fabs]; try lia.
  pose proof (Fabs_finite_lt _ _ _ V) as B. cbn [Fabs] in B. lia.
Qed.

Lemma value_lt_real (x : float) :
  is_nonneg x = true -> value x < 2 ^ (1024 + K) -> is_real x = true.
Proof.
  unfold is_nonneg, is_real, value. intros N H.
  destruct (Prim2SF x) as [s|s| |s m e]; try reflexivity; [|discriminate N].
  cbn [Fabs] in H. lia.
Qed.

Lemma value_nonneg (x : float) : 0 <= value x.
Proof.
  unfold value. pose proof value_cap_pos.
  destruct (Prim2SF x) as [s|s| |s m e]; cbn [Fabs]; try lia.
Qed.

Lemma ltb_value (x y : float) :
  is_nonneg x = true -> is_nonneg y = true ->
  (x <? y)%float = (value x <? value y).
Proof.
  intros Nx Ny. rewrite ltb_spec. unfold SFltb.
  rewrite (SFcompare_Fabs _ _ (Prim2SF_valid x) (Prim2SF_valid y) Nx Ny).
  unfold value, Z.ltb. destruct (Fabs (Prim2SF x) ?= Fabs (Prim2SF y)); reflexivity.
Qed.

Lemma leb_value (x y : float) :
  is_nonneg x = true -> is_nonneg y = true ->
  (x <=? y)%float = (value x <=? value y).
Proof.
  intros Nx Ny. rewrite leb_spec. unfold SFleb.
  rewrite (SFcompare_Fabs _ _ (Prim2SF_valid x) (Prim2SF_valid y) Nx Ny).
  unfold value, Z.leb. destruct (Fabs (Prim2SF x) ?= Fabs (Prim2SF y)); reflexivity.
Qed.

(** What is not below a number that is not negative is not negative. *)
Lemma leb_nonneg (c x : float) :
  is_nonneg c = true -> (c <=? x)%float = true -> is_nonneg x = true.
Proof.
  unfold is_nonneg. rewrite leb_spec. unfold SFleb. intros Nc H.
  destruct (Prim2SF c) as [sc|sc| |sc mc ec]; try discriminate Nc;
    destruct (Prim2SF x) as [s|s| |s m e]; try discriminate H; try reflexivity;
    cbn [nonneg] in Nc |- *; try (apply negb_true_iff in Nc; subst sc);
    cbn [SFcompare] in H; destruct s; try discriminate H; reflexivity.
Qed.

Lemma mul_rounds (x y : float) :
  is_nonneg x = true -> is_nonneg y = true -> is_real x = true -> is_real y = true ->
  rounds_to (Prim2SF (x * y)) (value x * value y / 2 ^ K).
Proof.
  intros Nx Ny Rx Ry. rewrite mul_spec.
  apply SFmul_spec; auto using Prim2SF_valid.
Qed.

Lemma sub_rounds (x y : float) :
  is_nonneg x = true -> is_nonneg y = true -> is_real x = true -> is_real y = true ->
  value y <= value x ->
  rounds_to (Prim2SF (x - y)) (value x - value y).
Proof.
  intros Nx Ny Rx Ry H. rewrite sub_spec.
  apply SFsub_spec; auto using Prim2SF_valid.
Qed.

Lemma to_int_value (x : float) :
  is_nonneg x = true -> is_real x = true -> PyFloat.to_int x = Ok (value x / 2 ^ K).
Proof.
  intros N R. unfold PyFloat.to_int. apply trunc_SF_Fabs; auto using Prim2SF_valid.
Qed.

Lemma to_int_infinite (x : float) :
  is_nonneg x = true -> is_real x = false -> exists e, PyFloat.to_int x = Raise e.
Proof.
  unfold is_nonneg, is_real, PyFloat.to_int. intros N R.
  destruct (Prim2SF x) as [s|s| |s m e]; try discriminate; cbn; eauto.
Qed.

Lemma is_infinity_spec (x : float) :
  is_infinity x = match Prim2SF x with S754_infinity _ => true | _ => false end.
Proof.
  unfold is_infinity. rewrite eqb_spec, abs_spec.
  change (Prim2SF infinity) with (S754_infinity false).
  destruct (Prim2SF x) as [s|s| |s m e]; reflexivity.
Qed.


(** ** The spacing factor and the spacing *)

Lemma value_one : value 1 = 2 ^ K.
Proof. vm_compute. reflexivity. Qed.

Lemma ltb_leb (x y : float) : (x <? y)%float = true -> (x <=? y)%float = true.
Proof.
  rewrite ltb_spec, leb_spec. unfold SFltb, SFleb.
  destruct (SFcompare (Prim2SF x) (Prim2SF y)) as [[| |]|]; congruence.
Qed.

(** The clamp holds for every density, NaN and the infinities included. *)
Lemma spacing_factor_range (density : float) :
  (0.2 <=? spacing_factor density)%float = true
  /\ (spacing_factor density <=? 1)%float = true.
Proof.
  unfold spacing_factor, PyFloat.max, PyFloat.min.
  destruct (1 - density <? 1)%float eqn:E1;
    match goal with |- context [(0.2 <? ?y)%float] => destruct (0.2 <? y)%float eqn:E2 end;
    split; auto using ltb_leb; reflexivity.
Qed.

Lemma spacing_factor_regular (density : float) :
  is_nonneg (spacing_factor density) = true
  /\ is_real (spacing_factor density) = true
  /\ value 0.2 <= value (spacing_factor density) <= 2 ^ K.
Proof.
  destruct (spacing_factor_range density) as [L U].
  assert (N : is_nonneg (spacing_factor density) = true).
  { apply (leb_nonneg 0.2); [reflexivity | exact L]. }
  rewrite leb_value in L, U by (try exact N; reflexivity).
  apply Z.leb_le in L, U. rewrite value_one in U.
  split; [exact N|]. split; [|lia].
  apply value_lt_real; [exact N|].
  pose proof (pow2_lt K (1024 + K) ltac:(unfold K; lia)). lia.
Qed.

Lemma one_minus_rounds (d : float) :
  is_nonneg d = true -> value d <= 2 ^ K ->
  rounds_to (Prim2SF (1 - d)) (2 ^ K - value d).
Proof.
  intros N H. rewrite <- value_one. apply sub_rounds; try reflexivity; try exact N.
  - apply value_lt_real; [exact N|].
    pose proof (pow2_lt K (1024 + K) ltac:(unfold K; lia)). lia.
  - rewrite value_one. exact H.
Qed.

Lemma spacing_factor_value (d : float) :
  is_nonneg d = true -> value d <= 2 ^ K ->
  value (spacing_factor d) = Z.max (value 0.2) (Z.min (2 ^ K) (rounded (2 ^ K - value d))).
Proof.
  intros N H. destruct (one_minus_rounds d N H) as [V Nx E].
  fold (is_nonneg (1 - d)) in Nx. fold (value (1 - d)) in E.
  unfold spacing_factor, PyFloat.max, PyFloat.min.
  rewrite (ltb_value (1 - d) 1 Nx eq_refl), value_one, E.
  destruct (Z.ltb_spec (rounded (2 ^ K - value d)) (2 ^ K)) as [C|C].
  - rewrite (ltb_value 0.2 (1 - d) eq_refl Nx), E.
    destruct (Z.ltb_spec (value 0.2) (rounded (2 ^ K - value d))) as [C2|C2]; [rewrite E|]; lia.
  - change (0.2 <? 1)%float with true. cbv iota. rewrite value_one.
    assert (value 0.2 < 2 ^ K) by (vm_compute; reflexivity). lia.
Qed.

(** A larger density never gives a larger spacing factor. *)
Lemma spacing_factor_mono (d1 d2 : float) :
  is_nonneg d1 = true -> (d1 <=? d2)%float = true -> (d2 <=? 1)%float = true ->
  value (spacing_factor d2) <= value (spacing_factor d1).
Proof.
  intros N1 H12 H2.
  assert (N2 : is_nonneg d2 = true) by (apply (leb_nonneg d1); assumption).
  rewrite leb_value in H12, H2 by (auto; reflexivity).
  apply Z.leb_le in H12, H2. rewrite value_one in H2.
  rewrite !spacing_factor_value by (auto; lia).
  pose proof (value_nonneg d2).
  pose proof (rounded_mono (2 ^ K - value d2) (2 ^ K - value d1) ltac:(lia)). lia.
Qed.

(** From 0.8 on the factor is the floor of the clamp. *)
Lemma spacing_factor_saturates (d : float) :
  (0.8 <=? d)%float = true -> (d <=? 1)%float = true -> spacing_factor d = 0.2%float.
Proof.
  intros L U.
  assert (N : is_nonneg d = true).
  { apply (leb_nonneg 0.8); [reflexivity | exact L]. }
  rewrite leb_value in L, U by (auto; reflexivity).
  apply Z.leb_le in L, U. rewrite value_one in U.
  destruct (one_minus_rounds d N U) as [V Nx E].
  fold (is_nonneg (1 - d)) in Nx. fold (value (1 - d)) in E.
  assert (B : value (1 - d) <= value 0.19999999999999996).
  { rewrite E. unfold value at 2. rewrite <- (rounded_id _ (Prim2SF_valid _)).
    apply rounded_mono. split; [lia|].
    assert (2 ^ K - value 0.8 = Fabs (Prim2SF 0.19999999999999996)) by (vm_compute; reflexivity).
    lia. }
  assert (B2 : value 0.19999999999999996 < value 0.2) by (vm_compute; reflexivity).
  assert (B3 : value 0.2 < 2 ^ K) by (vm_compute; reflexivity).
  unfold spacing_factor, PyFloat.max, PyFloat.min.
  rewrite (ltb_value (1 - d) 1 Nx eq_refl), value_one.
  destruct (Z.ltb_spec (value (1 - d)) (2 ^ K)) as [C|C]; [|lia].
  rewrite (ltb_value 0.2 (1 - d) eq_refl Nx).
  destruct (Z.ltb_spec (value 0.2) (value (1 - d))) as [C2|C2]; [lia|reflexivity].
Qed.

Lemma rounded_pow2 (k : Z) : -1022 <= k <= 1023 -> rounded (2 ^ (k + K)) = 2 ^ (k + K).
Proof.
  intros Hk.
  assert (V : valid_binary (S754_finite false 4503599627370496 (k - 52)) = true).
  { cbn [SpecFloat.valid_binary]. unfold bounded, canonical_mantissa.
    apply andb_true_intro. split; [apply Z.eqb_eq | apply Z.leb_le].
    - change (Z.pos (digits2_pos 4503599627370496)) with 53. rewrite fexp_eq. lia.
    - unfold emax, prec. lia. }
  pose proof (rounded_id _ V) as E. cbn [Fabs] in E.
  change (Z.pos 4503599627370496) with (2 ^ 52) in E.
  rewrite <- Z.pow_add_r in E by (unfold K; lia).
  replace (52 + (k - 52 + K)) with (k + K) in E by lia. exact E.
Qed.

Lemma value_rounds (x : float) (v : Z) : rounds_to (Prim2SF x) v -> value x = rounded v.
Proof. intros [_ _ E]. exact E. Qed.

Lemma nonneg_rounds (x : float) (v : Z) : rounds_to (Prim2SF x) v -> is_nonneg x = true.
Proof. intros [_ N _]. exact N. Qed.

Lemma value_rounded_id (x : float) : rounded (value x) = value x.
Proof. apply rounded_id, Prim2SF_valid. Qed.

Lemma of_int_ok (n : Z) : 0 <= n < 2 ^ 1000 ->
  exists f, PyFloat.of_int n = Ok f /\ is_nonneg f = true /\ is_real f = true
            /\ value f = rounded (n * 2 ^ K) /\ value f <= 2 ^ (1000 + K).
Proof.
  intros Hn.
  pose proof (binary_normalize_spec n 0 ltac:(lia) ltac:(unfold K; lia)) as R.
  rewrite Z.add_0_l in R.
  assert (B : rounded (n * 2 ^ K) <= 2 ^ (1000 + K)).
  { rewrite <- (rounded_pow2 1000) by lia. apply rounded_mono.
    pose proof K_pow_pos. rewrite Z.pow_add_r by (unfold K; lia). nia. }
  assert (C : 2 ^ (1000 + K) < 2 ^ (1024 + K)) by (apply pow2_lt; unfold K; lia).
  pose proof (rounds_to_real _ _ R ltac:(lia)) as F.
  unfold PyFloat.of_int.
  set (r := binary_normalize prec emax n 0 false) in *.
  exists (SF2Prim r).
  rewrite is_infinity_spec. unfold is_nonneg, is_real, value.
  rewrite (Prim2SF_SF2Prim r (rt_valid _ _ R)).
  destruct R as [V N E]. rewrite E.
  repeat split; auto.
  destruct r; try reflexivity; discriminate F.
Qed.

Lemma base_spacing_formula (text_width text_height : Z) (sf : float) :
  0 <= Z.max text_width text_height < 2 ^ 1000 ->
  (0.2 <=? sf)%float = true -> (sf <=? 1)%float = true ->
  base_spacing text_width text_height sf
  = Ok (spacing_units (Z.max text_width text_height) (value sf)).
Proof.
  intros HM L U. set (M := Z.max text_width text_height) in *.
  assert (Ns : is_nonneg sf = true) by (apply (leb_nonneg 0.2); [reflexivity | exact L]).
  rewrite leb_value in U by (auto; reflexivity). apply Z.leb_le in U. rewrite value_one in U.
  pose proof K_pow_pos as HK.
  assert (C : 2 ^ K < 2 ^ (1024 + K)) by (apply pow2_lt; unfold K; lia).
  assert (Rs : is_real sf = true) by (apply value_lt_real; [exact Ns | lia]).
  destruct (of_int_ok M HM) as (f & Ef & Nf & Rf & Vf & Bf).
  unfold base_spacing, PyFloat.int_mul. fold M. rewrite Ef. cbn [rbind].
  pose proof (mul_rounds f 2.5 Nf eq_refl Rf eq_refl) as R1.
  pose proof (value_rounds _ _ R1) as V1. pose proof (nonneg_rounds _ _ R1) as N1.
  assert (B1 : value (f * 2.5) <= 2 ^ (1002 + K)).
  { rewrite V1, <- (rounded_pow2 1002) by lia. apply rounded_mono.
    pose proof (value_nonneg f).
    assert (H25 : value 2.5 <= 4 * 2 ^ K) by (vm_compute; discriminate).
    pose proof (value_nonneg 2.5).
    split; [apply Z.div_pos; nia|].
    apply Z.le_trans with (value f * (4 * 2 ^ K) / 2 ^ K).
    - apply Z.div_le_mono; [lia|]. apply Z.mul_le_mono_nonneg_l; lia.
    - rewrite Z.mul_assoc, Z.div_mul by lia.
      replace (1002 + K) with (2 + (1000 + K)) by lia.
      rewrite (Z.pow_add_r 2 2) by (unfold K; lia). change (2 ^ 2) with 4. lia. }
  assert (C1 : 2 ^ (1002 + K) < 2 ^ (1024 + K)) by (apply pow2_lt; unfold K; lia).
  assert (Rr1 : is_real (f * 2.5) = true) by (apply value_lt_real; [exact N1 | lia]).
  pose proof (mul_rounds (f * 2.5) sf N1 Ns Rr1 Rs) as R2.
  pose proof (value_rounds _ _ R2) as V2. pose proof (nonneg_rounds _ _ R2) as N2.
  assert (B2 : value (f * 2.5 * sf) <= value (f * 2.5)).
  { rewrite V2.
    apply Z.le_trans with (rounded (value (f * 2.5))); [|rewrite value_rounded_id; lia].
    apply rounded_mono.
    pose proof (value_nonneg (f * 2.5)). pose proof (value_nonneg sf).
    split; [apply Z.div_pos; nia|].
    apply Z.div_le_upper_bound; [lia|]. rewrite Z.mul_comm. apply Z.mul_le_mono_nonneg_r; lia. }
  assert (Rr2 : is_real (f * 2.5 * sf) = true) by (apply value_lt_real; [exact N2 | lia]).
  rewrite (to_int_value _ N2 Rr2). unfold spacing_units.
  rewrite V2, V1, Vf. reflexivity.
Qed.

Lemma spacing_units_mono (M v1 v2 : Z) : 0 <= M -> 0 <= v2 <= v1 ->
  spacing_units M v2 <= spacing_units M v1.
Proof.
  intros HM Hv. unfold spacing_units. pose proof K_pow_pos as HK.
  set (a := rounded (rounded (M * 2 ^ K) * value 2.5 / 2 ^ K)).
  assert (Ha : 0 <= a).
  { apply rounded_nonneg. apply Z.div_pos; [|lia].
    pose proof (rounded_nonneg (M * 2 ^ K) ltac:(nia)). pose proof (value_nonneg 2.5). nia. }
  apply Z.div_le_mono; [lia|]. apply rounded_mono.
  split; [apply Z.div_pos; nia|].
  apply Z.div_le_mono; [lia|]. apply Z.mul_le_mono_nonneg_l; lia.
Qed.

Lemma spacing_units_ge_1 (M v : Z) : 2 <= M -> value 0.2 <= v -> 1 <= spacing_units M v.
Proof.
  intros HM Hv. unfold spacing_units. pose proof K_pow_pos as HK.
  assert (E2 : rounded (2 ^ (1 + K)) = 2 ^ (1 + K)) by (apply rounded_pow2; lia).
  assert (A1 : 2 ^ (1 + K) <= rounded (M * 2 ^ K)).
  { rewrite <- E2. apply rounded_mono. rewrite Z.pow_add_r by (unfold K; lia).
    change (2 ^ 1) with 2. split; nia. }
  assert (E5 : rounded (value 5) = value 5) by apply value_rounded_id.
  assert (V5 : value 5 = 2 ^ (1 + K) * value 2.5 / 2 ^ K) by (vm_compute; reflexivity).
  pose proof (value_nonneg 2.5) as P25.
  assert (A2 : value 5 <= rounded (rounded (M * 2 ^ K) * value 2.5 / 2 ^ K)).
  { rewrite <- E5. apply rounded_mono. split; [apply value_nonneg|].
    rewrite V5. apply Z.div_le_mono; [lia|]. apply Z.mul_le_mono_nonneg_r; lia. }
  set (a := rounded (rounded (M * 2 ^ K) * value 2.5 / 2 ^ K)) in *.
  assert (E1 : rounded (value 1) = value 1) by apply value_rounded_id.
  assert (V1 : value 1 <= value 5 * value 0.2 / 2 ^ K) by (vm_compute; discriminate).
  pose proof (value_nonneg 5). pose proof (value_nonneg 0.2).
  assert (A3 : value 1 <= rounded (a * v / 2 ^ K)).
  { rewrite <- E1. apply rounded_mono. split; [apply value_nonneg|].
    eapply Z.le_trans; [exact V1|]. apply Z.div_le_mono; [lia|].
    apply Z.mul_le_mono_nonneg; lia. }
  rewrite value_one in A3.
  apply Z.div_le_lower_bound; lia.
Qed.

(** ** Densities out of range: differences that are negative, or above one *)

Definition signed (s : bool) (r : spec_float) : Prop :=
  r = S754_zero s \/ (exists m e, r = S754_finite s m e) \/ r = S754_infinity s.

Lemma round_pos_signed (s : bool) (m e : Z) : signed s (round_pos s m e).
Proof.
  unfold round_pos, signed.
  repeat match goal with |- context [if ?b then _ else _] => destruct b end; eauto.
Qed.

Lemma binary_round_signed (s : bool) (m : positive) (e : Z) :
  signed s (binary_round prec emax s m e).
Proof.
  unfold binary_round.
  pose proof (shl_align_spec m e (fexp prec emax (Z.pos (digits2_pos m) + e))) as [S1 S2].
  destruct (shl_align m e (fexp prec emax (Z.pos (digits2_pos m) + e))) as [mz ez].
  cbn [fst snd] in S1, S2.
  change (Z.pos (digits2_pos m)) with (digits (Z.pos m)) in *.
  set (fe := fexp prec emax (digits (Z.pos m) + e)) in *.
  assert (Hd : digits (Z.pos mz) + ez = digits (Z.pos m) + e).
  { rewrite S2, digits_mul_pow by lia. lia. }
  rewrite binary_round_aux_exact; [apply round_pos_signed | lia |].
  rewrite Hd. fold fe. lia.
Qed.

Lemma negative_below (r : spec_float) (m : positive) (e : Z) :
  signed true r ->
  SFltb r (S754_finite false m e) = true /\ SFltb (S754_finite false m e) r = false.
Proof.
  intros [->|[(m' & e' & ->)| ->]]; split; reflexivity.
Qed.

Lemma one_minus_above (d : float) :
  (1 <? d)%float = true ->
  (1 - d <? 1)%float = true /\ (0.2 <? 1 - d)%float = false.
Proof.
  rewrite !ltb_spec, sub_spec.
  change (Prim2SF 1) with (S754_finite false 4503599627370496 (-52)).
  change (Prim2SF 0.2) with (S754_finite false 7205759403792794 (-55)).
  pose proof (Prim2SF_valid d) as V.
  destruct (Prim2SF d) as [s|s| |s m e] eqn:Ed; try discriminate.
  - destruct s; [discriminate|]. intros _. split; reflexivity.
  - destruct s; [discriminate|]. intros H.
    cut (signed true (SF64sub (S754_finite false 4503599627370496 (-52))
                              (S754_finite false m e))).
    { intros Sg. split; [exact (proj1 (negative_below _ _ _ Sg))
                        | exact (proj2 (negative_below _ _ _ Sg))]. }
    unfold SF64sub, SFsub. cbn [cond_Zopp].
    pose proof (valid_finite _ _ _ V) as (He & _).
    pose proof (shl_align_spec 4503599627370496 (-52) (Z.min (-52) e)) as [_ Sx].
    pose proof (shl_align_spec m e (Z.min (-52) e)) as [_ Sy].
    rewrite Sx, Sy.
    replace (Z.min (-52) (Z.min (-52) e)) with (Z.min (-52) e) by lia.
    replace (Z.min e (Z.min (-52) e)) with (Z.min (-52) e) by lia.
    set (ez := Z.min (-52) e).
    assert (Hlt : Fabs (S754_finite false 4503599627370496 (-52)) < Fabs (S754_finite false m e)).
    { unfold SFltb in H.
      rewrite (SFcompare_Fabs (S754_finite false 4503599627370496 (-52))
                 (S754_finite false m e) eq_refl V eq_refl eq_refl) in H.
      destruct (Z.compare_spec (Fabs (S754_finite false 4503599627370496 (-52)))
                               (Fabs (S754_finite false m e))); try discriminate H. assumption. }
    cbn [Fabs] in Hlt.
    assert (Hneg : Z.pos 4503599627370496 * 2 ^ (-52 - ez) - Z.pos m * 2 ^ (e - ez) < 0).
    { pose proof (pow2_pos (ez + K) ltac:(unfold ez, K; lia)) as Hp.
      assert (Ex : Z.pos 4503599627370496 * 2 ^ (-52 + K)
                   = Z.pos 4503599627370496 * 2 ^ (-52 - ez) * 2 ^ (ez + K)).
      { rewrite <- Z.mul_assoc, <- Z.pow_add_r by (unfold ez, K; lia). do 2 f_equal. lia. }
      assert (Ey : Z.pos m * 2 ^ (e + K) = Z.pos m * 2 ^ (e - ez) * 2 ^ (ez + K)).
      { rewrite <- Z.mul_assoc, <- Z.pow_add_r by (unfold ez, K; lia). do 2 f_equal. lia. }
      rewrite Ex, Ey in Hlt. nia. }
    destruct (Z.pos 4503599627370496 * 2 ^ (-52 - ez) - Z.pos m * 2 ^ (e - ez)) as [|p|p];
      try lia.
    cbn [binary_normalize]. apply binary_round_signed.
Qed.

(** Above one the factor is the floor of the clamp. *)
Lemma spacing_factor_above_one (d : float) :
  (1 <? d)%float = true -> spacing_factor d = 0.2%float.
Proof.
  intros H. destruct (one_minus_above d H) as [A B].
  unfold spacing_factor, PyFloat.max, PyFloat.min. rewrite A, B. reflexivity.
Qed.

Lemma one_minus_below (d : float) :
  (d <=? 0)%float = true -> (1 - d <? 1)%float = false.
Proof.
  rewrite leb_spec. intros H.
  change (Prim2SF 0) with (S754_zero false) in H.
  pose proof (Prim2SF_valid d) as V.
  assert (N1 : is_nonneg (1 - d) = true /\ 2 ^ K <= value (1 - d)).
  { unfold is_nonneg, value. rewrite sub_spec.
    change (Prim2SF 1) with (S754_finite false 4503599627370496 (-52)).
    destruct (Prim2SF d) as [s|s| |s m e] eqn:Ed; try discriminate H.
    - unfold SF64sub. cbn [SFsub nonneg negb Fabs]. split; [reflexivity|].
      change (Z.pos 4503599627370496) with (2 ^ 52).
      rewrite <- Z.pow_add_r by (unfold K; lia). apply pow2_le. unfold K; lia.
    - destruct s; [|discriminate H]. unfold SF64sub. cbn [SFsub nonneg negb Fabs].
      split; [reflexivity|]. apply pow2_le. unfold K; lia.
    - destruct s; [|discriminate H]. unfold SF64sub, SFsub. cbn [cond_Zopp].
      pose proof (valid_finite _ _ _ V) as (He & _).
      pose proof (shl_align_spec 4503599627370496 (-52) (Z.min (-52) e)) as [_ Sx].
      pose proof (shl_align_spec m e (Z.min (-52) e)) as [_ Sy].
      rewrite Sx, Sy.
      replace (Z.min (-52) (Z.min (-52) e)) with (Z.min (-52) e) by lia.
      replace (Z.min e (Z.min (-52) e)) with (Z.min (-52) e) by lia.
      set (ez := Z.min (-52) e).
      pose proof (pow2_pos (ez + K) ltac:(unfold ez, K; lia)) as Hp.
      pose proof (pow2_pos (e - ez) ltac:(unfold ez; lia)) as Hpy.
      pose proof (pow2_pos (-52 - ez) ltac:(unfold ez; lia)) as Hpx.
      set (z := Z.pos 4503599627370496 * 2 ^ (-52 - ez) - - (Z.pos m * 2 ^ (e - ez))).
      assert (Hz : Z.pos 4503599627370496 * 2 ^ (-52 - ez) <= z) by (unfold z; nia).
      destruct (binary_normalize_spec z ez ltac:(nia) ltac:(unfold ez, K; lia)) as [_ Nn En].
      split; [exact Nn|]. rewrite En.
      pose proof (rounded_pow2 0 ltac:(lia)) as E0. rewrite Z.add_0_l in E0.
      apply Z.le_trans with (rounded (2 ^ K)); [rewrite E0; lia|].
      apply rounded_mono. split; [lia|].
      apply Z.le_trans with (Z.pos 4503599627370496 * 2 ^ (-52 - ez) * 2 ^ (ez + K)); [|nia].
      rewrite <- Z.mul_assoc, <- Z.pow_add_r by (unfold ez, K; lia).
      replace (-52 - ez + (ez + K)) with (-52 + K) by lia.
      change (Z.pos 4503599627370496) with (2 ^ 52).
      rewrite <- Z.pow_add_r by (unfold K; lia). apply pow2_le. unfold K; lia. }
  destruct N1 as [N1 B1].
  rewrite (ltb_value (1 - d) 1 N1 eq_refl), value_one. apply Z.ltb_ge. exact B1.
Qed.

(** At zero and below the factor is the ceiling of the clamp. *)
Lemma spacing_factor_below_zero (d : float) :
  (d <=? 0)%float = true -> spacing_factor d = 1%float.
Proof.
  intros H. unfold spacing_factor, PyFloat.max, PyFloat.min.
  rewrite (one_minus_below d H). reflexivity.
Qed.

(** ** The monad *)

Lemma bind_Ok {A B} (m : M A) (k : A -> M B) (out out' : list string) (b : B) :
  bind m k out = (Ok b, out') ->
  exists a out1, m out = (Ok a, out1) /\ k a out1 = (Ok b, out').
Proof.
  unfold bind. destruct (m out) as [[a|e] out1]; intros H; [eauto | discriminate H].
Qed.

Lemma lift_Ok {A} (r : result A) (out out' : list string) (a : A) :
  lift r out = (Ok a, out') -> r = Ok a /\ out' = out.
Proof. unfold lift. intros H. inversion H. auto. Qed.

Lemma Image_crop_size (im im' : Image) (x0 y0 x1 y1 : Z) :
  Image_crop im (x0, y0, x1, y1) = Ok im' -> im_size im' = (x1 - x0, y1 - y0).
Proof.
  unfold Image_crop. destruct (x1 <? x0); [discriminate|].
  destruct (y1 <? y0); [discriminate|]. intros H. inversion H. reflexivity.
Qed.

Ltac bind_inv H :=
  repeat (apply bind_Ok in H; destruct H as (? & ? & ? & H)).

Section PatternSize.

Variable Image_fits : Z * Z -> bool.
Variables libm_cos libm_sin : float -> float.
Variable ImageColor_getcolor : string -> option RGBA.
Variable ImageFont_truetype : string -> Z -> result Font.
Variable ImageFont_load_default : Font.
Variable Image_rotate : Image -> float -> Image.
Variable blend : RGBA -> RGBA -> Z -> RGBA.

(** Claim C1. For a canvas of width [W > 0] and height [H > 0], whatever
    the text, font, colors, angle and density, a run of
    [create_photo_text_watermark] that returns normally returns a raster of
    size exactly [(W, H)]: the box cropped from the working canvas is
    [(left, top, left + W, top + H)]. *)
Theorem photo_watermark_size (W H : Z) (text : string) (font_path : option string)
    (font_size : Z) (font_color outline_color : string) (outline_width : Z)
    (angle density : float) (out out' : list string) (im : Image) :
  0 < W -> 0 < H ->
  create_photo_text_watermark Image_fits libm_cos libm_sin ImageColor_getcolor ImageFont_truetype
    ImageFont_load_default Image_rotate blend (W, H) text font_path font_size
    font_color outline_color outline_width angle density out = (Ok im, out') ->
  im_size im = (W, H).
Proof.
  intros HW HH E. unfold create_photo_text_watermark in E.
  apply bind_Ok in E. destruct E as ([font fs] & o1 & _ & E).
  apply bind_Ok in E. destruct E as (single_text & o2 & _ & E).
  apply bind_Ok in E. destruct E as (diagonal_length & o3 & _ & E).
  destruct (im_size single_text) as [text_width text_height].
  bind_inv E. apply lift_Ok in E. destruct E as [E _].
  apply Image_crop_size in E. rewrite E. f_equal; lia.
Qed.

End PatternSize.

(** ** Ranges and the offsets of the outline *)

Lemma in_range (lo hi x : Z) : In x (range lo hi) <-> lo <= x < hi.
Proof.
  unfold range. rewrite in_map_iff. split.
  - intros (k & <- & Hk). apply in_seq in Hk. lia.
  - intros Hx. exists (Z.to_nat (x - lo)). split; [lia|]. apply in_seq. lia.
Qed.

Lemma range_length (lo hi : Z) : Z.of_nat (List.length (range lo hi)) = Z.max 0 (hi - lo).
Proof. unfold range. rewrite length_map, length_seq. lia. Qed.

Lemma range_NoDup (lo hi : Z) : NoDup (range lo hi).
Proof.
  unfold range. apply Injective_map_NoDup; [|apply seq_NoDup].
  intros a b Hab. lia.
Qed.

Lemma list_prod_NoDup {A B} (l : list A) (l' : list B) :
  NoDup l -> NoDup l' -> NoDup (list_prod l l').
Proof.
  intros Hl Hl'. induction Hl as [|a l Ha Hl IH]; cbn [list_prod]; [constructor|].
  apply NoDup_app; [|exact IH|].
  - apply Injective_map_NoDup; [|exact Hl']. intros x y Hxy. congruence.
  - intros [x y] Hin Hin'. apply in_map_iff in Hin. destruct Hin as (b & Eb & _).
    inversion Eb; subst. apply in_prod_iff in Hin'. tauto.
Qed.

Lemma filter_all {A} (f : A -> bool) (l : list A) :
  (forall x, In x l -> f x = true) -> filter f l = l.
Proof.
  induction l as [|c l IH]; intros H; [reflexivity|]. cbn [filter].
  rewrite (H c (or_introl eq_refl)). f_equal. apply IH.
  intros x Hx. apply H. right. exact Hx.
Qed.

Lemma filter_all_but_one {A} (f : A -> bool) (a : A) (l : list A) :
  NoDup l -> In a l -> f a = false -> (forall x, In x l -> x <> a -> f x = true) ->
  S (List.length (filter f l)) = List.length l.
Proof.
  intros Hl. induction Hl as [|b l Hb Hl IH]; intros Hin Ha Hf; [destruct Hin|].
  cbn [filter List.length]. destruct Hin as [E|Hin].
  - subst b. rewrite Ha. f_equal. rewrite filter_all; [reflexivity|].
    intros x Hx. apply Hf; [right; exact Hx|]. intros ->. exact (Hb Hx).
  - assert (Nb : b <> a) by (intros ->; exact (Hb Hin)).
    rewrite (Hf b (or_introl eq_refl) Nb). cbn [List.length]. f_equal.
    apply IH; auto. intros x Hx. apply Hf. right. exact Hx.
Qed.

Lemma in_outline_offsets (w x y : Z) :
  In (x, y) (outline_offsets w)
  <-> - w <= x <= w /\ - w <= y <= w /\ ~ (x = 0 /\ y = 0).
Proof.
  unfold outline_offsets. rewrite filter_In, in_prod_iff, !in_range. cbn [fst snd].
  rewrite negb_true_iff, andb_false_iff, !Z.eqb_neq. lia.
Qed.

Lemma outline_offsets_NoDup (w : Z) : NoDup (outline_offsets w).
Proof. apply NoDup_filter, list_prod_NoDup; apply range_NoDup. Qed.

Lemma outline_offsets_length (w : Z) : 0 <= w ->
  Z.of_nat (List.length (outline_offsets w)) = (2 * w + 1) ^ 2 - 1.
Proof.
  intros Hw. unfold outline_offsets.
  set (sq := list_prod (range (- w) (w + 1)) (range (- w) (w + 1))).
  assert (L : Z.of_nat (List.length sq) = (2 * w + 1) ^ 2).
  { unfold sq. rewrite length_prod, Nat2Z.inj_mul, range_length. nia. }
  rewrite <- L.
  rewrite <- (filter_all_but_one (fun offset => negb ((fst offset =? 0) && (snd offset =? 0)))
               (0, 0) sq).
  - lia.
  - apply list_prod_NoDup; apply range_NoDup.
  - apply in_prod_iff. rewrite in_range. lia.
  - reflexivity.
  - intros [x y] _ N. cbn [fst snd]. apply negb_true_iff, andb_false_iff.
    rewrite !Z.eqb_neq. destruct (Z.eq_dec x 0); [right|left]; congruence.
Qed.

(** ** The calls of the tile renderer *)

Lemma inner_loop_filter {S} (step : Z * Z -> S -> S) (x : Z) (ys : list Z) (s : S) :
  for_each ys (fun y s => if (x =? 0) && (y =? 0) then s else step (x, y) s) s
  = fold_left (fun s p => step p s)
      (filter (fun offset => negb ((fst offset =? 0) && (snd offset =? 0)))
              (map (pair x) ys)) s.
Proof.
  unfold for_each. revert s. induction ys as [|y ys IH]; intros s; [reflexivity|].
  cbn [fold_left map filter fst snd]. rewrite IH.
  destruct ((x =? 0) && (y =? 0)); reflexivity.
Qed.

Lemma nested_loop_filter {S} (step : Z * Z -> S -> S) (xs ys : list Z) (s : S) :
  for_each xs (fun x s =>
    for_each ys (fun y s => if (x =? 0) && (y =? 0) then s else step (x, y) s) s) s
  = fold_left (fun s p => step p s)
      (filter (fun offset => negb ((fst offset =? 0) && (snd offset =? 0)))
              (list_prod xs ys)) s.
Proof.
  unfold for_each at 1. revert s. induction xs as [|x xs IH]; intros s; [reflexivity|].
  cbn [fold_left list_prod]. rewrite filter_app, fold_left_app, IH.
  rewrite inner_loop_filter. reflexivity.
Qed.

Lemma fold_draw_text (text : string) (font : Font) (color : RGBA) (padding : Z)
    (offsets : list (Z * Z)) (draw : Draw) :
  let draw' := fold_left (fun d p => Draw_text d (padding + fst p, padding + snd p)
                                               text font color) offsets draw in
  draw_calls draw' = draw_calls draw ++ map (outline_call text color padding) offsets
  /\ im_size (draw_im draw') = im_size (draw_im draw).
Proof.
  revert draw. induction offsets as [|p l IH]; intros draw; cbn [fold_left map].
  - rewrite app_nil_r. auto.
  - destruct (IH (Draw_text draw (padding + fst p, padding + snd p) text font color))
      as [E1 E2].
    cbn zeta in E1, E2 |- *. rewrite E1, E2. cbn [Draw_text draw_calls draw_im im_size].
    rewrite <- app_assoc. auto.
Qed.

Lemma draw_outline_calls (draw : Draw) (text : string) (font : Font) (color : RGBA)
    (outline_width padding : Z) :
  let draw' := draw_outline draw text font color outline_width padding in
  draw_calls draw'
  = draw_calls draw
    ++ map (outline_call text color padding)
           (if 0 <? outline_width then outline_offsets outline_width else [])
  /\ im_size (draw_im draw') = im_size (draw_im draw).
Proof.
  unfold draw_outline. destruct (0 <? outline_width).
  - rewrite (nested_loop_filter
               (fun p d => Draw_text d (padding + fst p, padding + snd p) text font color)).
    apply fold_draw_text.
  - cbn [map]. rewrite app_nil_r. auto.
Qed.

Lemma drawn_tile_calls (text : string) (font : Font) (fill outline : RGBA)
    (outline_width : Z) (text_img : Image) :
  let draw := drawn_tile text font fill outline outline_width text_img in
  im_size (draw_im draw) = im_size text_img
  /\ draw_calls draw
     = map (outline_call text outline (outline_width * 2))
           (if 0 <? outline_width then outline_offsets outline_width else [])
       ++ [{| call_xy := (outline_width * 2, outline_width * 2); call_text := text;
              call_fill := fill |}].
Proof.
  unfold drawn_tile.
  destruct (draw_outline_calls (ImageDraw_Draw text_img) text font outline outline_width
              (outline_width * 2)) as [E1 E2].
  cbn zeta in *. cbn [Draw_text draw_calls draw_im im_size]. rewrite E1, E2. auto.
Qed.

Lemma Image_new_allocated (fits : Z * Z -> bool) (size : Z * Z) (color : RGBA) :
  allocates fits size ->
  Image_new fits size color = Ok {| im_size := size; im_px := fun _ _ => color |}.
Proof.
  intros (Hw & Hh & Hf). unfold Image_new.
  replace (fst size <? 0) with false by (symmetry; apply Z.ltb_ge; lia).
  replace (snd size <? 0) with false by (symmetry; apply Z.ltb_ge; lia).
  replace (2 ^ 31 <=? fst size) with false by (symmetry; apply Z.leb_gt; lia).
  replace (2 ^ 31 <=? snd size) with false by (symmetry; apply Z.leb_gt; lia).
  cbn [orb]. rewrite Hf. reflexivity.
Qed.

Lemma Image_new_returned (fits : Z * Z -> bool) (size : Z * Z) (color : RGBA) (im : Image) :
  Image_new fits size color = Ok im ->
  allocates fits size /\ im = {| im_size := size; im_px := fun _ _ => color |}.
Proof.
  unfold Image_new, allocates.
  destruct (Z.ltb_spec (fst size) 0); [discriminate|].
  destruct (Z.ltb_spec (snd size) 0); [discriminate|]. cbn [orb].
  destruct (Z.leb_spec (2 ^ 31) (fst size)); [discriminate|].
  destruct (Z.leb_spec (2 ^ 31) (snd size)); [discriminate|]. cbn [orb].
  destruct (fits size); [|discriminate]. intros E. inversion E. repeat split; lia.
Qed.

Section Tile.

Variable Image_fits : Z * Z -> bool.
Variable ImageColor_getcolor : string -> option RGBA.

(** The run of the tile renderer when Pillow allocates the raster of one
    pixel and the tile: the color strings only enter through the colors
    they stand for, and through the warnings. *)
Lemma single_text_draw_run (text : string) (font : Font) (font_size : Z)
    (font_color outline_color : string) (outline_width : Z) (out : list string) :
  let size := box_size (font_getbbox font text) in
  allocates Image_fits (1, 1) ->
  allocates Image_fits (fst size + outline_width * 2 * 2, snd size + outline_width * 2 * 2) ->
  single_text_draw Image_fits ImageColor_getcolor text font font_size font_color
                   outline_color outline_width out
  = (Ok (drawn_tile text font (color_or ImageColor_getcolor font_color white)
                    (color_or ImageColor_getcolor outline_color black)
                    outline_width (blank_tile font text outline_width)),
     out ++ color_warnings ImageColor_getcolor font_color outline_color).
Proof.
  intros size H1 Ht. unfold single_text_draw, Draw_textbbox, blank_tile.
  subst size. destruct (font_getbbox font text) as [[[l t] r] b]. cbn [box_size fst snd] in *.
  cbn [fst snd].
  replace (r + 0 - (l + 0)) with (r - l) by lia.
  replace (b + 0 - (t + 0)) with (b - t) by lia.
  rewrite (Image_new_allocated _ _ _ H1), (Image_new_allocated _ _ _ Ht).
  unfold bind at 1. cbn [lift]. unfold bind at 1. cbn [lift].
  unfold color_warnings, color_or, font_color_warning, outline_color_warning,
    drawn_tile.
  destruct (ImageColor_getcolor font_color) as [c1|];
    destruct (ImageColor_getcolor outline_color) as [c2|];
    unfold bind, ret, print; cbn [app];
    try rewrite <- app_assoc; try rewrite app_nil_r; reflexivity.
Qed.

(** A run of the tile renderer returns only when Pillow has allocated the
    two rasters. *)
Lemma single_text_draw_allocates (text : string) (font : Font) (font_size : Z)
    (font_color outline_color : string) (outline_width : Z) (out out' : list string)
    (draw : Draw) :
  single_text_draw Image_fits ImageColor_getcolor text font font_size font_color
                   outline_color outline_width out = (Ok draw, out') ->
  let size := box_size (font_getbbox font text) in
  allocates Image_fits (1, 1)
  /\ allocates Image_fits (fst size + outline_width * 2 * 2,
                           snd size + outline_width * 2 * 2).
Proof.
  intros E size. unfold single_text_draw, Draw_textbbox in E.
  subst size. destruct (font_getbbox font text) as [[[l t] r] b]. cbn [box_size fst snd] in *.
  replace (r + 0 - (l + 0)) with (r - l) in E by lia.
  replace (b + 0 - (t + 0)) with (b - t) in E by lia.
  apply bind_Ok in E. destruct E as (temp_img & o1 & E1 & E).
  apply lift_Ok in E1. destruct E1 as [E1 _]. apply Image_new_returned in E1.
  apply bind_Ok in E. destruct E as (text_img & o2 & E2 & E).
  apply lift_Ok in E2. destruct E2 as [E2 _]. apply Image_new_returned in E2.
  split; [apply E1 | apply E2].
Qed.

Lemma single_text_run (text : string) (font : Font) (font_size : Z)
    (font_color outline_color : string) (outline_width : Z) (out : list string) :
  let size := box_size (font_getbbox font text) in
  allocates Image_fits (1, 1) ->
  allocates Image_fits (fst size + outline_width * 2 * 2, snd size + outline_width * 2 * 2) ->
  create_single_text_watermark Image_fits ImageColor_getcolor text font font_size font_color
                               outline_color outline_width out
  = (Ok (draw_im (drawn_tile text font (color_or ImageColor_getcolor font_color white)
                             (color_or ImageColor_getcolor outline_color black)
                             outline_width (blank_tile font text outline_width))),
     out ++ color_warnings ImageColor_getcolor font_color outline_color).
Proof.
  intros size Hw Hh. unfold create_single_text_watermark, bind.
  rewrite single_text_draw_run by assumption. reflexivity.
Qed.

End Tile.

Section TileClaims.

Variable Image_fits : Z * Z -> bool.
Variable ImageColor_getcolor : string -> option RGBA.

(** Claim C6. When Pillow allocates the tile (and the raster of one pixel
    the text is measured on), a fill color that does not
    parse does not abort the tile: the run returns a tile, the warning is
    among the lines printed, and the tile is the one of a run given a
    string of opaque white instead; the same holds of an outline color that
    does not parse, with opaque black. *)
Theorem invalid_color_falls_back (text : string) (font : Font) (font_size : Z)
    (font_color outline_color white_name black_name : string) (outline_width : Z)
    (out : list string) :
  let size := box_size (font_getbbox font text) in
  allocates Image_fits (1, 1) ->
  allocates Image_fits (fst size + outline_width * 2 * 2, snd size + outline_width * 2 * 2) ->
  ImageColor_getcolor white_name = Some white ->
  ImageColor_getcolor black_name = Some black ->
  (ImageColor_getcolor font_color = None ->
   exists tile out',
     create_single_text_watermark Image_fits ImageColor_getcolor text font font_size font_color
       outline_color outline_width out = (Ok tile, out')
     /\ In (font_color_warning font_color) out'
     /\ forall out2,
          fst (create_single_text_watermark Image_fits ImageColor_getcolor text font font_size
                 white_name outline_color outline_width out2) = Ok tile)
  /\ (ImageColor_getcolor outline_color = None ->
      exists tile out',
        create_single_text_watermark Image_fits ImageColor_getcolor text font font_size font_color
          outline_color outline_width out = (Ok tile, out')
        /\ In (outline_color_warning outline_color) out'
        /\ forall out2,
             fst (create_single_text_watermark Image_fits ImageColor_getcolor text font font_size
                    font_color black_name outline_width out2) = Ok tile).
Proof.
  intros size Hw Hh Ew Eb. split; intros Bad;
    eexists; eexists; (split; [apply single_text_run; assumption|]); split.
  - apply in_or_app. right. unfold color_warnings. rewrite Bad.
    apply in_or_app. left. left. reflexivity.
  - intros out2. rewrite single_text_run by assumption. cbn [fst].
    unfold color_or. rewrite Bad, Ew. reflexivity.
  - apply in_or_app. right. unfold color_warnings. rewrite Bad.
    apply in_or_app. right. left. reflexivity.
  - intros out2. rewrite single_text_run by assumption. cbn [fst].
    unfold color_or. rewrite Bad, Eb. reflexivity.
Qed.

(** Claim C8. The [text] calls of the tile renderer, in order: with an
    outline width of 0 the fill call alone, at [(padding, padding)]; with a
    width [w > 0] the outline calls, one at each offset of the square from
    [-w] to [w] but the center, without repeats, [(2w+1)^2 - 1] of them,
    and then the fill call. *)
Theorem outline_pass_draws (text : string) (font : Font) (font_size : Z)
    (font_color outline_color : string) (outline_width : Z) (out out' : list string)
    (draw : Draw) :
  single_text_draw Image_fits ImageColor_getcolor text font font_size font_color outline_color
                   outline_width out = (Ok draw, out') ->
  let padding := outline_width * 2 in
  let fill_call := {| call_xy := (padding, padding); call_text := text;
                      call_fill := color_or ImageColor_getcolor font_color white |} in
  let outline_calls :=
    map (outline_call text (color_or ImageColor_getcolor outline_color black) padding)
        (outline_offsets outline_width) in
  (outline_width = 0 -> draw_calls draw = [fill_call])
  /\ (0 < outline_width ->
      draw_calls draw = outline_calls ++ [fill_call]
      /\ Z.of_nat (List.length outline_calls) = (2 * outline_width + 1) ^ 2 - 1
      /\ NoDup (outline_offsets outline_width)
      /\ forall x y, In (x, y) (outline_offsets outline_width)
                     <-> - outline_width <= x <= outline_width
                         /\ - outline_width <= y <= outline_width
                         /\ ~ (x = 0 /\ y = 0)).
Proof.
  intros E padding fill_call outline_calls.
  set (size := box_size (font_getbbox font text)).
  destruct (single_text_draw_allocates _ _ _ _ _ _ _ _ _ _ _ E) as [H1 Ht]. fold size in Ht.
  rewrite single_text_draw_run in E by assumption. inversion E; subst draw out'. clear E.
  destruct (drawn_tile_calls text font (color_or ImageColor_getcolor font_color white)
              (color_or ImageColor_getcolor outline_color black) outline_width
              (blank_tile font text outline_width)) as [_ Ec].
  cbn zeta in Ec. split.
  - intros ->. rewrite Ec. reflexivity.
  - intros Hpos. rewrite Ec.
    replace (0 <? outline_width) with true by (symmetry; apply Z.ltb_lt; exact Hpos).
    split; [reflexivity|]. split; [|split].
    + unfold outline_calls. rewrite length_map. apply outline_offsets_length. lia.
    + apply outline_offsets_NoDup.
    + intros x y. apply in_outline_offsets.
Qed.

(** X9. The tile [create_single_text_watermark] returns has the measured
    size of the text plus four outline widths each way. *)
Lemma single_text_size (text : string) (font : Font) (font_size : Z)
    (font_color outline_color : string) (outline_width : Z) (out out' : list string)
    (tile : Image) :
  create_single_text_watermark Image_fits ImageColor_getcolor text font font_size font_color
    outline_color outline_width out = (Ok tile, out') ->
  let size := box_size (font_getbbox font text) in
  im_size tile = (fst size + 4 * outline_width, snd size + 4 * outline_width).
Proof.
  intros E size. unfold create_single_text_watermark in E.
  apply bind_Ok in E. destruct E as (draw & o1 & E & R). inversion R; subst tile out'.
  fold size in E.
  destruct (single_text_draw_allocates _ _ _ _ _ _ _ _ _ _ _ E) as [H1 Ht]. fold size in Ht.
  rewrite single_text_draw_run in E by assumption. inversion E; subst draw o1.
  destruct (drawn_tile_calls text font (color_or ImageColor_getcolor font_color white)
              (color_or ImageColor_getcolor outline_color black) outline_width
              (blank_tile font text outline_width)) as [Es _].
  cbn zeta in Es. rewrite Es. unfold blank_tile. cbn [im_size]. fold size. f_equal; lia.
Qed.

(** X8. When the measured box starts within an outline width of the
    drawing position, every draw of the tile stays within the tile. *)
Lemma draws_inside_when_anchored (text : string) (font : Font) (font_size : Z)
    (font_color outline_color : string) (outline_width : Z) (out out' : list string)
    (draw : Draw) (x0 y0 x1 y1 : Z) :
  single_text_draw Image_fits ImageColor_getcolor text font font_size font_color outline_color
                   outline_width out = (Ok draw, out') ->
  font_getbbox font text = (x0, y0, x1, y1) ->
  0 <= outline_width ->
  - outline_width <= x0 <= outline_width -> - outline_width <= y0 <= outline_width ->
  forall call, In call (draw_calls draw) ->
    box_inside (im_size (draw_im draw)) (call_box font call) = true.
Proof.
  intros E Eb Hw Hx Hy call Hin.
  set (size := box_size (font_getbbox font text)).
  destruct (single_text_draw_allocates _ _ _ _ _ _ _ _ _ _ _ E) as [H1 Ht]. fold size in Ht.
  rewrite single_text_draw_run in E by assumption. inversion E; subst draw out'. clear E.
  destruct (drawn_tile_calls text font (color_or ImageColor_getcolor font_color white)
              (color_or ImageColor_getcolor outline_color black) outline_width
              (blank_tile font text outline_width)) as [Es Ec].
  cbn zeta in Es, Ec. rewrite Es. rewrite Ec in Hin. unfold blank_tile. cbn [im_size].
  unfold size in *. rewrite Eb in *. cbn [box_size fst snd] in *.
  assert (Hcall : exists x y, - outline_width <= x <= outline_width
                              /\ - outline_width <= y <= outline_width
                              /\ call_xy call = (outline_width * 2 + x, outline_width * 2 + y)
                              /\ call_text call = text).
  { apply in_app_or in Hin. destruct Hin as [Hin|[<-|[]]].
    - apply in_map_iff in Hin. destruct Hin as ([x y] & <- & Hin).
      destruct (0 <? outline_width); [|destruct Hin].
      apply in_outline_offsets in Hin. exists x, y. cbn. tauto.
    - exists 0, 0. cbn. rewrite !Z.add_0_r. repeat split; try lia. }
  destruct Hcall as (x & y & Hx' & Hy' & Exy & Et).
  unfold call_box, Draw_textbbox. rewrite Exy, Et, Eb. cbn [fst snd box_inside].
  repeat (apply andb_true_intro; split); apply Z.leb_le; lia.
Qed.

End TileClaims.

(** ** Output-blind computations *)

Lemma blind_ret {A} (a : A) : output_blind (ret a).
Proof. exists (Ok a), []. intros out. unfold ret. rewrite app_nil_r. reflexivity. Qed.

Lemma blind_lift {A} (r : result A) : output_blind (lift r).
Proof. exists r, []. intros out. unfold lift. rewrite app_nil_r. reflexivity. Qed.

Lemma blind_print (line : string) : output_blind (print line).
Proof. exists (Ok tt), [line]. intros out. reflexivity. Qed.

Lemma blind_bind {A B} (m : M A) (k : A -> M B) :
  output_blind m -> (forall a, output_blind (k a)) -> output_blind (bind m k).
Proof.
  intros (r & w & Hm) Hk. destruct r as [a|e].
  - destruct (Hk a) as (r' & w' & Hk'). exists r', (w ++ w'). intros out.
    unfold bind. rewrite Hm, Hk', app_assoc. reflexivity.
  - exists (Raise e), w. intros out. unfold bind. rewrite Hm. reflexivity.
Qed.

Lemma blind_try_except {A} (body handler : M A) (E : exn) :
  output_blind body -> output_blind handler -> output_blind (try_except body E handler).
Proof.
  intros (r & w & Hb) (r' & w' & Hh). destruct r as [a|e].
  - exists (Ok a), w. intros out. unfold try_except. rewrite Hb. reflexivity.
  - destruct (exn_eqb e E) eqn:Ee.
    + exists r', (w ++ w'). intros out. unfold try_except. rewrite Hb, Ee, Hh, app_assoc.
      reflexivity.
    + exists (Raise e), w. intros out. unfold try_except. rewrite Hb, Ee. reflexivity.
Qed.

Lemma blind_for_eachM {A S} (l : list A) (body : A -> S -> M S) (s : S) :
  (forall i s, output_blind (body i s)) -> output_blind (for_eachM l body s).
Proof.
  intros Hb. revert s. induction l as [|i l IH]; intros s; cbn [for_eachM].
  - apply blind_ret.
  - apply blind_bind; [apply Hb | exact IH].
Qed.


Section PatternClaims.

Variable Image_fits : Z * Z -> bool.
Variables libm_cos libm_sin : float -> float.
Variable ImageColor_getcolor : string -> option RGBA.
Variable ImageFont_truetype : string -> Z -> result Font.
Variable ImageFont_load_default : Font.
Variable Image_rotate : Image -> float -> Image.
Variable blend : RGBA -> RGBA -> Z -> RGBA.

Lemma blind_first_font (names : list string) :
  output_blind (first_font ImageFont_truetype ImageFont_load_default names).
Proof.
  induction names as [|n names IH]; cbn [first_font].
  - apply blind_ret.
  - apply blind_try_except; [apply blind_lift | exact IH].
Qed.

Lemma blind_load_font (font_path : option string) (font_size : Z) :
  output_blind (load_font ImageFont_truetype ImageFont_load_default font_path font_size).
Proof.
  unfold load_font, get_system_font. apply blind_try_except.
  - destruct font_path as [[|c path]|];
      repeat first [ apply blind_bind; [|intros] | apply blind_first_font
                   | apply blind_lift | apply blind_ret
                   | match goal with |- output_blind (if ?b then _ else _) => destruct b end ].
  - repeat first [ apply blind_bind; [|intros] | apply blind_first_font
                 | apply blind_print | apply blind_ret ].
Qed.

Lemma blind_single_text (text : string) (font : Font) (font_size : Z)
    (font_color outline_color : string) (outline_width : Z) :
  output_blind (create_single_text_watermark Image_fits ImageColor_getcolor text font font_size
                  font_color outline_color outline_width).
Proof.
  unfold create_single_text_watermark, single_text_draw.
  destruct (Draw_textbbox (0, 0) text font) as [[[b0 b1] b2] b3].
  repeat first [ apply blind_bind; [|intros] | apply blind_lift | apply blind_ret
               | apply blind_print
               | match goal with |- output_blind (match ?o with Some _ => _ | None => _ end) =>
                   destruct o end ].
Qed.

Lemma blind_photo (base_size : Z * Z) (text : string) (font_path : option string)
    (font_size : Z) (font_color outline_color : string) (outline_width : Z)
    (angle density : float) :
  output_blind (create_photo_text_watermark Image_fits libm_cos libm_sin ImageColor_getcolor
                  ImageFont_truetype ImageFont_load_default Image_rotate blend base_size
                  text font_path font_size font_color outline_color outline_width
                  angle density).
Proof.
  unfold create_photo_text_watermark. destruct base_size as [base_width base_height].
  apply blind_bind; [apply blind_load_font|]. intros [font fs].
  apply blind_bind; [apply blind_single_text|]. intros single_text.
  apply blind_bind; [apply blind_lift|]. intros diagonal_length.
  destruct (im_size single_text) as [text_width text_height].
  repeat (apply blind_bind; [apply blind_lift|]; intros).
  apply blind_bind; [|intros; apply blind_lift].
  unfold stamp_lines. destruct (im_size (Image_rotate single_text angle)) as [rw rh].
  apply blind_for_eachM. intros i s.
  apply blind_bind; [apply blind_lift|]. intros. apply blind_ret.
Qed.

(** Claim C10. Two densities of [0.8, 1] give the same run: the same
    raster or exception, and the same lines printed. The bounds are the
    binary64 numbers nearest 0.8 and 1, so the densities are the floats
    that are at least 0.8 and at most 1. *)
Theorem density_saturates (base_size : Z * Z) (text : string)
    (font_path : option string) (font_size : Z) (font_color outline_color : string)
    (outline_width : Z) (angle d1 d2 : float) (out : list string) :
  (0.8 <=? d1)%float = true -> (d1 <=? 1)%float = true ->
  (0.8 <=? d2)%float = true -> (d2 <=? 1)%float = true ->
  create_photo_text_watermark Image_fits libm_cos libm_sin ImageColor_getcolor ImageFont_truetype
    ImageFont_load_default Image_rotate blend base_size text font_path font_size
    font_color outline_color outline_width angle d1 out
  = create_photo_text_watermark Image_fits libm_cos libm_sin ImageColor_getcolor ImageFont_truetype
      ImageFont_load_default Image_rotate blend base_size text font_path font_size
      font_color outline_color outline_width angle d2 out.
Proof.
  intros L1 U1 L2 U2. unfold create_photo_text_watermark.
  rewrite (spacing_factor_saturates d1 L1 U1), (spacing_factor_saturates d2 L2 U2).
  reflexivity.
Qed.

(** Claim C5, amended. A density is clamped, never rejected: a run is
    the run with the nearest density of [0, 1]; and a run on a canvas
    with a negative width or height never returns a raster. *)
Theorem density_clamped_canvas_unchecked (W H : Z) (text : string)
    (font_path : option string) (font_size : Z) (font_color outline_color : string)
    (outline_width : Z) (angle density : float) (out : list string) :
  create_photo_text_watermark Image_fits libm_cos libm_sin ImageColor_getcolor ImageFont_truetype
    ImageFont_load_default Image_rotate blend (W, H) text font_path font_size
    font_color outline_color outline_width angle density out
  = create_photo_text_watermark Image_fits libm_cos libm_sin ImageColor_getcolor ImageFont_truetype
      ImageFont_load_default Image_rotate blend (W, H) text font_path font_size
      font_color outline_color outline_width angle (clamped_density density) out
  /\ (W < 0 \/ H < 0 ->
      forall im out',
        create_photo_text_watermark Image_fits libm_cos libm_sin ImageColor_getcolor
          ImageFont_truetype ImageFont_load_default Image_rotate blend (W, H) text
          font_path font_size font_color outline_color outline_width angle density out
        <> (Ok im, out')).
Proof.
  split.
  - unfold clamped_density. destruct (1 <? density)%float eqn:Hi.
    + unfold create_photo_text_watermark.
      rewrite (spacing_factor_above_one density Hi).
      change (spacing_factor 1) with 0.2%float. reflexivity.
    + destruct (density <=? 0)%float eqn:Lo; [|reflexivity].
      unfold create_photo_text_watermark.
      rewrite (spacing_factor_below_zero density Lo).
      change (spacing_factor 0) with 1%float. reflexivity.
  - intros Hneg im out' E. unfold create_photo_text_watermark in E.
    apply bind_Ok in E. destruct E as ([font fs] & o1 & _ & E).
    apply bind_Ok in E. destruct E as (single_text & o2 & _ & E).
    apply bind_Ok in E. destruct E as (diagonal_length & o3 & _ & E).
    destruct (im_size single_text) as [text_width text_height].
    bind_inv E. apply lift_Ok in E. destruct E as [E _].
    unfold Image_crop in E.
    match type of E with
    | (if ?a <? ?b then _ else if ?c <? ?d then _ else _) = _ =>
        destruct (Z.ltb_spec a b); [discriminate E|];
        destruct (Z.ltb_spec c d); [discriminate E|]
    end. lia.
Qed.

End PatternClaims.

(** ** Two runs on the same inputs *)





Section Determinism.

(** Pillow's mix of two pixels is the same code in both runs. *)
Variable blend : RGBA -> RGBA -> Z -> RGBA.


End Determinism.

(** Claim C4, amended. For a tile with sides from [0] to below [2^1000]
    and densities [0.2 <= d1 < d2 <= 0.9], the spacing is computed at both
    densities, and the one at [d2] is not larger than the one at [d1]. *)
Theorem spacing_never_grows_with_density (text_width text_height : Z) (d1 d2 : float) :
  0 <= text_width -> 0 <= text_height -> Z.max text_width text_height < 2 ^ 1000 ->
  (0.2 <=? d1)%float = true -> (d1 <? d2)%float = true -> (d2 <=? 0.9)%float = true ->
  exists s1 s2,
    base_spacing text_width text_height (spacing_factor d1) = Ok s1
    /\ base_spacing text_width text_height (spacing_factor d2) = Ok s2
    /\ s2 <= s1.
Proof.
  intros Hw Hh HM L1 H12 U2.
  assert (N1 : is_nonneg d1 = true) by (apply (leb_nonneg 0.2); [reflexivity | exact L1]).
  pose proof (ltb_leb _ _ H12) as L12.
  assert (N2 : is_nonneg d2 = true) by (apply (leb_nonneg d1); assumption).
  assert (U2' : (d2 <=? 1)%float = true).
  { rewrite leb_value in U2 |- * by (auto; reflexivity). apply Z.leb_le in U2. apply Z.leb_le.
    assert (value 0.9 <= value 1) by (vm_compute; discriminate). lia. }
  destruct (spacing_factor_range d1) as [A1 B1].
  destruct (spacing_factor_range d2) as [A2 B2].
  rewrite !base_spacing_formula by (try assumption; lia).
  eexists. eexists. split; [reflexivity|]. split; [reflexivity|].
  apply spacing_units_mono; [lia|]. split; [apply value_nonneg|].
  apply spacing_factor_mono; assumption.
Qed.

(** X7. A tile with a side of two pixels or more (and below [2^1000])
    has a spacing of one pixel or more, whatever the density. *)
Lemma spacing_at_least_one (text_width text_height : Z) (density : float) :
  2 <= Z.max text_width text_height < 2 ^ 1000 ->
  exists spacing,
    base_spacing text_width text_height (spacing_factor density) = Ok spacing
    /\ 1 <= spacing.
Proof.
  intros HM. destruct (spacing_factor_range density) as [L U].
  destruct (spacing_factor_regular density) as (_ & _ & Hv).
  rewrite base_spacing_formula by (try assumption; lia).
  eexists. split; [reflexivity|]. apply spacing_units_ge_1; lia.
Qed.


(** ** Runs in the concrete world *)

#[local] Open Scope string_scope.

(** C1 on a 40 by 30 canvas: the run returns, and its raster is 40 by 30. *)
Lemma photo_watermark_size_witness :
  exists im out',
    Sample.photo_text (40, 30) "AB" (Some "block.ttf") 24 "#ffffff" "#000000" 1 0 0.5 []
    = (Ok im, out')
    /\ im_size im = (40, 30).
Proof.
  destruct (Sample.photo_text (40, 30) "AB" (Some "block.ttf") 24 "#ffffff" "#000000"
              1 0 0.5 []) as [[im|e] out'] eqn:E.
  - exists im, out'. split; [reflexivity|].
    apply (photo_watermark_size Sample.fits Sample.cos Sample.sin Sample.getcolor Sample.truetype
             Sample.load_default Sample.rotate Sample.blend 40 30 "AB" (Some "block.ttf")
             24 "#ffffff" "#000000" 1 0 0.5 [] out' im); [lia | lia | exact E].
  - exfalso.
    assert (R : outcome (Sample.photo_text (40, 30) "AB" (Some "block.ttf") 24 "#ffffff"
                           "#000000" 1 0 0.5 []) = Ok (40, 30)) by (vm_compute; reflexivity).
    unfold outcome in R. rewrite E in R. discriminate R.
Defined.


(** Claim C3 fails on the code: a tile of one pixel by one at density 0.8
    has the spacing [int(1 * 2.5 * 0.2) = 0]; the division of the diagonal
    by a spacing of 0 raises [ZeroDivisionError]; and so does the whole run
    on the empty text without outline, whose tile is 0 by 0. *)
Theorem unit_tile_spacing_is_zero :
  base_spacing 1 1 (spacing_factor 0.8) = Ok 0
  /\ (forall diagonal_length, diagonal_count diagonal_length 0 = Raise ZeroDivisionError)
  /\ outcome (Sample.photo_text (40, 30) "" (Some "block.ttf") 24 "#ffffff" "#000000"
                0 0 0.5 [])
     = Raise ZeroDivisionError.
Proof.
  split; [vm_compute; reflexivity|]. split; [intros; reflexivity|].
  vm_compute. reflexivity.
Qed.

(** Claim C4 fails: 0.85 < 0.9 are both in [0.2, 0.9] and give the same
    spacing, 6 pixels, for a 12 by 8 tile. *)
Lemma spacing_equal_at_two_densities :
  (0.2 <=? 0.85)%float = true /\ (0.85 <? 0.9)%float = true /\ (0.9 <=? 0.9)%float = true
  /\ base_spacing 12 8 (spacing_factor 0.85) = Ok 6
  /\ base_spacing 12 8 (spacing_factor 0.9) = Ok 6.
Proof. repeat split; vm_compute; reflexivity. Qed.

(** C4, amended, for a 12 by 8 tile at densities 0.3 and 0.6. *)
Lemma spacing_never_grows_witness :
  exists s1 s2,
    base_spacing 12 8 (spacing_factor 0.3) = Ok s1
    /\ base_spacing 12 8 (spacing_factor 0.6) = Ok s2
    /\ s2 <= s1.
Proof.
  apply (spacing_never_grows_with_density 12 8 0.3 0.6);
    try lia; try reflexivity.
Defined.

(** Claim C5 fails: 1.5 is a density outside (0, 1], and the run with it
    returns a 40 by 30 raster. *)
Lemma density_above_one_returns_a_raster :
  (1 <? 1.5)%float = true
  /\ outcome (Sample.photo_text (40, 30) "AB" (Some "block.ttf") 24 "#ffffff" "#000000"
                1 0 1.5 [])
     = Ok (40, 30).
Proof. split; vm_compute; reflexivity. Qed.

(** C5, amended, for density 1.5 on a canvas of width -3. *)
Lemma density_clamped_witness :
  Sample.photo_text (-3, 30) "AB" (Some "block.ttf") 24 "#ffffff" "#000000" 1 0 1.5 []
  = Sample.photo_text (-3, 30) "AB" (Some "block.ttf") 24 "#ffffff" "#000000" 1 0
                      (clamped_density 1.5) []
  /\ forall im out',
       Sample.photo_text (-3, 30) "AB" (Some "block.ttf") 24 "#ffffff" "#000000" 1 0 1.5 []
       <> (Ok im, out').
Proof.
  destruct (density_clamped_canvas_unchecked Sample.fits Sample.cos Sample.sin Sample.getcolor
              Sample.truetype Sample.load_default Sample.rotate Sample.blend (-3) 30 "AB"
              (Some "block.ttf") 24 "#ffffff" "#000000" 1 0 1.5 []) as [A B].
  split; [exact A|]. apply B. left. lia.
Defined.

(** C6 for a fill color that is no color: the tile is the one of
    "#ffffff". *)
Lemma invalid_color_witness :
  exists tile out',
    Sample.single_text "AB" (Sample.block_font 0 false) 24 "no such color" "#000000" 1 []
    = (Ok tile, out')
    /\ In (font_color_warning "no such color") out'
    /\ forall out2,
         fst (Sample.single_text "AB" (Sample.block_font 0 false) 24 "#ffffff" "#000000" 1
                out2) = Ok tile.
Proof.
  apply (invalid_color_falls_back Sample.fits Sample.getcolor "AB"
           (Sample.block_font 0 false) 24 "no such color" "#000000" "#ffffff" "#000000" 1 []);
    try reflexivity; repeat split; vm_compute; first [reflexivity | discriminate].
Defined.

(** C8 for an outline of 1 pixel: 8 outline calls. *)
Lemma outline_pass_witness :
  Z.of_nat (List.length (map (outline_call "AB" black 2) (outline_offsets 1))) = 8.
Proof.
  assert (E : exists draw out',
             single_text_draw Sample.fits Sample.getcolor "AB" (Sample.block_font 0 false) 24
                              "#ffffff" "#000000" 1 [] = (Ok draw, out')).
  { eexists. eexists. vm_compute. reflexivity. }
  destruct E as (draw & out' & E).
  destruct (outline_pass_draws Sample.fits Sample.getcolor "AB" (Sample.block_font 0 false) 24
              "#ffffff" "#000000" 1 [] out' draw E) as [_ H].
  destruct (H ltac:(lia)) as (_ & L & _). exact L.
Defined.

(** Claim C7 fails on the code: for a text whose box starts 5 rows below
    the drawing position (the font's box of "AB" is [(0, 5, 12, 13)]) and
    an outline of 1 pixel, the tile is 16 by 12 as the claim says, yet the
    box of every draw, the fill included, ends below row 12: no draw stays
    within the tile. *)
Theorem tall_font_draws_cross_the_tile :
  exists draw out',
    single_text_draw Sample.fits Sample.getcolor "AB" (Sample.block_font 5 false) 24
                     "#ffffff" "#000000" 1 [] = (Ok draw, out')
    /\ font_getbbox (Sample.block_font 5 false) "AB" = (0, 5, 12, 13)
    /\ im_size (draw_im draw) = (16, 12)
    /\ map (call_box (Sample.block_font 5 false)) (draw_calls draw)
       = [ (1, 6, 13, 14); (1, 7, 13, 15); (1, 8, 13, 16);
           (2, 6, 14, 14);                 (2, 8, 14, 16);
           (3, 6, 15, 14); (3, 7, 15, 15); (3, 8, 15, 16);
           (2, 7, 14, 15) ]
    /\ forallb (fun call => negb (box_inside (im_size (draw_im draw))
                                             (call_box (Sample.block_font 5 false) call)))
               (draw_calls draw) = true.
Proof.
  eexists. eexists.
  split; [apply single_text_draw_run; repeat split; vm_compute;
          first [reflexivity | discriminate]|].
  split; [reflexivity|]. split; [reflexivity|]. split; vm_compute; reflexivity.
Qed.

(** C10 for the densities 0.8 and 1. *)
Lemma density_saturates_witness :
  Sample.photo_text (40, 30) "AB" (Some "block.ttf") 24 "#ffffff" "#000000" 1 0 0.8 []
  = Sample.photo_text (40, 30) "AB" (Some "block.ttf") 24 "#ffffff" "#000000" 1 0 1 [].
Proof.
  apply (density_saturates Sample.fits Sample.cos Sample.sin Sample.getcolor Sample.truetype
           Sample.load_default Sample.rotate Sample.blend (40, 30) "AB" (Some "block.ttf")
           24 "#ffffff" "#000000" 1 0 0.8 1 []); reflexivity.
Defined.

(** The stamps of a 40 by 30 canvas with a 16 by 12 tile turned by 20
    degrees, at densities 0.41 and 0.43: the spacing goes from 23 to 22
    pixels, the lattice vectors from (21, 7), (-7, 21) to (20, 7),
    (-7, 20), the loops run over the same 8 lines of 4 positions, and the
    stamps that pass the bounds test go from 12 down to 11. Pillow's
    bounding size of the turned tile is 20 by 18; the count drops for
    every size within a pixel of it. *)
Lemma stamps_drop_at_a_higher_density (blank rotated_text : Image) (rw rh : Z) :
  im_size rotated_text = (rw, rh) -> 19 <= rw <= 21 -> 17 <= rh <= 19 ->
  let angle_rad := PyFloat.radians 20 in
  let steps spacing :=
    (lattice_step Sample.cos angle_rad spacing, lattice_step Sample.sin angle_rad spacing,
     lattice_step Sample.cos (angle_rad + PyFloat.pi / 2)%float spacing,
     lattice_step Sample.sin (angle_rad + PyFloat.pi / 2)%float spacing) in
  let stamps spacing dx dy perp_dx perp_dy lines :=
    pastes_of (stamp_lines Sample.blend (Canvas_of blank) rotated_text (40 + 2 * 16)
                 (30 + 2 * 12) 50 spacing dx dy perp_dx perp_dy lines []) in
  base_spacing 16 12 (spacing_factor 0.41) = Ok 23
  /\ base_spacing 16 12 (spacing_factor 0.43) = Ok 22
  /\ PyFloat.sqrt_int (40 ^ 2 + 30 ^ 2) = Ok 50%float
  /\ steps 23 = (Ok 21, Ok 7, Ok (-7), Ok 21)
  /\ steps 22 = (Ok 20, Ok 7, Ok (-7), Ok 20)
  /\ diagonal_count 50 23 = Ok 4 /\ diagonal_count 50 22 = Ok 4
  /\ (exists at_23 at_22,
        stamps 23 21 7 (-7) 21 4 = Ok at_23 /\ stamps 22 20 7 (-7) 20 4 = Ok at_22
        /\ List.length at_23 = 12%nat /\ List.length at_22 = 11%nat).
Proof.
  intros Es Hw Hh angle_rad steps stamps.
  do 7 (split; [vm_compute; reflexivity|]).
  subst stamps. clear steps angle_rad.
  destruct rotated_text as [size px]. cbn [im_size] in Es. subst size.
  assert (Cw : rw = 19 \/ rw = 20 \/ rw = 21) by lia.
  assert (Ch : rh = 17 \/ rh = 18 \/ rh = 19) by lia.
  destruct Cw as [->|[->| ->]]; destruct Ch as [->|[->| ->]];
    eexists; eexists; (split; [vm_compute; reflexivity|]);
    (split; [vm_compute; reflexivity|]); split; reflexivity.
Qed.

(** * The rest of the script *)

#[local] Close Scope string_scope.

(** ** The system font *)

Section SystemFont.

Variable Image_fits : Z * Z -> bool.
Variables libm_cos libm_sin : float -> float.
Variable ImageColor_getcolor : string -> option RGBA.
Variable ImageFont_truetype : string -> Z -> result Font.
Variable ImageFont_load_default : Font.
Variable Image_rotate : Image -> float -> Image.
Variable blend : RGBA -> RGBA -> Z -> RGBA.

Lemma first_font_skips (pre rest : list string) (out : list string) :
  (forall n, In n pre -> ImageFont_truetype n 12 = Raise IOError) ->
  first_font ImageFont_truetype ImageFont_load_default (pre ++ rest) out
  = first_font ImageFont_truetype ImageFont_load_default rest out.
Proof.
  induction pre as [|n pre IH]; intros H; [reflexivity|].
  cbn [app first_font]. unfold try_except at 1, lift.
  rewrite (H n (or_introl eq_refl)). cbn [exn_eqb].
  apply IH. intros m Hm. apply H. right. exact Hm.
Qed.

(** X1. [get_system_font] returns the font of the first name of its
    list that loads: when every name before it raises [IOError] at size
    12 and it loads, that font is returned and nothing is printed. *)
Theorem system_font_is_first_that_loads (pre post : list string) (name : string)
    (font : Font) (out : list string) :
  font_options = (pre ++ name :: post)%list ->
  (forall n, In n pre -> ImageFont_truetype n 12 = Raise IOError) ->
  ImageFont_truetype name 12 = Ok font ->
  get_system_font ImageFont_truetype ImageFont_load_default out = (Ok font, out).
Proof.
  intros Hs Hpre Hname. unfold get_system_font. rewrite Hs.
  rewrite first_font_skips by exact Hpre.
  cbn [first_font]. unfold try_except, lift. rewrite Hname. reflexivity.
Qed.

Lemma first_font_never_IOError (names : list string) (out : list string) :
  exists r, first_font ImageFont_truetype ImageFont_load_default names out = (r, out)
            /\ r <> Raise IOError
            /\ ((forall n, In n names -> ImageFont_truetype n 12 = Raise IOError) ->
                r = Ok ImageFont_load_default).
Proof.
  induction names as [|n names IH]; cbn [first_font].
  - exists (Ok ImageFont_load_default).
    split; [reflexivity|]. split; [discriminate|]. reflexivity.
  - unfold try_except, lift. destruct (ImageFont_truetype n 12) as [f|e] eqn:E.
    + exists (Ok f). split; [reflexivity|]. split; [discriminate|].
      intros H. rewrite (H n (or_introl eq_refl)) in E. discriminate E.
    + destruct (exn_eqb e IOError) eqn:Ee.
      * destruct IH as (r & E1 & E2 & E3). exists r.
        split; [exact E1|]. split; [exact E2|].
        intros H. apply E3. intros m Hm. apply H. right. exact Hm.
      * exists (Raise e). split; [reflexivity|]. split.
        -- intros H. inversion H. subst e. discriminate Ee.
        -- intros H. rewrite (H n (or_introl eq_refl)) in E. inversion E. subst e.
           discriminate Ee.
Qed.

(** X2. [get_system_font] never raises [IOError] and prints nothing; when
    no name of the list loads, it returns Pillow's default font. *)
Theorem system_font_never_an_IOError (out : list string) :
  exists r, get_system_font ImageFont_truetype ImageFont_load_default out = (r, out)
            /\ r <> Raise IOError
            /\ ((forall n, In n font_options -> ImageFont_truetype n 12 = Raise IOError) ->
                r = Ok ImageFont_load_default).
Proof. unfold get_system_font. apply first_font_never_IOError. Qed.


Lemma first_font_result (names : list string) :
  exists r, (forall out, first_font ImageFont_truetype ImageFont_load_default names out
                         = (r, out))
            /\ r <> Raise IOError.
Proof.
  induction names as [|n names IH]; cbn [first_font].
  - exists (Ok ImageFont_load_default). split; [reflexivity | discriminate].
  - unfold try_except, lift. destruct (ImageFont_truetype n 12) as [f|e] eqn:E.
    + exists (Ok f). split; [reflexivity | discriminate].
    + destruct (exn_eqb e IOError) eqn:Ee.
      * exact IH.
      * exists (Raise e). split; [reflexivity|].
        intros H. inversion H. subst e. discriminate Ee.
Qed.

Lemma scaled_font_size_ok (font_size : Z) : 0 <= font_size < 2 ^ 1000 ->
  exists n, (scaled <~ PyFloat.int_mul font_size 1.5 ;; PyFloat.to_int scaled) = Ok n.
Proof.
  intros H. destruct (of_int_ok font_size H) as (f & Ef & Nf & Rf & _ & Bf).
  unfold PyFloat.int_mul. rewrite Ef. cbn [rbind].
  pose proof (mul_rounds f 1.5 Nf eq_refl Rf eq_refl) as R.
  assert (B : rounded (value f * value 1.5 / 2 ^ K) <= 2 ^ (1001 + K)).
  { rewrite <- (rounded_pow2 1001) by lia. apply rounded_mono.
    pose proof K_pow_pos as HK. pose proof (value_nonneg f) as H0.
    assert (E15 : value 1.5 = 3 * 2 ^ (K - 1)) by (vm_compute; reflexivity).
    split; [apply Z.div_pos; [rewrite E15; pose proof (pow2_pos (K - 1) ltac:(unfold K; lia)); nia | lia]|].
    apply Z.div_le_upper_bound; [lia|].
    rewrite E15.
    replace (2 ^ (1001 + K)) with (2 * 2 ^ (1000 + K))
      by (rewrite <- Z.pow_succ_r by (unfold K; lia); f_equal; lia).
    replace (2 ^ K) with (2 * 2 ^ (K - 1))
      by (rewrite <- Z.pow_succ_r by (unfold K; lia); f_equal; lia).
    pose proof (pow2_pos (K - 1) ltac:(unfold K; lia)).
    pose proof (pow2_pos (1000 + K) ltac:(unfold K; lia)). nia. }
  assert (C : 2 ^ (1001 + K) < 2 ^ (1024 + K)) by (apply pow2_lt; unfold K; lia).
  pose proof (rounds_to_real _ _ R ltac:(lia)) as F.
  eexists. apply to_int_value; [exact (rt_nonneg _ _ R) | exact F].
Qed.

(** What [load_font] gives when no font path is given: the system font,
    whatever the font size. *)
Lemma load_font_without_path (font_size : Z) : 0 <= font_size < 2 ^ 1000 ->
  exists r : result Font,
    (forall out, get_system_font ImageFont_truetype ImageFont_load_default out = (r, out))
    /\ exists size,
         forall out,
           load_font ImageFont_truetype ImageFont_load_default None font_size out
           = (match r with Ok font => Ok (font, size) | Raise e => Raise e end, out).
Proof.
  intros H. destruct (first_font_result font_options) as (r & Er & Nr).
  exists r. split; [exact Er|].
  destruct (scaled_font_size_ok font_size H) as (n & En).
  destruct r as [font|e].
  - exists (if font_is_bitmap font then n else font_size). intros out.
    unfold load_font, try_except, bind, get_system_font. rewrite Er.
    destruct (font_is_bitmap font).
    + unfold lift. rewrite En. reflexivity.
    + reflexivity.
  - exists 0. intros out.
    unfold load_font, try_except, bind, get_system_font. rewrite Er.
    destruct e; try reflexivity. contradiction Nr. reflexivity.
Qed.

(** X3. Without a font path the font size has no effect: two runs of
    [create_photo_text_watermark] that differ in the font size only, both
    from 0 to below [2^1000], are the same run. The system font is loaded
    at size 12, and the tile renderer never reads the size. *)
Theorem font_size_unused_without_font_path (base_size : Z * Z) (text : string)
    (size1 size2 : Z) (font_color outline_color : string) (outline_width : Z)
    (angle density : float) (out : list string) :
  0 <= size1 < 2 ^ 1000 -> 0 <= size2 < 2 ^ 1000 ->
  create_photo_text_watermark Image_fits libm_cos libm_sin ImageColor_getcolor ImageFont_truetype
    ImageFont_load_default Image_rotate blend base_size text None size1
    font_color outline_color outline_width angle density out
  = create_photo_text_watermark Image_fits libm_cos libm_sin ImageColor_getcolor ImageFont_truetype
      ImageFont_load_default Image_rotate blend base_size text None size2
      font_color outline_color outline_width angle density out.
Proof.
  intros H1 H2.
  destruct (load_font_without_path size1 H1) as (r1 & Er1 & s1 & L1).
  destruct (load_font_without_path size2 H2) as (r2 & Er2 & s2 & L2).
  assert (r1 = r2).
  { pose proof (Er1 out) as A. rewrite (Er2 out) in A. inversion A. reflexivity. }
  subst r2.
  unfold create_photo_text_watermark. destruct base_size as [base_width base_height].
  unfold bind at 1. rewrite L1. symmetry. unfold bind at 1. rewrite L2.
  destruct r1 as [font|e]; reflexivity.
Qed.

(** X4. A font path that cannot be opened ([IOError]) is not fatal: the
    run prints the warning and goes on as the run without a font path
    does. *)
Theorem unloadable_font_uses_system_font (base_size : Z * Z) (text path : string)
    (font_size : Z) (font_color outline_color : string) (outline_width : Z)
    (angle density : float) (out : list string) :
  path <> EmptyString -> 0 <= font_size < 2 ^ 1000 ->
  ImageFont_truetype path font_size = Raise IOError ->
  create_photo_text_watermark Image_fits libm_cos libm_sin ImageColor_getcolor ImageFont_truetype
    ImageFont_load_default Image_rotate blend base_size text (Some path) font_size
    font_color outline_color outline_width angle density out
  = create_photo_text_watermark Image_fits libm_cos libm_sin ImageColor_getcolor ImageFont_truetype
      ImageFont_load_default Image_rotate blend base_size text None font_size
      font_color outline_color outline_width angle density
      (out ++ [("Warning: Could not load font from " ++ path ++ ". Using system font.")%string]).
Proof.
  intros Hp Hs Hio.
  destruct (load_font_without_path font_size Hs) as (r & Er & s & L).
  unfold create_photo_text_watermark. destruct base_size as [base_width base_height].
  unfold bind at 1. symmetry. unfold bind at 1. rewrite L. symmetry.
  assert (E : load_font ImageFont_truetype ImageFont_load_default (Some path) font_size out
              = (match r with Ok font => Ok (font, font_size) | Raise e => Raise e end,
                 out ++ [("Warning: Could not load font from " ++ path
                          ++ ". Using system font.")%string])).
  { unfold load_font. destruct path as [|c path]; [contradiction Hp; reflexivity|].
    unfold try_except. unfold bind at 1. unfold lift at 1. rewrite Hio. cbn [exn_eqb].
    unfold bind at 1. unfold print. unfold bind. rewrite Er.
    destruct r; reflexivity. }
  rewrite E. destruct r as [font|e]; reflexivity.
Qed.

End SystemFont.

(** ** The position of an image watermark *)



Lemma eqb_in_cases (position : string) (names : list string) :
  In position names \/ forallb (fun n => negb (String.eqb position n)) names = true.
Proof.
  induction names as [|n names IH]; [right; reflexivity|].
  cbn [forallb In]. destruct (String.eqb_spec position n) as [->|N].
  - left. left. reflexivity.
  - destruct IH as [H|H]; [left; right; exact H | right; exact H].
Qed.

(** X10. For each of the four corner names, when the watermark and twice
    the padding fit in the base image, [calculate_position] places the
    watermark at least [DEFAULT_PADDING] pixels from every edge. *)
Theorem corner_position_keeps_the_padding (base_image watermark : Image)
    (position : string) :
  In position corner_names ->
  fst (im_size watermark) + 2 * DEFAULT_PADDING <= fst (im_size base_image) ->
  snd (im_size watermark) + 2 * DEFAULT_PADDING <= snd (im_size base_image) ->
  exists x y,
    calculate_position base_image watermark position = Some (x, y)
    /\ DEFAULT_PADDING <= x
    /\ x + fst (im_size watermark) <= fst (im_size base_image) - DEFAULT_PADDING
    /\ DEFAULT_PADDING <= y
    /\ y + snd (im_size watermark) <= snd (im_size base_image) - DEFAULT_PADDING.
Proof.
  intros Hin Hw Hh. unfold calculate_position.
  destruct (im_size base_image) as [bw bh], (im_size watermark) as [ww wh].
  cbn [fst snd] in *. unfold DEFAULT_PADDING in *.
  cbn [corner_names In] in Hin.
  destruct Hin as [<-|[<-|[<-|[<-|[]]]]]; cbn [String.eqb Ascii.eqb Bool.eqb];
    eexists; eexists; (split; [reflexivity|]); lia.
Qed.

(** X11. For "center" the margins left and right of the watermark, and
    above and below it, differ by at most one pixel, the larger one to
    the right and below; this holds for a watermark larger than the base
    image as well. *)
Theorem center_position_is_centered (base_image watermark : Image) :
  exists x y,
    calculate_position base_image watermark "center" = Some (x, y)
    /\ 0 <= (fst (im_size base_image) - fst (im_size watermark) - x) - x <= 1
    /\ 0 <= (snd (im_size base_image) - snd (im_size watermark) - y) - y <= 1.
Proof.
  unfold calculate_position.
  destruct (im_size base_image) as [bw bh], (im_size watermark) as [ww wh].
  cbn [fst snd String.eqb Ascii.eqb Bool.eqb].
  eexists; eexists; (split; [reflexivity|]).
  pose proof (Z.div_mod (bw - ww) 2 ltac:(lia)).
  pose proof (Z.mod_pos_bound (bw - ww) 2 ltac:(lia)).
  pose proof (Z.div_mod (bh - wh) 2 ltac:(lia)).
  pose proof (Z.mod_pos_bound (bh - wh) 2 ltac:(lia)).
  lia.
Qed.

Section OverlayFacts.

Variable Image_blend_px : Z -> Z -> float -> Z.
Variable blend : RGBA -> RGBA -> Z -> RGBA.

(** X12. A position name that is none of the five gives no position
    ([None]), and [apply_watermark] then pastes the watermark at the
    upper left corner, with no padding. *)
Theorem unknown_position_pastes_at_the_origin (base_image watermark : Image)
    (position : string) :
  ~ In position position_names ->
  calculate_position base_image watermark position = None
  /\ apply_watermark blend base_image watermark
       (calculate_position base_image watermark position)
     = apply_watermark blend base_image watermark (Some (0, 0)).
Proof.
  intros Hn.
  assert (E : calculate_position base_image watermark position = None).
  { unfold calculate_position.
    destruct (im_size base_image) as [bw bh], (im_size watermark) as [ww wh].
    destruct (eqb_in_cases position position_names) as [H|H]; [contradiction|].
    cbn [position_names corner_names app forallb] in H.
    repeat (apply andb_prop in H; destruct H as [?H H]).
    repeat match goal with
           | H : negb (String.eqb position ?n) = true |- _ =>
               apply negb_true_iff in H; rewrite H
           end.
    reflexivity. }
  split; [exact E|]. rewrite E. reflexivity.
Qed.

Lemma size_eqb_refl (size : Z * Z) : size_eqb size size = true.
Proof. unfold size_eqb. rewrite !Z.eqb_refl. reflexivity. Qed.

(** What [set_opacity] returns for a raster that exists. *)
Lemma set_opacity_run (watermark : Image) (opacity : float) :
  0 <= fst (im_size watermark) -> 0 <= snd (im_size watermark) ->
  set_opacity Image_blend_px watermark opacity
  = Ok {| im_size := im_size watermark;
          im_px := fun x y =>
            let '(r, g, b, _) := im_px watermark x y in
            (r, g, b, Image_blend_px 0 (alpha (im_px watermark x y)) opacity) |}.
Proof.
  intros Hw Hh. unfold set_opacity, Image_new_L.
  replace (fst (im_size watermark) <? 0) with false by (symmetry; apply Z.ltb_ge; lia).
  replace (snd (im_size watermark) <? 0) with false by (symmetry; apply Z.ltb_ge; lia).
  cbn [orb rbind]. unfold Image_blend. cbn [band_size Image_alpha_band].
  rewrite size_eqb_refl. cbn [rbind]. unfold Image_putalpha. cbn [band_size band_px].
  rewrite size_eqb_refl. reflexivity.
Qed.

(** X13. Where the watermark is fully transparent the watermarked image
    keeps the pixel of the base image, whatever the opacity and the
    position: [set_opacity] leaves an alpha of 0 at 0 and [apply_watermark]
    pastes through the alpha band. It holds for a Pillow whose blend of 0
    and 0 is 0 and whose paste under a mask of 0 keeps the pixel. *)
Theorem transparent_watermark_pixels_keep_the_photo (base_image watermark : Image)
    (opacity : float) (position : option (Z * Z)) (u v : Z) :
  (forall a, Image_blend_px 0 0 a = 0) ->
  (forall under over, blend under over 0 = under) ->
  0 <= fst (im_size watermark) -> 0 <= snd (im_size watermark) ->
  let xy := match position with Some xy => xy | None => (0, 0) end in
  alpha (im_px watermark (u - fst xy) (v - snd xy)) = 0 ->
  exists faded,
    set_opacity Image_blend_px watermark opacity = Ok faded
    /\ im_size (apply_watermark blend base_image faded position) = im_size base_image
    /\ im_px (apply_watermark blend base_image faded position) u v = im_px base_image u v.
Proof.
  intros Hpx Hblend Hw Hh xy Ha.
  rewrite set_opacity_run by assumption. eexists. split; [reflexivity|].
  split; [reflexivity|].
  unfold apply_watermark, Image_paste. cbn [im_px im_size]. fold xy.
  destruct (inside (im_size watermark) (u - fst xy) (v - snd xy)); [|reflexivity].
  destruct (im_px watermark (u - fst xy) (v - snd xy)) as [[[r g] b] a].
  cbn [alpha] in Ha |- *. subst a. rewrite Hpx. apply Hblend.
Qed.

End OverlayFacts.

(** ** Binary64: rounding what is known up to a location *)


Lemma loc_code_range (l : location) : 0 <= loc_code l <= 3.
Proof. destruct l as [|[]]; cbn; lia. Qed.

Lemma shr_record_quarters (m : Z) (l : location) : 0 < m ->
  shr_1 (shr_1 (Build_shr_record (4 * m + loc_code l) false false)) = shr_record_of_loc m l.
Proof. destruct m as [|p|p]; try lia. intros _. destruct l as [|[]]; reflexivity. Qed.

Lemma digits_quarters (m c : Z) : 0 < m -> 0 <= c <= 3 -> digits (4 * m + c) = digits m + 2.
Proof.
  intros Hm Hc. pose proof (digits_bounds m Hm) as [L U]. pose proof (digits_pos m Hm).
  apply digits_unique; [|lia].
  replace (digits m + 2 - 1) with (Z.succ (Z.succ (digits m - 1))) by lia.
  replace (digits m + 2) with (Z.succ (Z.succ (digits m))) by lia.
  rewrite !Z.pow_succ_r by lia. lia.
Qed.

Lemma binary_round_aux_loc (s : bool) (m e : Z) (l : location) :
  0 < m -> e <= fexp prec emax (digits m + e) ->
  binary_round_aux prec emax s m e l
  = binary_round_aux prec emax s (4 * m + loc_code l) (e - 2) loc_Exact.
Proof.
  intros Hm Hn. pose proof (loc_code_range l) as Hc.
  unfold binary_round_aux, shr_fexp. cbn [shr_record_of_loc].
  change (Zdigits2 m) with (digits m).
  change (Zdigits2 (4 * m + loc_code l)) with (digits (4 * m + loc_code l)).
  rewrite (digits_quarters m (loc_code l) Hm Hc).
  replace (digits m + 2 + (e - 2)) with (digits m + e) by lia.
  set (fe := fexp prec emax (digits m + e)) in *.
  assert (E : shr (shr_record_of_loc m l) e (fe - e)
              = shr (Build_shr_record (4 * m + loc_code l) false false) (e - 2)
                    (fe - (e - 2))).
  { unfold shr. destruct (fe - e) as [|p|p] eqn:En; [| |lia].
    - replace (fe - (e - 2)) with 2 by lia.
      cbn [iter_pos]. rewrite shr_record_quarters by exact Hm. f_equal. lia.
    - destruct (fe - (e - 2)) as [|p'|p'] eqn:En'; [lia| |lia].
      rewrite !iter_pos_nat.
      replace (Pos.to_nat p') with (S (S (Pos.to_nat p))) by lia.
      rewrite !Nat.iter_succ_r, shr_record_quarters by exact Hm. f_equal. lia. }
  rewrite E. reflexivity.
Qed.


Lemma round_loc_Fabs (s : bool) (m e : Z) (l : location) :
  0 < m -> e <= fexp prec emax (digits m + e) -> - K <= e - 2 ->
  let r := binary_round_aux prec emax s m e l in
  valid_binary r = true /\ signed s r /\ Fabs r = rounded (loc_floor m e l).
Proof.
  intros Hm Hn He r. subst r. pose proof (loc_code_range l) as Hc.
  rewrite binary_round_aux_loc by assumption.
  assert (Hn' : e - 2 <= fexp prec emax (digits (4 * m + loc_code l) + (e - 2))).
  { rewrite digits_quarters by assumption.
    replace (digits m + 2 + (e - 2)) with (digits m + e) by lia. lia. }
  rewrite binary_round_aux_exact by (try lia; exact Hn').
  split; [apply round_pos_valid; [lia | exact Hn']|].
  split; [apply round_pos_signed|].
  apply round_pos_Fabs; [lia | exact Hn' | lia].
Qed.

Lemma grid_unit (e : Z) : - K <= e - 2 -> 2 ^ (e + K) = 4 * 2 ^ (e - 2 + K).
Proof.
  intros He. replace (e + K) with (Z.succ (Z.succ (e - 2 + K))) by lia.
  rewrite !Z.pow_succ_r by lia. lia.
Qed.

(** No binary64 number lies strictly between two neighbours of a grid
    that is at least as fine as the numbers are at that magnitude. *)
Lemma representable_on_grid (A m e : Z) :
  0 < m -> e <= fexp prec emax (digits m + e) -> - K <= e ->
  rounded A = A -> m * 2 ^ (e + K) < A -> A < (m + 1) * 2 ^ (e + K) -> False.
Proof.
  intros Hm Hn He HA Lo Hi.
  pose proof (pow2_pos (e + K) ltac:(lia)) as Hg.
  pose proof (digits_bounds m Hm) as [Lm Um]. pose proof (digits_pos m Hm) as Hd.
  assert (DA : digits A = digits m + e + K).
  { apply digits_unique; [|nia].
    replace (digits m + e + K - 1) with ((digits m - 1) + (e + K)) by lia.
    replace (digits m + e + K) with (digits m + (e + K)) by lia.
    rewrite (Z.pow_add_r 2 (digits m - 1) (e + K)), (Z.pow_add_r 2 (digits m) (e + K)) by lia.
    assert (2 ^ (digits m - 1) * 2 ^ (e + K) <= m * 2 ^ (e + K))
      by (apply Z.mul_le_mono_nonneg_r; lia).
    assert ((m + 1) * 2 ^ (e + K) <= 2 ^ digits m * 2 ^ (e + K))
      by (apply Z.mul_le_mono_nonneg_r; lia).
    lia. }
  unfold rounded in HA. rewrite DA in HA.
  replace (digits m + e + K - K) with (digits m + e) in HA by lia.
  set (fe := fexp prec emax (digits m + e)) in *.
  assert (EG : 2 ^ (fe + K) = 2 ^ (fe - e) * 2 ^ (e + K)).
  { rewrite <- Z.pow_add_r by lia. f_equal. lia. }
  pose proof (pow2_pos (fe - e) ltac:(lia)) as Hf.
  destruct (Z.min_spec (rne A (2 ^ (fe + K)) * 2 ^ (fe + K)) (2 ^ (1024 + K)))
    as [[_ E]|[_ E]]; rewrite E in HA.
  - rewrite EG in HA.
    set (k := rne A (2 ^ (fe - e) * 2 ^ (e + K)) * 2 ^ (fe - e)) in *.
    assert (A = k * 2 ^ (e + K)) by (unfold k; lia).
    assert (m < k) by nia. assert (k < m + 1) by nia. lia.
  - destruct (Z_le_gt_dec e 1024) as [Le|Le].
    + assert (EC : 2 ^ (1024 + K) = 2 ^ (1024 - e) * 2 ^ (e + K)).
      { rewrite <- Z.pow_add_r by lia. f_equal. lia. }
      pose proof (pow2_pos (1024 - e) ltac:(lia)).
      set (k := 2 ^ (1024 - e)) in *.
      assert (A = k * 2 ^ (e + K)) by lia.
      assert (m < k) by nia. assert (k < m + 1) by nia. lia.
    + assert (2 ^ (1024 + K) < 2 ^ (e + K)) by (apply pow2_lt; unfold K; lia).
      nia.
Qed.

Lemma loc_floor_bounds (m e : Z) (l : location) : 0 < m -> - K <= e - 2 ->
  m * 2 ^ (e + K) <= loc_floor m e l < (m + 1) * 2 ^ (e + K)
  /\ (l = loc_Exact -> loc_floor m e l = m * 2 ^ (e + K)).
Proof.
  intros Hm He. unfold loc_floor. pose proof (loc_code_range l).
  rewrite grid_unit by exact He.
  pose proof (pow2_pos (e - 2 + K) ltac:(lia)).
  split; [nia|]. intros ->. cbn [loc_code]. lia.
Qed.

Lemma round_loc_lower (s : bool) (m e : Z) (l : location) (A : Z) :
  0 < m -> e <= fexp prec emax (digits m + e) -> - K <= e - 2 ->
  rounded A = A -> 0 <= A -> A < (m + 1) * 2 ^ (e + K) ->
  A <= Fabs (binary_round_aux prec emax s m e l).
Proof.
  intros Hm Hn He HA A0 Hi.
  destruct (round_loc_Fabs s m e l Hm Hn He) as (_ & _ & ->).
  destruct (loc_floor_bounds m e l Hm He) as [[B1 B2] _].
  destruct (Z_le_gt_dec A (m * 2 ^ (e + K))) as [C|C].
  - rewrite <- HA. apply rounded_mono. lia.
  - exfalso. apply (representable_on_grid A m e); try assumption; lia.
Qed.

Lemma round_loc_upper (s : bool) (m e : Z) (l : location) (B : Z) :
  0 < m -> e <= fexp prec emax (digits m + e) -> - K <= e - 2 ->
  rounded B = B ->
  m * 2 ^ (e + K) < B \/ (l = loc_Exact /\ m * 2 ^ (e + K) <= B) ->
  Fabs (binary_round_aux prec emax s m e l) <= B.
Proof.
  intros Hm Hn He HB C.
  destruct (round_loc_Fabs s m e l Hm Hn He) as (_ & _ & ->).
  destruct (loc_floor_bounds m e l Hm He) as [[B1 B2] B3].
  pose proof (pow2_pos (e + K) ltac:(lia)) as Hg.
  rewrite <- HB. apply rounded_mono. split; [nia|].
  destruct C as [C|[El C]]; [|rewrite (B3 El); exact C].
  destruct (Z_lt_le_dec B ((m + 1) * 2 ^ (e + K))) as [D|D]; [|lia].
  exfalso. apply (representable_on_grid B m e); try assumption; lia.
Qed.

(** ** Binary64: the quotient *)

Lemma digits_ge (q k : Z) : 0 <= k -> 2 ^ k <= q -> k + 1 <= digits q.
Proof.
  intros Hk H. pose proof (pow2_pos k Hk).
  pose proof (digits_bounds q ltac:(lia)) as [_ U]. pose proof (digits_pos q ltac:(lia)).
  destruct (Z_lt_le_dec k (digits q)) as [L|L]; [lia|].
  pose proof (pow2_le (digits q) k ltac:(lia)). lia.
Qed.

Lemma fexp_mono (a b : Z) : a <= b -> fexp prec emax a <= fexp prec emax b.
Proof. rewrite !fexp_eq. lia. Qed.

Lemma new_location_exact (nb : Z) : new_location nb 0 = loc_Exact.
Proof. unfold new_location, new_location_even, new_location_odd. destruct (Z.even nb); reflexivity. Qed.

Lemma SFdiv_core_spec (mx my : positive) (ex ey : Z) :
  -1073 <= digits (Z.pos mx) + ex - (digits (Z.pos my) + ey) ->
  exists q e' l,
    SFdiv_core_binary prec emax (Z.pos mx) ex (Z.pos my) ey = (q, e', l)
    /\ 0 < q /\ e' <= fexp prec emax (digits q + e')
    /\ e' <= ex - ey /\ Z.min (-1074) (ex - ey) <= e'
    /\ q * Z.pos my <= Z.pos mx * 2 ^ (ex - ey - e') < (q + 1) * Z.pos my
    /\ (q * Z.pos my = Z.pos mx * 2 ^ (ex - ey - e') -> l = loc_Exact).
Proof.
  intros HD. unfold SFdiv_core_binary.
  change (Zdigits2 (Z.pos mx)) with (digits (Z.pos mx)).
  change (Zdigits2 (Z.pos my)) with (digits (Z.pos my)).
  set (d1 := digits (Z.pos mx)) in *. set (d2 := digits (Z.pos my)) in *.
  set (D := d1 + ex - (d2 + ey)) in *.
  set (e' := Z.min (fexp prec emax D) (ex - ey)).
  assert (He1 : e' <= fexp prec emax D) by (unfold e'; lia).
  assert (He2 : e' <= ex - ey) by (unfold e'; lia).
  assert (He3 : Z.min (-1074) (ex - ey) <= e') by (unfold e'; rewrite fexp_eq; lia).
  clearbody e'.
  set (s := ex - ey - e') in *.
  assert (Hs : 0 <= s) by (unfold s; lia).
  set (m' := match s with Z.pos _ => Z.shiftl (Z.pos mx) s | 0 => Z.pos mx | Z.neg _ => 0 end).
  assert (Em : m' = Z.pos mx * 2 ^ s).
  { unfold m'. destruct s as [|p|p] eqn:Es; [cbn; lia | | lia].
    rewrite Z.shiftl_mul_pow2 by lia. reflexivity. }
  clearbody m'.
  pose proof (Z_div_mod m' (Z.pos my) ltac:(lia)) as Hdm.
  destruct (Z.div_eucl m' (Z.pos my)) as [q r]. destruct Hdm as [Eq Hr].
  pose proof (digits_bounds (Z.pos mx) ltac:(lia)) as [L1 U1]. fold d1 in L1, U1.
  pose proof (digits_bounds (Z.pos my) ltac:(lia)) as [L2 U2]. fold d2 in L2, U2.
  pose proof (digits_pos (Z.pos mx) ltac:(lia)) as P1. fold d1 in P1.
  pose proof (digits_pos (Z.pos my) ltac:(lia)) as P2. fold d2 in P2.
  pose proof (pow2_pos s Hs) as H2s.
  (* the quotient has at least d1 + s - d2 digits *)
  assert (Hk : 0 <= d1 - 1 + s - d2).
  { rewrite fexp_eq in He1. unfold s, D in *. lia. }
  assert (Hq : 2 ^ (d1 - 1 + s - d2) <= q).
  { assert (A1 : 2 ^ (d1 - 1 + s - d2) * 2 ^ d2 <= m').
    { rewrite <- Z.pow_add_r by lia. replace (d1 - 1 + s - d2 + d2) with ((d1 - 1) + s) by lia.
      rewrite Z.pow_add_r by lia. rewrite Em. apply Z.mul_le_mono_nonneg_r; lia. }
    pose proof (pow2_pos (d1 - 1 + s - d2) Hk).
    destruct (Z_lt_le_dec q (2 ^ (d1 - 1 + s - d2))) as [C|C]; [|exact C].
    exfalso.
    assert ((q + 1) * Z.pos my <= 2 ^ (d1 - 1 + s - d2) * Z.pos my)
      by (apply Z.mul_le_mono_nonneg_r; lia).
    assert (2 ^ (d1 - 1 + s - d2) * Z.pos my < 2 ^ (d1 - 1 + s - d2) * 2 ^ d2)
      by (apply Z.mul_lt_mono_pos_l; lia).
    lia. }
  pose proof (pow2_pos (d1 - 1 + s - d2) Hk) as Hp.
  exists q, e', (new_location (Z.pos my) r). fold s.
  split; [reflexivity|]. split; [lia|]. split.
  { eapply Z.le_trans; [exact He1|]. apply fexp_mono.
    pose proof (digits_ge q (d1 - 1 + s - d2) Hk Hq). unfold D, s in *. lia. }
  split; [exact He2|]. split; [exact He3|]. split; [rewrite <- Em; lia|].
  intros E. rewrite <- Em in E. assert (r = 0) by lia. subst r. apply new_location_exact.
Qed.

(** The quotient of two finite numbers, by the binary64 numbers around
    the exact quotient. *)
Lemma SFdiv_spec (sx sy : bool) (mx my : positive) (ex ey : Z) :
  -1074 <= ex -> -1074 <= ey <= 971 ->
  -1073 <= digits (Z.pos mx) + ex - (digits (Z.pos my) + ey) ->
  let X := Z.pos mx * 2 ^ (ex + K) in
  let Y := Z.pos my * 2 ^ (ey + K) in
  let r := SFdiv prec emax (S754_finite sx mx ex) (S754_finite sy my ey) in
  valid_binary r = true /\ signed (xorb sx sy) r
  /\ (forall A, rounded A = A -> 0 <= A -> A * Y <= X * 2 ^ K -> A <= Fabs r)
  /\ (forall B, rounded B = B -> X * 2 ^ K <= B * Y -> Fabs r <= B).
Proof.
  intros Hex Hey HD X Y r. subst r. cbn [SFdiv].
  destruct (SFdiv_core_spec mx my ex ey HD) as (q & e' & l & -> & Hq & Hn & He2 & He3 & Hb & Hl).
  assert (He : - K <= e' - 2) by (unfold K; lia).
  destruct (round_loc_Fabs (xorb sx sy) q e' l Hq Hn He) as (V & S & _).
  split; [exact V|]. split; [exact S|].
  set (s := ex - ey - e') in *.
  pose proof (pow2_pos (e' + K) ltac:(lia)) as Hg.
  pose proof (pow2_pos (ey + K) ltac:(unfold K; lia)) as Ht.
  pose proof (pow2_pos s ltac:(unfold s; lia)) as H2s.
  assert (EX : X * 2 ^ K = (Z.pos mx * 2 ^ s) * 2 ^ (e' + K) * 2 ^ (ey + K)).
  { unfold X. rewrite <- !Z.mul_assoc. f_equal.
    rewrite <- !Z.pow_add_r by (unfold s, K in *; lia). f_equal. unfold s. lia. }
  set (m' := Z.pos mx * 2 ^ s) in *. set (g := 2 ^ (e' + K)) in *.
  set (t := 2 ^ (ey + K)) in *. unfold Y. fold t.
  split.
  - intros A HA A0 H. apply round_loc_lower; try assumption.
    fold g. rewrite EX in H.
    assert (H1 : A * Z.pos my <= m' * g).
    { apply Z.mul_le_mono_pos_r with t; [exact Ht|].
      replace (A * Z.pos my * t) with (A * (Z.pos my * t)) by ring. exact H. }
    assert (H2 : m' * g < (q + 1) * Z.pos my * g) by (apply Z.mul_lt_mono_pos_r; lia).
    apply Z.mul_lt_mono_pos_r with (Z.pos my); [lia|].
    replace ((q + 1) * g * Z.pos my) with ((q + 1) * Z.pos my * g) by ring. lia.
  - intros B HB H. apply round_loc_upper; try assumption.
    fold g. rewrite EX in H.
    assert (H1 : m' * g <= B * Z.pos my).
    { apply Z.mul_le_mono_pos_r with t; [exact Ht|].
      replace (B * Z.pos my * t) with (B * (Z.pos my * t)) by ring. exact H. }
    destruct (Z.eq_dec (q * Z.pos my) m') as [E|N].
    + right. split; [apply Hl; exact E|].
      apply Z.mul_le_mono_pos_r with (Z.pos my); [lia|].
      replace (q * g * Z.pos my) with (q * Z.pos my * g) by ring. rewrite E. exact H1.
    + left. assert (H2 : q * Z.pos my * g < m' * g) by (apply Z.mul_lt_mono_pos_r; lia).
      apply Z.mul_lt_mono_pos_r with (Z.pos my); [lia|].
      replace (q * g * Z.pos my) with (q * Z.pos my * g) by ring. lia.
Qed.

(** ** Binary64: the square root *)



(** ** Floats: integer part, product, quotient and square root of any sign *)


Lemma signed_real (s : bool) (r : spec_float) :
  signed s r -> Fabs r < 2 ^ (1024 + K) -> finite_or_zero r = true.
Proof.
  intros [->|[(m & e & ->)| ->]] H; try reflexivity. cbn [Fabs] in H. lia.
Qed.

Lemma signed_nonneg (r : spec_float) : signed false r -> nonneg r = true.
Proof. intros [->|[(m & e & ->)| ->]]; reflexivity. Qed.






(** A number below the cap that is not negative is a number. *)
Lemma nonneg_le_real (x : float) (k : Z) :
  is_nonneg x = true -> k <= 1023 -> value x <= 2 ^ (k + K) -> is_real x = true.
Proof.
  intros N Hk H. apply value_lt_real; [exact N|].
  destruct (Z_lt_le_dec (k + K) 0) as [C|C].
  - rewrite Z.pow_neg_r in H by exact C. pose proof value_cap_pos. lia.
  - pose proof (pow2_lt (k + K) (1024 + K) ltac:(lia)). lia.
Qed.

(** ** The steps of the tiling that divide, multiply and take roots *)














Section PatternReturns.

Variable Image_fits : Z * Z -> bool.
Variables libm_cos libm_sin : float -> float.
Variable ImageColor_getcolor : string -> option RGBA.
Variable ImageFont_truetype : string -> Z -> result Font.
Variable ImageFont_load_default : Font.
Variable Image_rotate : Image -> float -> Image.
Variable blend : RGBA -> RGBA -> Z -> RGBA.




End PatternReturns.

(** ** A text that measures as nothing *)



Section EmptyText.

Variable Image_fits : Z * Z -> bool.
Variables libm_cos libm_sin : float -> float.
Variable ImageColor_getcolor : string -> option RGBA.
Variable ImageFont_truetype : string -> Z -> result Font.
Variable ImageFont_load_default : Font.
Variable Image_rotate : Image -> float -> Image.
Variable blend : RGBA -> RGBA -> Z -> RGBA.



End EmptyText.

(** An integer below [2^53], scaled by a power of two, is a binary64
    number. *)
Lemma rounded_int_scaled (n j : Z) : 0 <= n < 2 ^ 53 -> -1000 <= j <= 900 ->
  rounded (n * 2 ^ (j + K)) = n * 2 ^ (j + K).
Proof.
  intros Hn Hj. destruct (Z.eq_dec n 0) as [->|N0]; [rewrite Z.mul_0_l; apply rounded_zero|].
  assert (Hp : 0 < n) by lia.
  pose proof (digits_pos n Hp) as Hd. pose proof (digits_le n 53 ltac:(lia) ltac:(lia)) as Hd53.
  unfold rounded. rewrite digits_mul_pow by (unfold K; lia).
  replace (digits n + (j + K) - K) with (digits n + j) by lia.
  set (fe := fexp prec emax (digits n + j)).
  assert (Hfe : -1074 <= fe <= j) by (unfold fe; rewrite fexp_eq; lia).
  replace (n * 2 ^ (j + K)) with (n * 2 ^ (j - fe) * 2 ^ (fe + K))
    by (rewrite <- Z.mul_assoc, <- Z.pow_add_r by (unfold K; lia); do 2 f_equal; lia).
  rewrite rne_exact by (apply pow2_pos; unfold K; lia).
  apply Z.min_l.
  rewrite <- Z.mul_assoc, <- Z.pow_add_r by (unfold K; lia).
  replace (j - fe + (fe + K)) with (j + K) by lia.
  apply Z.le_trans with (2 ^ 53 * 2 ^ (j + K)).
  - apply Z.mul_le_mono_nonneg_r; [apply Z.lt_le_incl, pow2_pos; unfold K; lia | lia].
  - rewrite <- Z.pow_add_r by (unfold K; lia). apply pow2_le. unfold K; lia.
Qed.

Lemma of_int_exact (n : Z) : 0 <= n < 2 ^ 53 ->
  exists f, PyFloat.of_int n = Ok f /\ is_nonneg f = true /\ is_real f = true
            /\ value f = n * 2 ^ K.
Proof.
  intros Hn. pose proof (pow2_le 53 1000 ltac:(lia)).
  destruct (of_int_ok n ltac:(lia)) as (f & E & N & R & V & _).
  exists f. repeat split; try assumption.
  rewrite V. pose proof (rounded_int_scaled n 0 Hn ltac:(lia)) as E0.
  rewrite Z.add_0_l in E0. exact E0.
Qed.



Section PatternBlank.

Variable Image_fits : Z * Z -> bool.
Variables libm_cos libm_sin : float -> float.
Variable ImageColor_getcolor : string -> option RGBA.
Variable ImageFont_truetype : string -> Z -> result Font.
Variable ImageFont_load_default : Font.
Variable Image_rotate : Image -> float -> Image.
Variable blend : RGBA -> RGBA -> Z -> RGBA.


End PatternBlank.

(** ** The quotient of two integers *)

Lemma int_truediv_zero (b : Z) : 0 < b -> PyFloat.int_truediv 0 b = Ok 0%float.
Proof.
  intros Hb. unfold PyFloat.int_truediv.
  replace (b =? 0) with false by (symmetry; apply Z.eqb_neq; lia).
  destruct b as [|p|p]; try lia. reflexivity.
Qed.

Lemma int_truediv_bounds (a b : Z) :
  0 < a < 2 ^ 1000 -> 0 < b < 2 ^ 1000 ->
  exists r, PyFloat.int_truediv a b = Ok r /\ is_nonneg r = true /\ is_real r = true
    /\ (forall A, rounded A = A -> 0 <= A -> A * b <= a * 2 ^ K -> A <= value r)
    /\ (forall B, rounded B = B -> a * 2 ^ K <= B * b -> value r <= B).
Proof.
  intros Ha Hb. unfold PyFloat.int_truediv.
  replace (b =? 0) with false by (symmetry; apply Z.eqb_neq; lia).
  destruct a as [|mx|mx]; try lia. destruct b as [|my|my]; try lia.
  cbn [PyFloat.exact_int]. pose proof K_pow_pos as HK.
  assert (HD : -1073 <= digits (Z.pos mx) + 0 - (digits (Z.pos my) + 0)).
  { pose proof (digits_pos (Z.pos mx) ltac:(lia)).
    pose proof (digits_le (Z.pos my) 1000 ltac:(lia) ltac:(lia)). lia. }
  destruct (SFdiv_spec false false mx my 0 0 ltac:(lia) ltac:(lia) HD) as (V & S & Lo & Hi).
  rewrite !Z.add_0_l in Lo, Hi.
  set (r := SFdiv prec emax (S754_finite false mx 0) (S754_finite false my 0)) in *.
  assert (B : Fabs r <= 2 ^ (1000 + K)).
  { apply Hi; [apply rounded_pow2; lia|].
    rewrite Z.pow_add_r by (unfold K; lia).
    pose proof (pow2_pos 1000 ltac:(lia)).
    replace (2 ^ 1000 * 2 ^ K * (Z.pos my * 2 ^ K))
      with (2 ^ 1000 * Z.pos my * 2 ^ K * 2 ^ K) by ring.
    apply Z.mul_le_mono_nonneg_r; [lia|]. apply Z.mul_le_mono_nonneg_r; [lia|]. nia. }
  pose proof (pow2_lt (1000 + K) (1024 + K) ltac:(unfold K; lia)) as C.
  pose proof (signed_real false r S ltac:(lia)) as F.
  exists (SF2Prim r).
  unfold is_nonneg, is_real, value. rewrite (Prim2SF_SF2Prim r V).
  split; [destruct r; try reflexivity; discriminate F|].
  split; [apply signed_nonneg; exact S|]. split; [exact F|].
  split.
  - intros A HA A0 H. apply Lo; try assumption.
    replace (A * (Z.pos my * 2 ^ K)) with (A * Z.pos my * 2 ^ K) by ring.
    apply Z.mul_le_mono_nonneg_r; [lia | exact H].
  - intros B' HB H. apply Hi; [exact HB|].
    replace (B' * (Z.pos my * 2 ^ K)) with (B' * Z.pos my * 2 ^ K) by ring.
    apply Z.mul_le_mono_nonneg_r; [lia | exact H].
Qed.

(** The integer part of the product of an [int] below [2^53] and a float
    that is not negative. *)
Lemma int_times_float (n : Z) (x : float) (k : Z) :
  0 <= n < 2 ^ 53 -> is_nonneg x = true -> is_real x = true ->
  0 <= k <= 900 -> value x <= 2 ^ (k + K) ->
  exists f,
    (scaled <~ PyFloat.int_mul n x ;; PyFloat.to_int scaled)
    = Ok (rounded (n * value x) / 2 ^ K)
    /\ PyFloat.int_mul n x = Ok f.
Proof.
  intros Hn N R Hk B. pose proof K_pow_pos as HK.
  destruct (of_int_exact n Hn) as (f & E & Nf & Rf & Vf).
  unfold PyFloat.int_mul. rewrite E. cbn [rbind].
  pose proof (mul_rounds f x Nf N Rf R) as [_ Nm Vm].
  rewrite Vf in Vm. fold (value x) in Vm.
  replace (n * 2 ^ K * value x) with (n * value x * 2 ^ K) in Vm by ring.
  rewrite Z.div_mul in Vm by lia.
  assert (U : rounded (n * value x) <= 2 ^ (53 + k + K)).
  { rewrite <- (rounded_pow2 (53 + k)) by lia. apply rounded_mono.
    pose proof (value_nonneg x).
    split; [nia|]. replace (53 + k + K) with (53 + (k + K)) by lia.
    rewrite Z.pow_add_r by (unfold K; lia). apply Z.mul_le_mono_nonneg; lia. }
  exists (f * x)%float. split; [|reflexivity].
  rewrite to_int_value; [unfold value; rewrite Vm; reflexivity | exact Nm |].
  apply (nonneg_le_real _ (53 + k)); [exact Nm | lia |].
  unfold value. rewrite Vm. exact U.
Qed.

(** ** The aspect ratio of the resized watermark *)

(** An integer up to [2^53], scaled by a power of two, is a binary64
    number. *)
Lemma rounded_scaled (k j : Z) : 0 <= k <= 2 ^ 53 -> -900 <= j <= 900 ->
  rounded (k * 2 ^ (j + K)) = k * 2 ^ (j + K).
Proof.
  intros Hk Hj. destruct (Z.eq_dec k (2 ^ 53)) as [->|N].
  - rewrite <- Z.pow_add_r by (unfold K; lia).
    replace (53 + (j + K)) with (53 + j + K) by lia. apply rounded_pow2. lia.
  - apply rounded_int_scaled; lia.
Qed.

(** Two binary64 numbers around the quotient of two sizes, one step of
    [2^(K - s)] apart. *)
Lemma ratio_bracket (a b : Z) : 1 <= a < 2 ^ 17 -> 1 <= b < 2 ^ 17 ->
  exists s A,
    35 + digits b <= s <= 68
    /\ 0 <= A /\ rounded A = A /\ rounded (A + 2 ^ (K - s)) = A + 2 ^ (K - s)
    /\ A * b <= a * 2 ^ K < (A + 2 ^ (K - s)) * b.
Proof.
  intros Ha Hb.
  pose proof (digits_bounds a ltac:(lia)) as [La Ua].
  pose proof (digits_bounds b ltac:(lia)) as [Lb Ub].
  pose proof (digits_pos a ltac:(lia)) as Pa. pose proof (digits_pos b ltac:(lia)) as Pb.
  pose proof (digits_le a 17 ltac:(lia) ltac:(lia)) as Da.
  pose proof (digits_le b 17 ltac:(lia) ltac:(lia)) as Db.
  set (s := 52 + digits b - digits a).
  assert (Hs : 35 + digits b <= s <= 68) by (unfold s; lia).
  set (k := a * 2 ^ s / b).
  pose proof (pow2_pos s ltac:(lia)) as H2s.
  pose proof (pow2_pos (K - s) ltac:(unfold K; lia)) as HG.
  assert (EK : 2 ^ K = 2 ^ s * 2 ^ (K - s)).
  { rewrite <- Z.pow_add_r by (unfold K; lia). f_equal. lia. }
  pose proof (Z.div_mod (a * 2 ^ s) b ltac:(lia)) as Hdm. fold k in Hdm.
  pose proof (Z.mod_pos_bound (a * 2 ^ s) b ltac:(lia)) as Hm.
  assert (Hk0 : 0 <= k) by (apply Z.div_pos; nia).
  assert (Hk : k < 2 ^ 53).
  { apply Z.div_lt_upper_bound; [lia|].
    assert (a * 2 ^ s < 2 ^ digits a * 2 ^ s) by (apply Z.mul_lt_mono_pos_r; lia).
    assert (E : 2 ^ digits a * 2 ^ s = 2 ^ (digits b - 1) * 2 ^ 53).
    { rewrite <- !Z.pow_add_r by lia. f_equal. unfold s. lia. }
    assert (2 ^ (digits b - 1) * 2 ^ 53 <= b * 2 ^ 53)
      by (apply Z.mul_le_mono_nonneg_r; lia).
    lia. }
  exists s, (k * 2 ^ (K - s)).
  replace (K - s) with (- s + K) in * by lia.
  split; [exact Hs|]. split; [nia|].
  split; [apply rounded_scaled; lia|]. split.
  - replace (k * 2 ^ (- s + K) + 2 ^ (- s + K)) with ((k + 1) * 2 ^ (- s + K)) by ring.
    apply rounded_scaled; lia.
  - rewrite EK. set (G := 2 ^ (- s + K)) in *. split.
    + replace (k * G * b) with (b * k * G) by ring.
      replace (a * (2 ^ s * G)) with (a * 2 ^ s * G) by ring.
      apply Z.mul_le_mono_nonneg_r; lia.
    + replace ((k * G + G) * b) with ((b * k + b) * G) by ring.
      replace (a * (2 ^ s * G)) with (a * 2 ^ s * G) by ring.
      apply Z.mul_lt_mono_pos_r; lia.
Qed.

(** The integer part of a height times a rounded ratio of widths: the
    exact proportion rounded down, or one less. *)
Lemma proportional_height (a b h r : Z) :
  1 <= a < 2 ^ 17 -> 1 <= b < 2 ^ 17 -> 0 <= h < 2 ^ 17 ->
  (forall A, rounded A = A -> 0 <= A -> A * b <= a * 2 ^ K -> A <= r) ->
  (forall B, rounded B = B -> a * 2 ^ K <= B * b -> r <= B) ->
  h * a / b - 1 <= rounded (h * r) / 2 ^ K <= h * a / b
  /\ ((h * a) mod b <> 0 -> rounded (h * r) / 2 ^ K = h * a / b).
Proof.
  intros Ha Hb Hh Lo Hi. pose proof K_pow_pos as HK.
  destruct (ratio_bracket a b Ha Hb) as (s & A & Hs & A0 & RA & RB & Bl & Bu).
  pose proof (Lo A RA A0 Bl) as LA.
  pose proof (Hi _ RB ltac:(lia)) as UB.
  set (G := 2 ^ (K - s)) in *.
  pose proof (pow2_pos (K - s) ltac:(unfold K; lia)) as HG. fold G in HG.
  set (T := 2 ^ (K - 17)).
  pose proof (pow2_pos (K - 17) ltac:(unfold K; lia)) as HT. fold T in HT.
  assert (EKT : 2 ^ K = 2 ^ 17 * T).
  { unfold T. rewrite <- Z.pow_add_r by (unfold K; lia). reflexivity. }
  pose proof (digits_bounds b ltac:(lia)) as [_ Ub].
  pose proof (digits_pos b ltac:(lia)) as Pb.
  (* the step of the bracket is small against the sizes *)
  assert (F : h * b * G <= T).
  { assert (E : T = 2 ^ (s - 17) * G).
    { unfold T, G. rewrite <- Z.pow_add_r by (unfold K; lia). f_equal. lia. }
    rewrite E. apply Z.mul_le_mono_nonneg_r; [lia|].
    apply Z.le_trans with (2 ^ 17 * 2 ^ digits b).
    - apply Z.mul_le_mono_nonneg; lia.
    - rewrite <- Z.pow_add_r by lia. apply pow2_le. lia. }
  set (n := h * a / b). set (m := (h * a) mod b).
  pose proof (Z.div_mod (h * a) b ltac:(lia)) as Hdm. fold n m in Hdm.
  pose proof (Z.mod_pos_bound (h * a) b ltac:(lia)) as Hm. fold m in Hm.
  assert (Hn0 : 0 <= n) by (apply Z.div_pos; nia).
  assert (Hn : n < 2 ^ 34).
  { apply Z.div_lt_upper_bound; [lia|].
    replace (2 ^ 34) with (2 ^ 17 * 2 ^ 17) by reflexivity. nia. }
  (* h * A and h * (A + G), times b, against h * a *)
  assert (P1 : h * a * 2 ^ K <= h * (A + G) * b).
  { replace (h * a * 2 ^ K) with (h * (a * 2 ^ K)) by ring.
    replace (h * (A + G) * b) with (h * ((A + G) * b)) by ring.
    apply Z.mul_le_mono_nonneg_l; lia. }
  assert (P2 : h * A * b <= h * a * 2 ^ K).
  { replace (h * a * 2 ^ K) with (h * (a * 2 ^ K)) by ring.
    replace (h * A * b) with (h * (A * b)) by ring.
    apply Z.mul_le_mono_nonneg_l; lia. }
  assert (Hr0 : 0 <= r) by lia.
  assert (Lr : h * A <= h * r) by (apply Z.mul_le_mono_nonneg_l; lia).
  assert (Ur : h * r <= h * (A + G)) by (apply Z.mul_le_mono_nonneg_l; lia).
  (* from above *)
  set (C := ((n + 1) * 2 ^ 17 - 1) * T).
  assert (RC : rounded C = C).
  { unfold C, T. replace (K - 17) with (-17 + K) by lia. apply rounded_scaled; [|lia].
    assert (2 ^ 34 * 2 ^ 17 <= 2 ^ 53) by (vm_compute; discriminate).
    assert (0 < 2 ^ 17) by reflexivity. nia. }
  assert (UC : h * (A + G) <= C).
  { apply Z.mul_le_mono_pos_r with b; [lia|].
    replace (h * (A + G) * b) with (h * A * b + h * b * G) by ring.
    unfold C. rewrite EKT in P2.
    replace (((n + 1) * 2 ^ 17 - 1) * T * b) with ((b * n + b) * (2 ^ 17 * T) - b * T) by ring.
    assert (h * a * (2 ^ 17 * T) <= (b * n + b - 1) * (2 ^ 17 * T))
      by (apply Z.mul_le_mono_nonneg_r; lia).
    assert ((b + 1) * T <= 2 ^ 17 * T) by (apply Z.mul_le_mono_nonneg_r; lia).
    lia. }
  assert (Y1 : rounded (h * r) <= C).
  { rewrite <- RC. apply rounded_mono. split; [nia | lia]. }
  assert (DC : C / 2 ^ K = n).
  { symmetry. apply Z.div_unique with ((2 ^ 17 - 1) * T).
    - left. assert (0 < 2 ^ 17 - 1) by reflexivity. split; [nia|]. rewrite EKT. nia.
    - unfold C. rewrite EKT. ring. }
  assert (Up : rounded (h * r) / 2 ^ K <= n).
  { rewrite <- DC. apply Z.div_le_mono; lia. }
  (* from below *)
  assert (HbG : h * b * G <= 2 ^ K) by (rewrite EKT; assert (1 <= 2 ^ 17) by (vm_compute; discriminate); nia).
  assert (Low : forall c, 0 <= c < 2 ^ 53 -> c * b * 2 ^ K + h * b * G <= h * a * 2 ^ K ->
                          c <= rounded (h * r) / 2 ^ K).
  { intros c Hc H. apply Z.div_le_lower_bound; [lia|].
    pose proof (rounded_int_scaled c 0 Hc ltac:(lia)) as Ec. rewrite Z.add_0_l in Ec.
    rewrite Z.mul_comm, <- Ec. apply rounded_mono. split; [nia|].
    apply Z.le_trans with (h * A); [|exact Lr].
    apply Z.mul_le_mono_pos_r with b; [lia|].
    replace (h * (A + G) * b) with (h * A * b + h * b * G) in P1 by ring. lia. }
  assert (H53 : 2 ^ 34 < 2 ^ 53) by reflexivity.
  split; [split; [|exact Up]|].
  - destruct (Z.eq_dec n 0) as [E0|N0].
    + rewrite E0. assert (0 <= rounded (h * r) / 2 ^ K)
        by (apply Z.div_pos; [apply rounded_nonneg; nia | lia]). lia.
    + apply Low; [lia|].
      assert (h * b * G <= b * 2 ^ K).
      { apply Z.le_trans with (T * b); [nia|]. rewrite EKT.
        assert (1 <= 2 ^ 17) by (vm_compute; discriminate). nia. }
      replace (h * a * 2 ^ K) with ((b * n + m) * 2 ^ K) by (rewrite Hdm; ring).
      replace ((n - 1) * b * 2 ^ K) with (b * n * 2 ^ K - b * 2 ^ K) by ring.
      assert (0 <= m * 2 ^ K) by nia. lia.
  - intros Nm. apply Z.le_antisymm; [exact Up|].
    apply Low; [lia|].
    replace (h * a * 2 ^ K) with ((b * n + m) * 2 ^ K) by (rewrite Hdm; ring).
    assert (1 * 2 ^ K <= m * 2 ^ K) by (apply Z.mul_le_mono_nonneg_r; lia).
    lia.
Qed.

Section Resize.

Variable Image_resize : Image -> Z * Z -> result Image.

(** The size [resize_watermark] asks Pillow for. *)
Lemma resize_watermark_run (base_image watermark : Image) (scale_factor : float)
    (bw bh w h : Z) :
  im_size base_image = (bw, bh) -> im_size watermark = (w, h) ->
  0 <= bw < 2 ^ 53 -> 1 <= w < 2 ^ 53 -> 0 <= h < 2 ^ 53 ->
  (0 <=? scale_factor)%float = true -> (scale_factor <=? 1)%float = true ->
  exists width height,
    resize_watermark Image_resize base_image watermark scale_factor
    = Image_resize watermark (width, height)
    /\ (scaled <~ PyFloat.int_mul bw scale_factor ;; PyFloat.to_int scaled) = Ok width
    /\ 0 <= width <= bw /\ 0 <= height
    /\ (width <= w -> height <= h)
    /\ (forall k, 0 <= k -> k * h < 2 ^ 53 -> width = k * w -> height = k * h)
    /\ (bw < 2 ^ 17 -> w < 2 ^ 17 -> h < 2 ^ 17 ->
        h * width / w - 1 <= height <= h * width / w
        /\ ((h * width) mod w <> 0 -> height = h * width / w)).
Proof.
  intros Eb Ew Hbw Hw Hh L U. pose proof K_pow_pos as HK.
  assert (N : is_nonneg scale_factor = true) by (apply (leb_nonneg 0); [reflexivity | exact L]).
  rewrite leb_value in U by (try exact N; reflexivity). apply Z.leb_le in U.
  rewrite value_one in U.
  assert (R : is_real scale_factor = true)
    by (apply (nonneg_le_real _ 0); [exact N | lia | rewrite Z.add_0_l; exact U]).
  destruct (int_times_float bw scale_factor 0 Hbw N R ltac:(lia)
              ltac:(rewrite Z.add_0_l; exact U)) as (f1 & E1 & _).
  set (width := rounded (bw * value scale_factor) / 2 ^ K) in *.
  pose proof (value_nonneg scale_factor) as V0.
  assert (Hwidth : 0 <= width <= bw).
  { unfold width. split; [apply Z.div_pos; [apply rounded_nonneg; nia | lia]|].
    apply Z.div_le_upper_bound; [lia|].
    pose proof (rounded_int_scaled bw 0 Hbw ltac:(lia)) as E0. rewrite Z.add_0_l in E0.
    apply Z.le_trans with (rounded (bw * 2 ^ K)); [|rewrite E0; lia].
    apply rounded_mono. split; [nia|]. apply Z.mul_le_mono_nonneg_l; lia. }
  pose proof (pow2_le 53 1000 ltac:(lia)) as P53.
  assert (Hratio : exists ratio,
             PyFloat.int_truediv width w = Ok ratio
             /\ is_nonneg ratio = true /\ is_real ratio = true
             /\ (width <= w -> value ratio <= 2 ^ K)
             /\ value ratio <= 2 ^ (53 + K)
             /\ (forall k, 0 <= k < 2 ^ 53 -> width = k * w -> value ratio = k * 2 ^ K)
             /\ (bw < 2 ^ 17 -> w < 2 ^ 17 -> h < 2 ^ 17 ->
                 h * width / w - 1 <= rounded (h * value ratio) / 2 ^ K <= h * width / w
                 /\ ((h * width) mod w <> 0 ->
                     rounded (h * value ratio) / 2 ^ K = h * width / w))).
  { destruct (Z.eq_dec width 0) as [E0|N0].
    - rewrite E0, int_truediv_zero by lia. exists 0%float.
      split; [reflexivity|]. split; [reflexivity|]. split; [reflexivity|].
      change (value 0) with 0. split; [lia|].
      split; [apply Z.lt_le_incl, pow2_pos; unfold K; lia|].
      split; [intros k Hk E; assert (k = 0) by nia; subst k; reflexivity|].
      intros _ _ _. rewrite !Z.mul_0_r, rounded_zero, Zmod_0_l, !Zdiv_0_l.
      split; [lia | intros C; contradiction C; reflexivity].
    - destruct (int_truediv_bounds width w ltac:(lia) ltac:(lia))
        as (ratio & E & Nr & Rr & Lo & Hi).
      exists ratio. split; [exact E|]. split; [exact Nr|]. split; [exact Rr|].
      split; [|split; [|split]].
      4:{ intros Sb Sw Sh.
          apply (proportional_height width w h (value ratio)); try assumption; lia. }
      + intros Hle. pose proof (rounded_pow2 0 ltac:(lia)) as E0. rewrite Z.add_0_l in E0.
        apply Hi; [exact E0|]. rewrite Z.mul_comm. apply Z.mul_le_mono_nonneg_l; lia.
      + apply Hi; [apply rounded_pow2; lia|].
        rewrite Z.pow_add_r by (unfold K; lia).
        replace (2 ^ 53 * 2 ^ K * w) with (2 ^ 53 * w * 2 ^ K) by ring.
        apply Z.mul_le_mono_nonneg_r; [lia|]. nia.
      + intros k Hk Ek.
        pose proof (rounded_int_scaled k 0 Hk ltac:(lia)) as Er. rewrite Z.add_0_l in Er.
        apply Z.le_antisymm.
        * apply Hi; [exact Er|]. rewrite Ek. lia.
        * apply Lo; [exact Er | nia |]. rewrite Ek. lia. }
  destruct Hratio as (ratio & E2 & Nr & Rr & Rle & Rcap & Rk & Rasp).
  destruct (int_times_float h ratio 53 Hh Nr Rr ltac:(lia) Rcap) as (f2 & E3 & _).
  set (height := rounded (h * value ratio) / 2 ^ K) in *.
  pose proof (value_nonneg ratio) as Vr0.
  exists width, height. split.
  { unfold resize_watermark. rewrite Eb, Ew. cbn [fst snd].
    destruct (PyFloat.int_mul bw scale_factor) as [s1|e1]; [|discriminate E1].
    cbn [rbind] in E1 |- *. rewrite E1. cbn [rbind]. rewrite E2. cbn [rbind].
    destruct (PyFloat.int_mul h ratio) as [s2|e2]; [|discriminate E3].
    cbn [rbind] in E3 |- *. rewrite E3. reflexivity. }
  split; [exact E1|]. split; [exact Hwidth|].
  split; [apply Z.div_pos; [apply rounded_nonneg; nia | lia]|].
  split.
  - intros Hle. unfold height. apply Z.div_le_upper_bound; [lia|].
    pose proof (rounded_int_scaled h 0 Hh ltac:(lia)) as E0. rewrite Z.add_0_l in E0.
    apply Z.le_trans with (rounded (h * 2 ^ K)); [|rewrite E0; lia].
    apply rounded_mono. split; [nia|].
    apply Z.mul_le_mono_nonneg_l; [lia|]. apply Rle. exact Hle.
  - split; [|exact Rasp].
    intros k Hk Hkh Ek.
    assert (Hk53 : 0 <= k < 2 ^ 53) by nia.
    unfold height. rewrite (Rk k Hk53 Ek).
    replace (h * (k * 2 ^ K)) with (k * h * 2 ^ K) by ring.
    pose proof (rounded_int_scaled (k * h) 0 ltac:(nia) ltac:(lia)) as E0.
    rewrite Z.add_0_l in E0. rewrite E0. apply Z.div_mul. lia.
Qed.

End Resize.

(** X14. For a scale factor of [0, 1], a base image narrower than [2^53]
    pixels and a watermark of at least one pixel across,
    [resize_watermark] asks Pillow for a size that is not wider than the
    base image, and not taller than the watermark when it is not wider
    than the watermark. *)
Theorem resized_watermark_stays_within (Image_resize : Image -> Z * Z -> result Image)
    (base_image watermark : Image) (scale_factor : float) :
  0 <= fst (im_size base_image) < 2 ^ 53 ->
  1 <= fst (im_size watermark) < 2 ^ 53 -> 0 <= snd (im_size watermark) < 2 ^ 53 ->
  (0 <=? scale_factor)%float = true -> (scale_factor <=? 1)%float = true ->
  exists width height,
    resize_watermark Image_resize base_image watermark scale_factor
    = Image_resize watermark (width, height)
    /\ 0 <= width <= fst (im_size base_image) /\ 0 <= height
    /\ (width <= fst (im_size watermark) -> height <= snd (im_size watermark)).
Proof.
  intros Hbw Hw Hh L U.
  destruct (im_size base_image) as [bw bh] eqn:Eb.
  destruct (im_size watermark) as [w h] eqn:Ew. cbn [fst snd] in *.
  destruct (resize_watermark_run Image_resize base_image watermark scale_factor bw bh w h
              Eb Ew Hbw Hw Hh L U) as (width & height & E & _ & Bw & Bh & Le & _ & _).
  exists width, height. auto.
Qed.

(** X15. When the width asked for is a whole multiple of the width of the
    watermark, the height asked for is the same multiple of its height:
    the aspect ratio is kept exactly. *)
Theorem whole_factor_resize_is_exact (Image_resize : Image -> Z * Z -> result Image)
    (base_image watermark : Image) (scale_factor : float) (k : Z) :
  0 <= fst (im_size base_image) < 2 ^ 53 ->
  1 <= fst (im_size watermark) < 2 ^ 53 -> 0 <= snd (im_size watermark) < 2 ^ 53 ->
  (0 <=? scale_factor)%float = true -> (scale_factor <=? 1)%float = true ->
  0 <= k -> k * snd (im_size watermark) < 2 ^ 53 ->
  (scaled <~ PyFloat.int_mul (fst (im_size base_image)) scale_factor ;;
   PyFloat.to_int scaled) = Ok (k * fst (im_size watermark)) ->
  resize_watermark Image_resize base_image watermark scale_factor
  = Image_resize watermark (k * fst (im_size watermark), k * snd (im_size watermark)).
Proof.
  intros Hbw Hw Hh L U Hk Hkh Ewidth.
  destruct (im_size base_image) as [bw bh] eqn:Eb.
  destruct (im_size watermark) as [w h] eqn:Ew. cbn [fst snd] in *.
  destruct (resize_watermark_run Image_resize base_image watermark scale_factor bw bh w h
              Eb Ew Hbw Hw Hh L U) as (width & height & E & E1 & _ & _ & _ & Ek & _).
  rewrite Ewidth in E1. inversion E1. subst width.
  rewrite (Ek k Hk Hkh eq_refl) in E. exact E.
Qed.

(** X20. For sizes below [2^17] pixels and a scale factor of [0, 1],
    [resize_watermark] keeps the aspect ratio of the watermark to the
    pixel: the height asked for is the exact proportional height rounded
    down, or one less; and it is the former whenever the exact
    proportional height is not whole. *)
Theorem resize_keeps_the_aspect_ratio (Image_resize : Image -> Z * Z -> result Image)
    (base_image watermark : Image) (scale_factor : float) :
  0 <= fst (im_size base_image) < 2 ^ 17 ->
  1 <= fst (im_size watermark) < 2 ^ 17 -> 0 <= snd (im_size watermark) < 2 ^ 17 ->
  (0 <=? scale_factor)%float = true -> (scale_factor <=? 1)%float = true ->
  exists width height,
    resize_watermark Image_resize base_image watermark scale_factor
    = Image_resize watermark (width, height)
    /\ snd (im_size watermark) * width / fst (im_size watermark) - 1 <= height
       <= snd (im_size watermark) * width / fst (im_size watermark)
    /\ ((snd (im_size watermark) * width) mod fst (im_size watermark) <> 0 ->
        height = snd (im_size watermark) * width / fst (im_size watermark)).
Proof.
  intros Hbw Hw Hh L U.
  destruct (im_size base_image) as [bw bh] eqn:Eb.
  destruct (im_size watermark) as [w h] eqn:Ew. cbn [fst snd] in *.
  assert (P : 2 ^ 17 < 2 ^ 53) by reflexivity.
  destruct (resize_watermark_run Image_resize base_image watermark scale_factor bw bh w h
              Eb Ew ltac:(lia) ltac:(lia) ltac:(lia) L U)
    as (width & height & E & _ & _ & _ & _ & _ & A).
  exists width, height. split; [exact E|]. apply A; lia.
Qed.

(** The one pixel less is met: a watermark of 490 by 392 pixels, brought
    to a width of 10 on a base image of 50, gets a height of 7, not 8. The
    ratio 10 / 490 is rounded down, and 392 times it is just below 8. *)
Lemma proportional_height_one_less (Image_resize : Image -> Z * Z -> result Image)
    (base_height : Z) (base_px watermark_px : Z -> Z -> RGBA) :
  let base_image := {| im_size := (50, base_height); im_px := base_px |} in
  let watermark := {| im_size := (490, 392); im_px := watermark_px |} in
  392 * 10 / 490 = 8
  /\ resize_watermark Image_resize base_image watermark 0.2
     = Image_resize watermark (10, 7).
Proof. split; vm_compute; reflexivity. Qed.

(** ** The entry point *)

Lemma append_length (a b : string) :
  String.length (a ++ b) = (String.length a + String.length b)%nat.
Proof. induction a as [|c a IH]; cbn; [reflexivity | rewrite IH; reflexivity]. Qed.

Lemma append_inj_l (a b c : string) : (a ++ b)%string = (a ++ c)%string -> b = c.
Proof.
  induction a as [|x a IH]; cbn; intros H; [exact H|]. inversion H. apply IH. assumption.
Qed.



Lemma io_bind_returned {A B} (m : IO A) (k : A -> IO B) (w w1 : World) (a : A) :
  m w = (Returns a, w1) -> io_bind m k w = k a w1.
Proof. intros E. unfold io_bind. rewrite E. reflexivity. Qed.

Lemma io_bind_raised {A B} (m : IO A) (k : A -> IO B) (w w1 : World) (r : raised) :
  m w = (Raises r, w1) -> io_bind m k w = (Raises r, w1).
Proof. intros E. unfold io_bind. rewrite E. reflexivity. Qed.


Lemma quiet_ret {A} (a : A) : quiet (io_ret a).
Proof.
  intros w o w' H. inversion H. split; [reflexivity|]. exists []. rewrite app_nil_r. reflexivity.
Qed.

Lemma quiet_raise {A} (r : raised) : quiet (@io_raise A r).
Proof.
  intros w o w' H. inversion H. split; [reflexivity|]. exists []. rewrite app_nil_r. reflexivity.
Qed.

Lemma quiet_bind {A B} (m : IO A) (k : A -> IO B) :
  quiet m -> (forall a, quiet (k a)) -> quiet (io_bind m k).
Proof.
  intros Hm Hk w o w' H. unfold io_bind in H.
  destruct (m w) as [[a|r] w1] eqn:E.
  - destruct (Hm _ _ _ E) as [S1 [l1 P1]]. destruct (Hk a _ _ _ H) as [S2 [l2 P2]].
    split; [congruence|]. exists (l1 ++ l2)%list. rewrite P2, P1, app_assoc. reflexivity.
  - inversion H; subst. exact (Hm _ _ _ E).
Qed.

Lemma quiet_result {A} (r : result A) : quiet (io_result r).
Proof. destruct r; [apply quiet_ret | apply quiet_raise]. Qed.

Lemma quiet_run {A} (m : M A) : output_blind m -> quiet (io_run m).
Proof.
  intros (r & lines & Hm) w o w' H. unfold io_run in H. rewrite Hm in H.
  inversion H. cbn [saved printed]. split; [reflexivity|]. exists lines. reflexivity.
Qed.

Section ScriptFacts.

Variable Image_fits : Z * Z -> bool.
Variables libm_cos libm_sin : float -> float.
Variable ImageColor_getcolor : string -> option RGBA.
Variable ImageFont_truetype : string -> Z -> result Font.
Variable ImageFont_load_default : Font.
Variable Image_rotate : Image -> float -> Image.
Variable blend : RGBA -> RGBA -> Z -> RGBA.
Variable Image_resize : Image -> Z * Z -> result Image.
Variable Image_blend_px : Z -> Z -> float -> Z.
Variable os_path_exists : string -> bool.
Variable os_path_splitext : string -> string * string.
Variable os_path_dirname : string -> string.
Variable str_lower : string -> string.
Variable Image_open : string -> result Image.
Variable os_makedirs : string -> result unit.
Variable Image_save : string -> bands -> Image -> result unit.
Variable str_exn : exn -> string.


(** X16. When the input file does not exist, [main] prints one line that
    names the file, saves nothing and makes no directory. *)
Theorem missing_input_is_reported (args : Args) (w : World) :
  os_path_exists (args_input args) = false ->
  main Image_fits libm_cos libm_sin ImageColor_getcolor ImageFont_truetype
    ImageFont_load_default Image_rotate blend Image_resize Image_blend_px os_path_exists
    os_path_splitext os_path_dirname str_lower Image_open os_makedirs Image_save str_exn
    args w
  = (Returns tt,
     {| printed := printed w
                   ++ [("An error occurred: The file '" ++ args_input args
                        ++ "' does not exist.")%string];
        made := made w; saved := saved w |}).
Proof.
  intros H. unfold main, main_try, io_bind, load_image. rewrite H. reflexivity.
Qed.

(** X17. A text that is empty or missing selects the image watermark: when
    the input loads and the watermark image does not exist, [main] prints
    the line that names the watermark file and saves nothing. *)
Theorem empty_text_asks_for_the_watermark_image (args : Args) (w : World)
    (base_image : Image) :
  args_text args = None \/ args_text args = Some EmptyString ->
  os_path_exists (args_input args) = true ->
  Image_open (args_input args) = Ok base_image ->
  os_path_exists (args_watermark args) = false ->
  main Image_fits libm_cos libm_sin ImageColor_getcolor ImageFont_truetype
    ImageFont_load_default Image_rotate blend Image_resize Image_blend_px os_path_exists
    os_path_splitext os_path_dirname str_lower Image_open os_makedirs Image_save str_exn
    args w
  = (Returns tt,
     {| printed := printed w
                   ++ [("An error occurred: The file '" ++ args_watermark args
                        ++ "' does not exist.")%string];
        made := made w; saved := saved w |}).
Proof.
  intros Ht He Ho Hw. unfold main, main_try.
  unfold io_bind at 1. unfold load_image at 1. rewrite He, Ho. cbn [negb io_ret].
  assert (G : given (args_text args) = None) by (destruct Ht as [-> | ->]; reflexivity).
  rewrite G. unfold io_bind, load_image. rewrite Hw. reflexivity.
Qed.

(** X18. The path [main] saves to when no output is given is never the
    path of the input, for a [splitext] that splits the input into a root
    and an extension that is empty or starts with a period. *)
Theorem default_output_is_not_the_input (input : string) :
  (fst (os_path_splitext input) ++ snd (os_path_splitext input))%string = input ->
  snd (os_path_splitext input) = EmptyString
  \/ (exists rest, snd (os_path_splitext input) = String "." rest) ->
  default_output_path os_path_splitext str_lower input <> input.
Proof.
  intros Hsplit Hext E. unfold default_output_path in E.
  destruct (os_path_splitext input) as [name ext]. cbn [fst snd] in *.
  rewrite <- Hsplit in E. apply append_inj_l in E.
  destruct (existsb (String.eqb (str_lower ext)) SUPPORTED_EXTENSIONS).
  - apply (f_equal String.length) in E. rewrite append_length in E. cbn in E. lia.
  - destruct Hext as [-> | [rest ->]]; discriminate E.
Qed.

Lemma quiet_load_image (path : string) :
  quiet (load_image os_path_exists Image_open path).
Proof.
  unfold load_image. destruct (negb (os_path_exists path)); [apply quiet_raise|].
  destruct (Image_open path) as [im|[]]; first [apply quiet_ret | apply quiet_raise].
Qed.

Lemma load_image_returns (path : string) (w w' : World) (im : Image) :
  load_image os_path_exists Image_open path w = (Returns im, w') ->
  Image_open path = Ok im.
Proof.
  unfold load_image. destruct (negb (os_path_exists path)); [discriminate|].
  destruct (Image_open path) as [im'|[]]; cbn; intros H; inversion H; reflexivity.
Qed.

Lemma quiet_makedirs (path : string) : quiet (makedirs os_makedirs path).
Proof.
  intros w o w' H. unfold makedirs in H.
  destruct (os_makedirs path); inversion H; cbn [saved printed];
    (split; [reflexivity|]); exists []; rewrite app_nil_r; reflexivity.
Qed.

(** The watermark and its position, by either branch of [main]. *)
Lemma quiet_branch (args : Args) (base_image : Image) :
  quiet
    (match given (args_text args) with
     | Some text =>
         watermark <-- io_run (create_photo_text_watermark Image_fits libm_cos libm_sin
                                 ImageColor_getcolor ImageFont_truetype
                                 ImageFont_load_default Image_rotate blend
                                 (im_size base_image) text (args_font args)
                                 (args_font_size args) (args_font_color args)
                                 (args_outline_color args) (args_outline_width args)
                                 (args_angle args) (args_density args)) ;;
         watermark <-- io_result (set_opacity Image_blend_px watermark (args_opacity args)) ;;
         io_ret (watermark, Some (0, 0))
     | None =>
         watermark <-- load_image os_path_exists Image_open (args_watermark args) ;;
         watermark <-- io_result (resize_watermark Image_resize base_image watermark
                                    (args_scale args)) ;;
         watermark <-- io_result (set_opacity Image_blend_px watermark (args_opacity args)) ;;
         io_ret (watermark,
                 calculate_position base_image watermark (args_position args))
     end).
Proof.
  destruct (given (args_text args)) as [text|].
  - apply quiet_bind; [apply quiet_run, blind_photo|]. intros wm.
    apply quiet_bind; [apply quiet_result|]. intros wm'. apply quiet_ret.
  - apply quiet_bind; [apply quiet_load_image|]. intros wm.
    apply quiet_bind; [apply quiet_result|]. intros wm'.
    apply quiet_bind; [apply quiet_result|]. intros wm''. apply quiet_ret.
Qed.

(** A run of the body of [main]: it raises and has saved nothing, or it
    returns and has saved one file. *)
Lemma main_try_cases (args : Args) (w : World) :
  let run := main_try Image_fits libm_cos libm_sin ImageColor_getcolor ImageFont_truetype
               ImageFont_load_default Image_rotate blend Image_resize Image_blend_px
               os_path_exists os_path_splitext os_path_dirname str_lower Image_open
               os_makedirs Image_save args w in
  (exists r, fst run = Raises r /\ saved (snd run) = saved w)
  \/ exists base_image file,
       fst run = Returns tt
       /\ Image_open (args_input args) = Ok base_image
       /\ saved (snd run) = (saved w ++ [file])%list
       /\ im_size (saved_image file) = im_size base_image
       /\ saved_path file
          = match given (args_output args) with
            | Some path => path
            | None => default_output_path os_path_splitext str_lower (args_input args)
            end
       /\ saved_bands file
          = (if endswith (str_lower (saved_path file)) ".jpg"
                || endswith (str_lower (saved_path file)) ".jpeg"
             then RGB_bands else RGBA_bands)
       /\ exists lines,
            printed (snd run)
            = (printed w ++ lines
               ++ [("Watermark applied successfully! Saved to " ++ saved_path file)%string])%list.
Proof.
  intros run. subst run. unfold main_try.
  destruct (load_image os_path_exists Image_open (args_input args) w) as [[base|r] w0] eqn:E0;
    destruct (quiet_load_image _ _ _ _ E0) as [S0 [l0 P0]];
    [rewrite (io_bind_returned _ _ _ _ _ E0)
    |rewrite (io_bind_raised _ _ _ _ _ E0); left; exists r; split; [reflexivity | exact S0]].
  pose proof (load_image_returns _ _ _ _ E0) as Eopen.
  match goal with |- context [io_bind ?m _ w0] =>
    destruct (m w0) as [[[wm pos]|r] w1] eqn:E1;
      destruct (quiet_branch args base _ _ _ E1) as [S1 [l1 P1]];
      [rewrite (io_bind_returned _ _ _ _ _ E1)
      |rewrite (io_bind_raised _ _ _ _ _ E1); left; exists r; split; [reflexivity | cbn [snd]; congruence]]
  end.
  set (path := match given (args_output args) with
               | Some path => path
               | None => default_output_path os_path_splitext str_lower (args_input args)
               end).
  unfold save_image.
  match goal with |- context [io_bind (io_bind ?m _) _ w1] =>
    assert (Q : quiet m)
      by (destruct (os_path_dirname path);
          [apply quiet_ret
          | destruct (negb (os_path_exists _)); [apply quiet_makedirs | apply quiet_ret]]);
    destruct (m w1) as [[u|r] w2] eqn:E2; destruct (Q _ _ _ E2) as [S2 [l2 P2]]
  end.
  2:{ left. exists r.
      erewrite io_bind_raised; [|erewrite io_bind_raised; [reflexivity | exact E2]].
      split; [reflexivity | cbn [snd]; congruence]. }
  match goal with |- context [save Image_save path ?b ?im] =>
    destruct (Image_save path b im) as [u'|e] eqn:E3
  end.
  - right. eexists base, _.
    erewrite io_bind_returned;
      [|erewrite io_bind_returned; [|exact E2]; unfold save; rewrite E3; reflexivity].
    cbn [fst snd io_print saved printed saved_path saved_image saved_bands].
    split; [reflexivity|]. split; [exact Eopen|].
    split; [rewrite S2, S1, S0; reflexivity|].
    split; [reflexivity|]. split; [reflexivity|]. split; [reflexivity|].
    exists (l0 ++ l1 ++ l2)%list. rewrite P2, P1, P0, <- !app_assoc. reflexivity.
  - left. exists (Library e).
    erewrite io_bind_raised;
      [|erewrite io_bind_returned; [|exact E2]; unfold save; rewrite E3; reflexivity].
    split; [reflexivity | cbn [snd]; congruence].
Qed.

(** X19. A run of [main] saves nothing, or it saves exactly one file: a
    raster of the size of the input image, at the output path given or
    else at the default one, without its alpha band when the path ends in
    .jpg or .jpeg in any case and with it otherwise, and the last line
    printed says so. *)
Theorem main_saves_one_image_of_the_input_size (args : Args) (w : World) :
  let w' := snd (main Image_fits libm_cos libm_sin ImageColor_getcolor ImageFont_truetype
                   ImageFont_load_default Image_rotate blend Image_resize Image_blend_px
                   os_path_exists os_path_splitext os_path_dirname str_lower Image_open
                   os_makedirs Image_save str_exn args w) in
  saved w' = saved w
  \/ exists base_image file,
       Image_open (args_input args) = Ok base_image
       /\ saved w' = (saved w ++ [file])%list
       /\ im_size (saved_image file) = im_size base_image
       /\ saved_path file
          = match given (args_output args) with
            | Some path => path
            | None => default_output_path os_path_splitext str_lower (args_input args)
            end
       /\ saved_bands file
          = (if endswith (str_lower (saved_path file)) ".jpg"
                || endswith (str_lower (saved_path file)) ".jpeg"
             then RGB_bands else RGBA_bands)
       /\ exists lines,
            printed w'
            = (printed w ++ lines
               ++ [("Watermark applied successfully! Saved to " ++ saved_path file)%string])%list.
Proof.
  intros w'. subst w'. unfold main.
  destruct (main_try_cases args w)
    as [(r & E & S)|(base & file & E & Eo & S & Sz & Sp & Sb & P)];
    cbv zeta in *;
    destruct (main_try _ _ _ _ _ _ _ _ _ _ _ _ _ _ _ _ _ args w) as [[u|r'] w1];
    cbn [fst snd] in *; try discriminate E.
  - left. exact S.
  - right. exists base, file. repeat (split; [assumption|]). exact P.
Qed.

End ScriptFacts.

(** ** More runs in the concrete world *)

#[local] Open Scope string_scope.



(** X1 on a machine whose only font file is DejaVuSans.ttf, the eleventh
    name of the list. *)
Lemma system_font_witness :
  get_system_font Sample.truetype_linux Sample.load_default []
  = (Ok (Sample.block_font 0 false), []).
Proof.
  apply (system_font_is_first_that_loads Sample.truetype_linux Sample.load_default
           ["Arial.ttf"; "arial.ttf"; "Verdana.ttf"; "verdana.ttf"; "Tahoma.ttf";
            "tahoma.ttf"; "Times.ttf"; "times.ttf"; "TimesNewRoman.ttf";
            "timesnewroman.ttf"]
           ["DejaVuSans-Bold.ttf"; "Helvetica.ttf"; "helvetica.ttf";
            "/usr/share/fonts/truetype/dejavu/DejaVuSans.ttf";
            "/usr/share/fonts/TTF/Arial.ttf"; "/System/Library/Fonts/Helvetica.ttf";
            "C:\Windows\Fonts\arial.ttf"; "C:\Windows\Fonts\verdana.ttf"]
           "DejaVuSans.ttf" (Sample.block_font 0 false) []).
  - reflexivity.
  - intros n Hn. cbn [In] in Hn.
    repeat (destruct Hn as [<-|Hn]; [reflexivity|]). destruct Hn.
  - reflexivity.
Defined.

(** X3 for the font sizes 24 and 7. *)
Lemma font_size_unused_witness :
  Sample.photo_text (40, 30) "AB" None 24 "#ffffff" "#000000" 1 0 0.5 []
  = Sample.photo_text (40, 30) "AB" None 7 "#ffffff" "#000000" 1 0 0.5 [].
Proof.
  apply (font_size_unused_without_font_path Sample.fits Sample.cos Sample.sin Sample.getcolor
           Sample.truetype Sample.load_default Sample.rotate Sample.blend (40, 30) "AB"
           24 7 "#ffffff" "#000000" 1 0 0.5 []);
    (split; [lia | reflexivity]).
Defined.

(** X4 for a font file that is not there. *)
Lemma unloadable_font_witness :
  Sample.photo_text (40, 30) "AB" (Some "missing.ttf") 24 "#ffffff" "#000000" 1 0 0.5 []
  = Sample.photo_text (40, 30) "AB" None 24 "#ffffff" "#000000" 1 0 0.5
      ["Warning: Could not load font from missing.ttf. Using system font."].
Proof.
  apply (unloadable_font_uses_system_font Sample.fits Sample.cos Sample.sin Sample.getcolor
           Sample.truetype Sample.load_default Sample.rotate Sample.blend (40, 30) "AB"
           "missing.ttf" 24 "#ffffff" "#000000" 1 0 0.5 []).
  - discriminate.
  - split; [lia | reflexivity].
  - reflexivity.
Defined.



(** X7 for a tile of 16 by 12 pixels at density 0.5. *)
Lemma spacing_at_least_one_witness :
  exists spacing,
    base_spacing 16 12 (spacing_factor 0.5) = Ok spacing /\ 1 <= spacing.
Proof.
  apply (spacing_at_least_one 16 12 0.5). split; [vm_compute; discriminate | reflexivity].
Defined.

(** X8 for "AB" in the cell font, whose box starts at the drawing
    position, with an outline of one pixel. *)
Lemma draws_inside_witness :
  exists draw out',
    single_text_draw Sample.fits Sample.getcolor "AB" (Sample.block_font 0 false) 24 "#ffffff"
                     "#000000" 1 [] = (Ok draw, out')
    /\ forall call, In call (draw_calls draw) ->
         box_inside (im_size (draw_im draw)) (call_box (Sample.block_font 0 false) call)
         = true.
Proof.
  eexists. eexists. split.
  - apply single_text_draw_run; repeat split; vm_compute; first [reflexivity | discriminate].
  - apply (draws_inside_when_anchored Sample.fits Sample.getcolor "AB"
             (Sample.block_font 0 false) 24 "#ffffff" "#000000" 1 [] _ _ 0 0 12 8
             (single_text_draw_run Sample.fits Sample.getcolor "AB" (Sample.block_font 0 false) 24
                "#ffffff" "#000000" 1 []
                ltac:(repeat split; vm_compute; first [reflexivity | discriminate])
                ltac:(repeat split; vm_compute; first [reflexivity | discriminate])));
      first [reflexivity | lia].
Defined.

(** X9 for "AB" in the cell font: a box of 12 by 8 and an outline of
    one pixel give a tile of 16 by 12. *)
Lemma single_text_size_witness :
  exists tile out',
    Sample.single_text "AB" (Sample.block_font 0 false) 24 "#ffffff" "#000000" 1 []
    = (Ok tile, out')
    /\ im_size tile = (16, 12).
Proof.
  eexists. eexists. split.
  - apply single_text_run; repeat split; vm_compute; first [reflexivity | discriminate].
  - apply (single_text_size Sample.fits Sample.getcolor "AB" (Sample.block_font 0 false) 24
             "#ffffff" "#000000" 1 [] _ _
             (single_text_run Sample.fits Sample.getcolor "AB" (Sample.block_font 0 false) 24
                "#ffffff" "#000000" 1 []
                ltac:(repeat split; vm_compute; first [reflexivity | discriminate])
                ltac:(repeat split; vm_compute; first [reflexivity | discriminate]))).
Defined.

(** X10 for the logo at the top right of the photo. *)
Lemma corner_position_witness :
  exists x y,
    calculate_position Sample.photo Sample.logo "top-right" = Some (x, y)
    /\ DEFAULT_PADDING <= x
    /\ x + fst (im_size Sample.logo) <= fst (im_size Sample.photo) - DEFAULT_PADDING
    /\ DEFAULT_PADDING <= y
    /\ y + snd (im_size Sample.logo) <= snd (im_size Sample.photo) - DEFAULT_PADDING.
Proof.
  apply (corner_position_keeps_the_padding Sample.photo Sample.logo "top-right").
  - right. left. reflexivity.
  - vm_compute. discriminate.
  - vm_compute. discriminate.
Defined.

(** X12 for the position "middle". *)
Lemma unknown_position_witness :
  calculate_position Sample.photo Sample.logo "middle" = None
  /\ apply_watermark Sample.blend Sample.photo Sample.logo
       (calculate_position Sample.photo Sample.logo "middle")
     = apply_watermark Sample.blend Sample.photo Sample.logo (Some (0, 0)).
Proof.
  apply (unknown_position_pastes_at_the_origin Sample.blend Sample.photo Sample.logo
           "middle").
  intros H. cbn [position_names corner_names app In] in H.
  repeat (destruct H as [H|H]; [discriminate H|]). exact H.
Defined.

(** X13 for the logo, whose right half is transparent, pasted on the
    photo at (5, 5) with opacity 0.3: the pixel (12, 6) is the photo's. *)
Lemma transparent_pixels_witness :
  exists faded,
    set_opacity Sample.blend_px Sample.logo 0.3 = Ok faded
    /\ im_size (apply_watermark Sample.blend Sample.photo faded (Some (5, 5)))
       = im_size Sample.photo
    /\ im_px (apply_watermark Sample.blend Sample.photo faded (Some (5, 5))) 12 6
       = im_px Sample.photo 12 6.
Proof.
  apply (transparent_watermark_pixels_keep_the_photo Sample.blend_px Sample.blend
           Sample.photo Sample.logo 0.3 (Some (5, 5)) 12 6).
  - intros a. reflexivity.
  - intros [[[r1 g1] b1] a1] [[[r2 g2] b2] a2]. unfold Sample.blend.
    rewrite !Z.mul_0_r, !Z.add_0_r. change (255 - 0) with 255.
    rewrite !Z.div_mul by discriminate. reflexivity.
  - vm_compute. discriminate.
  - vm_compute. discriminate.
  - reflexivity.
Defined.

(** X14 for the logo of 10 by 5 on the photo of 40 by 30 at scale 0.2. *)
Lemma resized_watermark_witness :
  exists width height,
    resize_watermark Sample.resize Sample.photo Sample.logo 0.2
    = Sample.resize Sample.logo (width, height)
    /\ 0 <= width <= fst (im_size Sample.photo) /\ 0 <= height
    /\ (width <= fst (im_size Sample.logo) -> height <= snd (im_size Sample.logo)).
Proof.
  apply (resized_watermark_stays_within Sample.resize Sample.photo Sample.logo 0.2);
    first [ reflexivity
          | split; [vm_compute; discriminate | vm_compute; reflexivity] ].
Defined.

(** X15 for the logo of 10 by 5 on the photo of 40 by 30 at scale 0.5:
    twice the size, 20 by 10. *)
Lemma whole_factor_resize_witness :
  resize_watermark Sample.resize Sample.photo Sample.logo 0.5
  = Sample.resize Sample.logo (2 * fst (im_size Sample.logo),
                               2 * snd (im_size Sample.logo)).
Proof.
  apply (whole_factor_resize_is_exact Sample.resize Sample.photo Sample.logo 0.5 2);
    first [ reflexivity
          | split; [vm_compute; discriminate | vm_compute; reflexivity]
          | vm_compute; discriminate
          | vm_compute; reflexivity ].
Defined.

(** X20 for the logo of 10 by 5 on the photo of 40 by 30 at scale 0.2. *)
Lemma aspect_ratio_witness :
  exists width height,
    resize_watermark Sample.resize Sample.photo Sample.logo 0.2
    = Sample.resize Sample.logo (width, height)
    /\ snd (im_size Sample.logo) * width / fst (im_size Sample.logo) - 1 <= height
       <= snd (im_size Sample.logo) * width / fst (im_size Sample.logo)
    /\ ((snd (im_size Sample.logo) * width) mod fst (im_size Sample.logo) <> 0 ->
        height = snd (im_size Sample.logo) * width / fst (im_size Sample.logo)).
Proof.
  apply (resize_keeps_the_aspect_ratio Sample.resize Sample.photo Sample.logo 0.2);
    first [ reflexivity
          | split; [vm_compute; discriminate | vm_compute; reflexivity] ].
Defined.

(** X16 for an input that is not on the disk. *)
Lemma missing_input_witness :
  Sample.script_main (Sample.args_for "nowhere.jpg" (Some "AB")) Sample.empty_world
  = (Returns tt,
     {| printed := ["An error occurred: The file 'nowhere.jpg' does not exist."];
        made := []; saved := [] |}).
Proof.
  apply (missing_input_is_reported Sample.fits Sample.cos Sample.sin Sample.getcolor Sample.truetype
           Sample.load_default Sample.rotate Sample.blend Sample.resize Sample.blend_px
           Sample.path_exists Sample.splitext Sample.dirname Sample.lower
           Sample.open_image Sample.makedirs_ok Sample.save_ok Sample.str_exn
           (Sample.args_for "nowhere.jpg" (Some "AB")) Sample.empty_world).
  reflexivity.
Defined.

(** X17 for an empty text: the default watermark image is not on the
    disk. *)
Lemma empty_text_witness :
  Sample.script_main (Sample.args_for "photo.jpg" (Some "")) Sample.empty_world
  = (Returns tt,
     {| printed := ["An error occurred: The file 'watermark-logo.png' does not exist."];
        made := []; saved := [] |}).
Proof.
  apply (empty_text_asks_for_the_watermark_image Sample.fits Sample.cos Sample.sin Sample.getcolor
           Sample.truetype Sample.load_default Sample.rotate Sample.blend Sample.resize
           Sample.blend_px Sample.path_exists Sample.splitext Sample.dirname Sample.lower
           Sample.open_image Sample.makedirs_ok Sample.save_ok Sample.str_exn
           (Sample.args_for "photo.jpg" (Some "")) Sample.empty_world Sample.photo).
  - right. reflexivity.
  - reflexivity.
  - reflexivity.
  - reflexivity.
Defined.

(** X18 for the input photo.jpg, saved by default as photo_wm.jpg. *)
Lemma default_output_witness :
  default_output_path Sample.splitext Sample.lower "photo.jpg" <> "photo.jpg".
Proof.
  apply (default_output_is_not_the_input Sample.splitext Sample.lower "photo.jpg").
  - reflexivity.
  - right. exists "jpg". reflexivity.
Defined.

(** The sample run end to end: one file, photo_wm.jpg, without alpha,
    of the size of the photo. *)
Lemma sample_run_saves_the_photo :
  let w := snd (Sample.script_main Sample.text_args Sample.empty_world) in
  printed w = ["Watermark applied successfully! Saved to photo_wm.jpg"]
  /\ made w = []
  /\ map saved_path (saved w) = ["photo_wm.jpg"]
  /\ map saved_bands (saved w) = [RGB_bands]
  /\ map (fun file => im_size (saved_image file)) (saved w) = [(40, 30)].
Proof. cbv zeta. repeat split; vm_compute; reflexivity. Qed.
